(** * web-admin: the client reliability conventions of the admin dashboard

    A shallow embedding of the TypeScript sources of the dashboard:
    - [src/lib/idempotency.ts]  ([stableKey], [idemHeader]),
    - [src/lib/apiError.ts]     ([apiErrorMessage]),
    - [src/lib/productImages.ts] ([pickPrimaryImage]),
    - [src/lib/auth.ts]         ([authStore]),
    - [src/lib/api.ts]          ([refreshAccessToken] and the two interceptors),
    - the page-level mutations that attach an [Idempotency-Key] header,
    - [src/components/AuthGuard.tsx] (the effect of the guard),
    - the helpers of the product, coupon and login pages
      ([sanitizeMoneyInput], [parseHighlights], [toggleCategoryId],
      [safeNext], [humanLoginError], ...).

    JavaScript strings are sequences of UTF-16 code units and are modelled
    as [list N]; string literals of the source are written [lit "..."]. *)

From Stdlib Require Import ZArith NArith Lia Ascii String.
From stdpp Require Import gmap list strings sorting.
From Equations Require Import Equations.

Set Warnings "-register-all".
Open Scope N_scope.

(** ** JavaScript strings *)

Abbreviation jstring := (list N).

Definition lit (s : string) : jstring := N_of_ascii <$> list_ascii_of_string s.
Arguments lit : simpl never.

(** [WhiteSpace] and [LineTerminator] of ECMAScript: the class [\s] of
    regular expressions and the characters stripped by [String.prototype.trim]. *)
Definition is_ws (c : N) : bool :=
  (c =? 0x09) || (c =? 0x0A) || (c =? 0x0B) || (c =? 0x0C) || (c =? 0x0D) ||
  (c =? 0x20) || (c =? 0xA0) || (c =? 0x1680) ||
  ((0x2000 <=? c) && (c <=? 0x200A)) ||
  (c =? 0x2028) || (c =? 0x2029) || (c =? 0x202F) || (c =? 0x205F) ||
  (c =? 0x3000) || (c =? 0xFEFF).

Definition underscore : N := 0x5F.

Fixpoint dropWhile {A} (p : A -> bool) (l : list A) : list A :=
  match l with
  | [] => []
  | x :: l' => if p x then dropWhile p l' else l
  end.

(** [s.trim()] *)
Definition trimStart (s : jstring) : jstring := dropWhile is_ws s.
Definition trimEnd (s : jstring) : jstring := reverse (dropWhile is_ws (reverse s)).
Definition trim (s : jstring) : jstring := trimEnd (trimStart s).

(** [s.replace(/\s+/g, "_")]: the scan looks for the leftmost match of
    [\s+]; the match is greedy, so it covers the whole run of whitespace
    starting there; the run is replaced by ["_"] and the scan resumes
    after it. *)
Equations replace_ws_runs (s : jstring) : jstring by wf (length s) lt :=
  replace_ws_runs nil := nil;
  replace_ws_runs (cons c s') with is_ws c := {
    | true => underscore :: replace_ws_runs (dropWhile is_ws s')
    | false => c :: replace_ws_runs s' }.
Next Obligation.
  clear. simpl.
  induction s' as [|x l IH]; simpl; [lia|].
  destruct (is_ws x); simpl; lia.
Qed.

(** [xs.join(sep)] on an array of strings *)
Fixpoint join (sep : jstring) (xs : list jstring) : jstring :=
  match xs with
  | [] => []
  | [x] => x
  | x :: xs' => x ++ sep ++ join sep xs'
  end.

(** [s.slice(0, n)] for a non-negative [n] *)
Definition slice0 (n : nat) (s : jstring) : jstring := take n s.

(** ** JavaScript values

    The type [number] of JavaScript is an IEEE double.  The development
    only converts numbers to strings and tests their truthiness, so the
    type is kept abstract behind these two operations. *)
Class JSNumber (number : Type) := {
  NumberToString : number -> jstring;   (* Number::toString(x) *)
  NumberToBoolean : number -> bool      (* false for +0, -0 and NaN *)
}.

Section Values.
Context {number : Type}.

(** The primitive values that occur in the sources. *)
Inductive prim :=
| PUndefined
| PNull
| PBool (b : bool)
| PNum (n : number)
| PStr (s : jstring).

(** Values as they come out of [JSON.parse] (response bodies, caught
    errors seen as plain records), plus [undefined].  An object is the
    list of its own properties; a read takes the first entry of a key. *)
Inductive JSVal :=
| VPrim (p : prim)
| VArr (items : list JSVal)
| VObj (props : list (jstring * JSVal)).
End Values.
Arguments prim : clear implicits.
Arguments JSVal : clear implicits.

Abbreviation VUndefined := (VPrim PUndefined).
Abbreviation VNull := (VPrim PNull).
Abbreviation VStr s := (VPrim (PStr s)).
Abbreviation VNum n := (VPrim (PNum n)).
Abbreviation VBool b := (VPrim (PBool b)).

Section Conversions.
Context `{JSNumber number}.

(** [String(p)] on a primitive *)
Definition PrimToString (p : prim number) : jstring :=
  match p with
  | PUndefined => lit "undefined"
  | PNull => lit "null"
  | PBool true => lit "true"
  | PBool false => lit "false"
  | PNum n => NumberToString n
  | PStr s => s
  end.

(** [p ?? d] *)
Definition nullish_or (p d : prim number) : prim number :=
  match p with
  | PUndefined | PNull => d
  | _ => p
  end.

(** [Boolean(p)] *)
Definition PrimToBoolean (p : prim number) : bool :=
  match p with
  | PUndefined | PNull => false
  | PBool b => b
  | PNum n => NumberToBoolean n
  | PStr s => negb (bool_decide (s = []))
  end.

(** Own-property lookup in an object literal. *)
Fixpoint own_prop (props : list (jstring * JSVal number)) (k : jstring)
  : option (JSVal number) :=
  match props with
  | [] => None
  | (k', v) :: rest => if bool_decide (k' = k) then Some v else own_prop rest k
  end.

(** [v.k] and [v?.k] for the keys read by the sources ([response],
    [data], [error], [message], [issues], [msg], [accessToken], [token],
    [user], [role]): none of them exists on a prototype, so the read of
    a missing key, or on a primitive or an array, is [undefined].  Every
    plain [v.k] of the sources is applied to a value already known not
    to be [null] or [undefined], so the two forms agree. *)
Definition get_prop (v : JSVal number) (k : string) : JSVal number :=
  match v with
  | VObj props => default VUndefined (own_prop props (lit k))
  | _ => VUndefined
  end.

(** [v[0]] on a value known to be an array *)
Definition get_index0 (v : JSVal number) : JSVal number :=
  match v with
  | VArr (x :: _) => x
  | _ => VUndefined
  end.

(** [a ?? b] *)
Definition nullish (a b : JSVal number) : JSVal number :=
  match a with
  | VUndefined | VNull => b
  | _ => a
  end.

(** [Boolean(v)]: objects and arrays are truthy. *)
Definition ToBoolean (v : JSVal number) : bool :=
  match v with
  | VPrim p => PrimToBoolean p
  | _ => true
  end.

(** [String(v)]; [None] stands for the [TypeError] of [ToPrimitive].
    An array is joined with [","], [null] and [undefined] elements
    giving the empty string.  A plain object gives ["[object Object]"]
    through [Object.prototype.toString], unless it has an own property
    [toString]: in a parsed JSON value that property is not callable,
    [valueOf] then yields no primitive either, and the conversion
    throws. *)
Fixpoint ToString (v : JSVal number) : option jstring :=
  match v with
  | VPrim p => Some (PrimToString p)
  | VArr items =>
      join (lit ",") <$>
        (fix elems (l : list (JSVal number)) : option (list jstring) :=
           match l with
           | [] => Some []
           | x :: l' =>
               match (match x with
                      | VUndefined | VNull => Some []
                      | _ => ToString x
                      end), elems l' with
               | Some sx, Some sl => Some (sx :: sl)
               | _, _ => None
               end
           end) items
  | VObj props =>
      match own_prop props (lit "toString") with
      | Some _ => None
      | None => Some (lit "[object Object]")
      end
  end.

(** [Array.isArray(v)], [typeof v === "object"] *)
Definition isArray (v : JSVal number) : bool :=
  match v with VArr _ => true | _ => false end.
Definition typeof_object (v : JSVal number) : bool :=
  match v with VNull | VArr _ | VObj _ => true | _ => false end.
End Conversions.

(** Numbers whose value is an integer below 2^53 print in decimal; they
    instantiate the abstract interface in the examples. *)
Fixpoint digits (fuel : nat) (n : N) (acc : jstring) : jstring :=
  match fuel with
  | O => acc
  | S fuel' =>
      let acc' := (48 + n mod 10) :: acc in
      if n / 10 =? 0 then acc' else digits fuel' (n / 10) acc'
  end.

#[export] Instance Z_JSNumber : JSNumber Z := {
  NumberToString z :=
    (if (z <? 0)%Z then lit "-" else []) ++
    digits (S (N.to_nat (N.log2 (Z.abs_N z)))) (Z.abs_N z) [];
  NumberToBoolean z := negb (z =? 0)%Z
}.

(** ** src/lib/idempotency.ts *)
Module Idempotency.
Section Idempotency.
Context `{JSNumber number}.

(** An argument of [stableKey]: a primitive or an array of primitives. *)
Inductive part :=
| One (p : prim number)
| Many (ps : list (prim number)).

(** [parts.flat()] (depth 1) *)
Definition flat (parts : list part) : list (prim number) :=
  parts ≫= (λ x, match x with One p => [p] | Many ps => ps end).

(** [const raw = parts.flat().map((p) => String(p ?? "")).join(":").trim()] *)
Definition raw (parts : list part) : jstring :=
  trim (join (lit ":") ((λ p, PrimToString (nullish_or p (PStr []))) <$> flat parts)).

(** [return raw.replace(/\s+/g, "_").slice(0, 160)] *)
Definition stableKey (parts : list part) : jstring :=
  slice0 160 (replace_ws_runs (raw parts)).

(** [idemHeader(...parts)]: the object with the single own property
    [Idempotency-Key]. *)
Definition idemHeader (parts : list part) : list (jstring * jstring) :=
  [(lit "Idempotency-Key", stableKey parts)].
End Idempotency.
End Idempotency.

(** ** Built-ins used by the modules *)

(** [s.includes(needle)] *)
Fixpoint starts_with (needle s : jstring) : bool :=
  match needle, s with
  | [], _ => true
  | _ :: _, [] => false
  | a :: needle', b :: s' => (a =? b) && starts_with needle' s'
  end.

Fixpoint includes (s needle : jstring) : bool :=
  starts_with needle s ||
  match s with
  | [] => false
  | _ :: s' => includes s' needle
  end.

(** [encodeURIComponent(s)]; [None] stands for the [URIError] raised on a
    lone surrogate.  Unreserved characters are kept, every other code
    point is written as the percent-escapes of its UTF-8 bytes. *)
Definition uri_unreserved (c : N) : bool :=
  ((0x41 <=? c) && (c <=? 0x5A)) || ((0x61 <=? c) && (c <=? 0x7A)) ||
  ((0x30 <=? c) && (c <=? 0x39)) ||
  (c =? 0x2D) || (c =? 0x5F) || (c =? 0x2E) || (c =? 0x21) || (c =? 0x7E) ||
  (c =? 0x2A) || (c =? 0x27) || (c =? 0x28) || (c =? 0x29).

Definition hex_digit (n : N) : N := if n <? 10 then 0x30 + n else 0x37 + n.

Definition percent (byte : N) : jstring :=
  [0x25; hex_digit (byte / 16); hex_digit (byte mod 16)].

Definition utf8 (cp : N) : list N :=
  if cp <? 0x80 then [cp]
  else if cp <? 0x800 then [0xC0 + cp / 64; 0x80 + cp mod 64]
  else if cp <? 0x10000 then
    [0xE0 + cp / 4096; 0x80 + (cp / 64) mod 64; 0x80 + cp mod 64]
  else
    [0xF0 + cp / 262144; 0x80 + (cp / 4096) mod 64;
     0x80 + (cp / 64) mod 64; 0x80 + cp mod 64].

Definition is_high_surrogate (c : N) : bool := (0xD800 <=? c) && (c <=? 0xDBFF).
Definition is_low_surrogate (c : N) : bool := (0xDC00 <=? c) && (c <=? 0xDFFF).

Fixpoint encodeURIComponent (s : jstring) : option jstring :=
  match s with
  | [] => Some []
  | c :: s' =>
      if uri_unreserved c then (c ::.) <$> encodeURIComponent s'
      else if is_low_surrogate c then None
      else if is_high_surrogate c then
        match s' with
        | c2 :: s'' =>
            if is_low_surrogate c2 then
              let cp := (c - 0xD800) * 0x400 + (c2 - 0xDC00) + 0x10000 in
              ((utf8 cp ≫= percent) ++.) <$> encodeURIComponent s''
            else None
        | [] => None
        end
      else ((utf8 c ≫= percent) ++.) <$> encodeURIComponent s'
  end.

(** [JSON.parse] and [JSON.stringify] are used by [authStore] on the
    stored user record and by two pages on the payload of an update; they
    stay abstract.  [JSON_parse] gives [None] where [JSON.parse] throws. *)
Class JSONOps (number : Type) := {
  JSON_parse : jstring -> option (JSVal number);
  JSON_stringify : JSVal number -> jstring
}.

(** ** src/lib/endpoints.ts (the entries read by the modelled code) *)
Module endpoints.
Definition auth_login : jstring := lit "/auth/login".
Definition auth_refresh : jstring := lit "/auth/refresh".
Definition auth_logout : jstring := lit "/auth/logout".
Definition adminOrders_decide (orderId : jstring) : jstring :=
  lit "/admin/orders/" ++ orderId.
Definition adminOrders_refund (orderId : jstring) : jstring :=
  lit "/admin/orders/" ++ orderId ++ lit "/refund".
Definition adminInbox_approveSeller (id : jstring) : jstring :=
  lit "/admin/sellers/" ++ id ++ lit "/approve".
Definition adminInbox_rejectSeller (id : jstring) : jstring :=
  lit "/admin/sellers/" ++ id ++ lit "/reject".
Definition adminInbox_markPayoutPaid (id : jstring) : jstring :=
  lit "/admin/payouts/" ++ id ++ lit "/paid".
Definition adminInbox_rejectPayout (id : jstring) : jstring :=
  lit "/admin/payouts/" ++ id ++ lit "/reject".
Definition categories_create : jstring := lit "/categories".
Definition categories_update (id : jstring) : jstring := lit "/categories/" ++ id.
Definition products_create : jstring := lit "/products".
Definition products_update (id : jstring) : jstring := lit "/products/" ++ id.
Definition adminCoupons_create : jstring := lit "/admin/coupons".
Definition adminCoupons_patch (id : jstring) : jstring := lit "/admin/coupons/" ++ id.
Definition adminPromos_createForProduct (productId : jstring) : jstring :=
  lit "/admin/products/" ++ productId ++ lit "/promotions".
Definition adminPromos_patch (productId promoId : jstring) : jstring :=
  lit "/admin/products/" ++ productId ++ lit "/promotions/" ++ promoId.
End endpoints.

(** ** The run-time state shared by the modules

    JavaScript runs one task at a time: a task (an event handler, the
    arrival of an HTTP response) runs to completion, together with the
    promise reactions it triggers, before the next one starts.  The state
    between two tasks is a [World]; a piece of code is a state transformer
    that may throw. *)
Module Runtime.
Section Runtime.
Context {number : Type}.

(** [InternalAxiosRequestConfig & { _retry?: boolean }]; an absent
    [_retry] reads as [false]. *)
Record Config := mkConfig {
  url : option jstring;
  method : jstring;
  headers : option (gmap jstring jstring);
  data : JSVal number;
  _retry : bool
}.

Record Response := mkResponse {
  status : Z;
  resp_data : JSVal number
}.

(** [AxiosError]: [response] is absent on a network failure. *)
Record AxiosError := mkAxiosError {
  response : option Response;
  config : option Config
}.

(** Values thrown, or given as the reason of a rejected promise. *)
Inductive thrown :=
| ThrownAxios (err : AxiosError)
| ThrownError (message : jstring)
| ThrownTypeError
| ThrownURIError.

(** [window]: the two entries of [localStorage] are read by key, the
    location is read, and [location_href] records the last assignment
    to [window.location.href]. *)
Record Window := mkWindow {
  localStorage : gmap jstring jstring;
  location_pathname : jstring;
  location_search : jstring;
  location_href : option jstring
}.

(** Who awaits the outcome of a request sent through [api]: a call of
    the application (numbered), or the effect of [AuthGuard] with the
    login address it computed. *)
Inductive caller :=
| App (call : nat)
| Guard (next : jstring).

(** A request in flight: one sent through [api], or the
    [authApi.post(endpoints.auth.refresh, {})] awaited in the body of
    the refresh promise [p]. *)
Inductive Pending :=
| ViaApi (cfg : Config) (c : caller)
| RefreshPost (p : nat).

(** An invocation of the response interceptor suspended at
    [await refreshAccessToken()]. *)
Record Waiter := mkWaiter {
  awaited : nat;
  original : Config;
  waiting_for : caller
}.

(** What the outside observes. *)
Inductive action :=
| Requested (c : caller) (cfg : Config)
| Retried (c : caller) (cfg : Config)
| RefreshStarted (p : nat)
| Delivered (c : caller) (r : thrown + Response).

Record World := mkWorld {
  window : option Window;          (* None: typeof window === "undefined" *)
  refreshing : option nat;         (* let refreshing: Promise<string> | null *)
  next_promise : nat;
  next_call : nat;
  pending : list Pending;
  waiters : list Waiter;
  router_replaced : option jstring;  (* last router.replace(...) *)
  log : list action
}.

Definition set_window (f : option Window -> option Window) (w : World) : World :=
  mkWorld (f (window w)) (refreshing w) (next_promise w) (next_call w)
          (pending w) (waiters w) (router_replaced w) (log w).
Definition set_refreshing (r : option nat) (w : World) : World :=
  mkWorld (window w) r (next_promise w) (next_call w)
          (pending w) (waiters w) (router_replaced w) (log w).
Definition set_next_promise (n : nat) (w : World) : World :=
  mkWorld (window w) (refreshing w) n (next_call w)
          (pending w) (waiters w) (router_replaced w) (log w).
Definition set_next_call (n : nat) (w : World) : World :=
  mkWorld (window w) (refreshing w) (next_promise w) n
          (pending w) (waiters w) (router_replaced w) (log w).
Definition set_pending (f : list Pending -> list Pending) (w : World) : World :=
  mkWorld (window w) (refreshing w) (next_promise w) (next_call w)
          (f (pending w)) (waiters w) (router_replaced w) (log w).
Definition set_waiters (f : list Waiter -> list Waiter) (w : World) : World :=
  mkWorld (window w) (refreshing w) (next_promise w) (next_call w)
          (pending w) (f (waiters w)) (router_replaced w) (log w).
Definition set_router_replaced (u : jstring) (w : World) : World :=
  mkWorld (window w) (refreshing w) (next_promise w) (next_call w)
          (pending w) (waiters w) (Some u) (log w).
Definition add_log (a : action) (w : World) : World :=
  mkWorld (window w) (refreshing w) (next_promise w) (next_call w)
          (pending w) (waiters w) (router_replaced w) (log w ++ [a]).

Definition set_localStorage (f : gmap jstring jstring -> gmap jstring jstring)
    (win : Window) : Window :=
  mkWindow (f (localStorage win)) (location_pathname win) (location_search win)
           (location_href win).
Definition set_location_href (u : jstring) (win : Window) : Window :=
  mkWindow (localStorage win) (location_pathname win) (location_search win) (Some u).

Definition set_headers (h : gmap jstring jstring) (c : Config) : Config :=
  mkConfig (url c) (method c) (Some h) (data c) (_retry c).
Definition set_retry (b : bool) (c : Config) : Config :=
  mkConfig (url c) (method c) (headers c) (data c) b.

(** Code that reads and writes the world and may throw; the state
    written before a throw stays written. *)
Definition JS (A : Type) : Type := World -> (thrown + A) * World.

Definition throw {A} (e : thrown) : JS A := λ w, (inl e, w).
Definition gets {A} (f : World -> A) : JS A := λ w, (inr (f w), w).
Definition modify (f : World -> World) : JS unit := λ w, (inr (), f w).
Definition try_catch {A} (body : JS A) (handler : thrown -> JS A) : JS A :=
  λ w, match body w with
       | (inl e, w') => handler e w'
       | (inr x, w') => (inr x, w')
       end.
(** [await] of a promise already settled with [r] *)
Definition settled {A} (r : thrown + A) : JS A :=
  match r with
  | inl e => throw e
  | inr x => λ w, (inr x, w)
  end.
Definition or_throw {A} (e : thrown) (o : option A) : JS A :=
  match o with
  | Some x => λ w, (inr x, w)
  | None => throw e
  end.

#[global] Instance JS_ret : MRet JS := λ A x w, (inr x, w).
#[global] Instance JS_bind : MBind JS := λ A B f m w,
  match m w with
  | (inl e, w') => (inl e, w')
  | (inr x, w') => f x w'
  end.

(** [if (s)] on [string | null] *)
Definition truthy (s : option jstring) : bool :=
  match s with
  | Some (_ :: _) => true
  | _ => false
  end.

(** [a || b] on strings *)
Definition or_else (a b : jstring) : jstring :=
  match a with
  | [] => b
  | _ => a
  end.
End Runtime.
End Runtime.
Arguments Runtime.Config : clear implicits.
Arguments Runtime.Response : clear implicits.
Arguments Runtime.AxiosError : clear implicits.
Arguments Runtime.thrown : clear implicits.
Arguments Runtime.Pending : clear implicits.
Arguments Runtime.Waiter : clear implicits.
Arguments Runtime.action : clear implicits.
Arguments Runtime.World : clear implicits.
Arguments Runtime.JS : clear implicits.

(** ** src/lib/auth.ts *)
Module authStore.
Import Runtime.
Section authStore.
Context `{JSNumber number} `{!JSONOps number}.

Definition ACCESS_TOKEN_KEY : jstring := lit "accessToken".
Definition ME_KEY : jstring := lit "me".

Definition getAccessToken : JS number (option jstring) :=
  gets (λ w, win ← window w; localStorage win !! ACCESS_TOKEN_KEY).

(** [localStorage.setItem] converts its argument with [ToString]. *)
Definition setAccessToken (token : JSVal number) : JS number unit :=
  has_window ← gets (λ w, bool_decide (is_Some (window w)));
  if negb has_window then mret ()
  else
    s ← or_throw ThrownTypeError (ToString token);
    modify (set_window (fmap (set_localStorage (insert ACCESS_TOKEN_KEY s)))).

Definition getMe : JS number (JSVal number) :=
  gets (λ w,
    match window w with
    | None => VNull
    | Some win =>
        let raw := localStorage win !! ME_KEY in
        if negb (truthy raw) then VNull
        else default VNull (JSON_parse (default [] raw))
    end).

Definition setMe (me : JSVal number) : JS number unit :=
  modify (set_window (fmap (set_localStorage
    (if negb (ToBoolean me) then delete ME_KEY
     else insert ME_KEY (JSON_stringify me))))).

Definition clearAll : JS number unit :=
  modify (set_window (fmap (set_localStorage
    (λ ls, delete ME_KEY (delete ACCESS_TOKEN_KEY ls))))).
End authStore.
End authStore.

(** ** src/lib/api.ts *)
Module api.
Import Runtime.
Section api.
Context `{JSNumber number} `{!JSONOps number}.

Definition Authorization : jstring := lit "Authorization".
Definition Bearer (token : jstring) : jstring := lit "Bearer " ++ token.

(** [api(config)] leaves through the request interceptor:
    [[
    const token = authStore.getAccessToken();
    if (token) { config.headers = config.headers ?? {};
                 config.headers.Authorization = `Bearer ${token}`; }
    return config;
    ]] *)
Definition request_interceptor (config : Config number) : JS number (Config number) :=
  token ← authStore.getAccessToken;
  if truthy token then
    mret (set_headers
            (<[Authorization := Bearer (default [] token)]> (default ∅ (headers config)))
            config)
  else mret config.

Definition api_request (config : Config number) (c : caller) : JS number (Config number) :=
  sent ← request_interceptor config;
  modify (set_pending (λ l, l ++ [ViaApi sent c]));;
  mret sent.

(** [extractAccessToken(data: unknown): string | null] *)
Definition extractAccessToken (data : JSVal number) : JSVal number :=
  if negb (ToBoolean data) || negb (typeof_object data) then VNull
  else
    nullish (get_prop data "accessToken")
      (nullish (get_prop data "token")
         (nullish (get_prop (get_prop data "data") "accessToken")
            (nullish (get_prop (get_prop data "data") "token") VNull))).

(** The request of [post(endpoints.auth.refresh, {})] *)
Definition refresh_post : Config number :=
  mkConfig (Some endpoints.auth_refresh) (lit "post") None (VObj []) false.

Definition refresh_error : thrown number :=
  ThrownError (lit "Refresh OK mas n" ++ [0xE3] ++ lit "o retornou accessToken").

(** [refreshAccessToken()], up to its [return refreshing].  When no
    refresh is pending the body of the new promise runs up to
    [await authApi.post(endpoints.auth.refresh, {})], which puts the
    POST in flight, and the promise (with its [finally] reaction) is
    stored in [refreshing].  The number returned names that promise. *)
Definition refreshAccessToken : JS number nat :=
  r ← gets refreshing;
  match r with
  | Some p => mret p
  | None =>
      p ← gets next_promise;
      modify (set_next_promise (S p));;
      modify (set_pending (λ l, l ++ [RefreshPost p]));;
      modify (add_log (RefreshStarted p));;
      modify (set_refreshing (Some p));;
      mret p
  end.

(** The body of the refresh promise after its [await], given the
    outcome of the POST. *)
Definition refresh_body (r : thrown number + Response number) : JS number (JSVal number) :=
  res ← settled r;
  let token := extractAccessToken (resp_data res) in
  if negb (ToBoolean token) then throw refresh_error
  else
    authStore.setAccessToken token;;
    mret token.

(** [.finally(() => { refreshing = null; })] *)
Definition refresh_finally : JS number unit := modify (set_refreshing None).

(** The response interceptor's rejection handler, up to
    [await refreshAccessToken()]: it either rejects with [err], or marks
    the request and suspends on the refresh promise. *)
Definition onRejected (err : AxiosError number) : JS number (nat * Config number) :=
  let status := status <$> response err in
  match config err with
  | None => throw (ThrownAxios err)
  | Some original =>
      if negb (bool_decide (status = Some 401%Z)) then throw (ThrownAxios err)
      else
        let reqUrl := default [] (url original) in
        if includes reqUrl endpoints.auth_refresh then throw (ThrownAxios err)
        else if _retry original then throw (ThrownAxios err)
        else
          let original := set_retry true original in
          p ← refreshAccessToken;
          mret (p, original)
  end.

(** [window.location.href = `/login?next=${encodeURIComponent(next || "/admin")}`] *)
Definition redirect_to_login : JS number unit :=
  win ← gets window;
  match win with
  | None => mret ()
  | Some win =>
      let next := location_pathname win ++ location_search win in
      enc ← or_throw ThrownURIError (encodeURIComponent (or_else next (lit "/admin")));
      modify (set_window (fmap (set_location_href (lit "/login?next=" ++ enc))))
  end.

(** The handler after the [await], given how the refresh promise
    settled: the configuration to hand to [api(original)], or the
    rejection of the [catch] block. *)
Definition onRejected_resume (original : Config number)
    (r : thrown number + JSVal number) : JS number (Config number) :=
  try_catch
    (newToken ← settled r;
     bearer ← or_throw ThrownTypeError (ToString newToken);
     mret (set_headers
             (<[Authorization := Bearer bearer]> (default ∅ (headers original)))
             original))
    (λ e,
       authStore.clearAll;;
       redirect_to_login;;
       throw e).
End api.
End api.

(** ** src/components/AuthGuard.tsx

    The effect [run()] of the guard, as far as it touches the stored
    session, the router and the network; the React state [ok] is not
    represented. *)
Module AuthGuard.
Import Runtime.
Section AuthGuard.
Context `{JSNumber number} `{!JSONOps number}.

(** [extractToken(res)] *)
Definition extractToken (res : Response number) : JSVal number :=
  let d := resp_data res in
  nullish (get_prop d "accessToken")
    (nullish (get_prop d "token")
       (nullish (get_prop (get_prop d "data") "accessToken")
          (nullish (get_prop (get_prop d "data") "token") VNull))).

(** [me?.role && me.role !== "ADMIN"] *)
Definition not_admin (me : JSVal number) : bool :=
  let role := get_prop me "role" in
  ToBoolean role &&
  negb (match role with VStr s => bool_decide (s = lit "ADMIN") | _ => false end).

Definition check_role : JS number unit :=
  me ← authStore.getMe;
  if not_admin me then
    authStore.clearAll;;
    modify (set_router_replaced (lit "/login"))
  else mret ().

(** [run()] up to its [await api.post(endpoints.auth.refresh, {})] *)
Definition run (pathname : jstring) : JS number unit :=
  enc ← or_throw ThrownURIError (encodeURIComponent (or_else pathname (lit "/admin")));
  let next := lit "/login?next=" ++ enc in
  token ← authStore.getAccessToken;
  if truthy token then check_role
  else
    api.api_request api.refresh_post (Guard next);;
    mret ().

(** [run()] after the [await], given the outcome of the POST *)
Definition run_resume (next : jstring) (r : thrown number + Response number)
  : JS number unit :=
  try_catch
    (res ← settled r;
     let newToken := extractToken res in
     (if negb (ToBoolean newToken)
      then throw (ThrownError (lit "Refresh n" ++ [0xE3] ++ lit "o retornou accessToken"))
      else mret ());;
     authStore.setAccessToken newToken;;
     let d := resp_data res in
     let user := nullish (get_prop d "user")
                   (nullish (get_prop (get_prop d "data") "user") VNull) in
     (if ToBoolean user then authStore.setMe user else mret ());;
     check_role)
    (λ _,
       authStore.clearAll;;
       modify (set_router_replaced next)).
End AuthGuard.
End AuthGuard.

(** ** The event loop

    The tasks that drive the modules above: the application sends a
    request through [api]; the answer to a request in flight arrives;
    the effect of [AuthGuard] runs. *)
Module EventLoop.
Import Runtime.
Section EventLoop.
Context `{JSNumber number} `{!JSONOps number}.

Inductive reply :=
| HttpReply (res : Response number)
| NetworkFailure.

Inductive event :=
| Send (cfg : Config number)
| Reply (i : nat) (r : reply)
| GuardRun (pathname : jstring).

(** How axios settles a request: statuses 200..299 resolve, everything
    else rejects with an [AxiosError] carrying the request's config. *)
Definition axios_settle (cfg : Config number) (r : reply)
  : thrown number + Response number :=
  match r with
  | HttpReply res =>
      if bool_decide (200 ≤ status res < 300)%Z then inr res
      else inl (ThrownAxios (mkAxiosError (Some res) (Some cfg)))
  | NetworkFailure => inl (ThrownAxios (mkAxiosError None (Some cfg)))
  end.

(** The outcome of a computation as a value: the effects stay, a throw
    becomes data. *)
Definition attempt {A} (m : JS number A) : JS number (thrown number + A) :=
  λ w, let '(r, w') := m w in (inr r, w').

(** The promise returned by [api(...)] settles for its caller. *)
Definition deliver (c : caller) (r : thrown number + Response number) : JS number unit :=
  modify (add_log (Delivered c r));;
  match c with
  | App _ => mret ()
  | Guard next => _ ← attempt (AuthGuard.run_resume next r); mret ()
  end.

(** One suspended interceptor handler resumes with the settled refresh
    promise: it re-issues its request, or rejects to its caller. *)
Definition resume_waiter (r : thrown number + JSVal number) (wt : Waiter number)
  : JS number unit :=
  out ← attempt (api.onRejected_resume (original wt) r);
  match out with
  | inr cfg =>
      sent ← api.api_request cfg (waiting_for wt);
      modify (add_log (Retried (waiting_for wt) sent))
  | inl e => deliver (waiting_for wt) (inl e)
  end.

Fixpoint resume_all (r : thrown number + JSVal number) (wts : list (Waiter number))
  : JS number unit :=
  match wts with
  | [] => mret ()
  | wt :: rest => resume_waiter r wt;; resume_all r rest
  end.

(** The refresh POST of promise [p] is answered: the body of the promise
    finishes, the [finally] reaction clears [refreshing], and the
    handlers awaiting [p] resume in the order they suspended. *)
Definition refresh_settles (p : nat) (r : thrown number + Response number)
  : JS number unit :=
  out ← attempt (api.refresh_body r);
  api.refresh_finally;;
  wts ← gets waiters;
  modify (set_waiters (filter (λ wt, awaited wt ≠ p)));;
  resume_all out (filter (λ wt, awaited wt = p) wts).

(** A request sent through [api] is answered: a resolved response goes
    to the caller (the fulfilment handler is the identity); a rejection
    goes through the rejection handler of the response interceptor. *)
Definition api_settles (cfg : Config number) (c : caller)
    (r : thrown number + Response number) : JS number unit :=
  match r with
  | inr res => deliver c (inr res)
  | inl (ThrownAxios err) =>
      out ← attempt (api.onRejected err);
      match out with
      | inl e => deliver c (inl e)
      | inr (p, original) =>
          modify (set_waiters (λ l, l ++ [mkWaiter p original c]))
      end
  | inl e => deliver c (inl e)
  end.

Definition task (ev : event) : JS number unit :=
  match ev with
  | Send cfg =>
      call ← gets next_call;
      modify (set_next_call (S call));;
      sent ← api.api_request cfg (App call);
      modify (add_log (Requested (App call) sent))
  | GuardRun pathname => AuthGuard.run pathname
  | Reply i r =>
      l ← gets pending;
      match l !! i with
      | None => mret ()
      | Some entry =>
          modify (set_pending (delete i));;
          match entry with
          | ViaApi cfg c => api_settles cfg c (axios_settle cfg r)
          | RefreshPost p => refresh_settles p (axios_settle api.refresh_post r)
          end
      end
  end.

(** A task runs to completion; an exception it lets escape is lost. *)
Definition step (w : World number) (ev : event) : World number := snd (task ev w).

Definition run (w : World number) (evs : list event) : World number :=
  foldl step w evs.

(** The state when the page has loaded. *)
Definition init (win : option Window) : World number :=
  mkWorld win None 0 0 [] [] None [].

Inductive reachable (win : option Window) : World number -> Prop :=
| reachable_init : reachable win (init win)
| reachable_step w ev : reachable win w -> reachable win (step w ev).

(** POSTs to the refresh endpoint in flight, whoever sent them. *)
Definition is_refresh_post (e : Pending number) : bool :=
  match e with
  | RefreshPost _ => true
  | ViaApi cfg _ =>
      bool_decide (url cfg = Some endpoints.auth_refresh) &&
      bool_decide (method cfg = lit "post")
  end.

(** The refresh operations started by [refreshAccessToken] in flight. *)
Definition is_refresh_operation (e : Pending number) : bool :=
  match e with
  | RefreshPost _ => true
  | ViaApi _ _ => false
  end.

Definition count {A} (f : A -> bool) (l : list A) : nat := length (filter (λ x, f x = true) l).
End EventLoop.
End EventLoop.

(** ** The mutations of the admin pages

    Each mutation is modelled at its call of [api.post], [api.patch] or
    [api.delete]: the request it hands to axios, as a function of the
    values in scope at that call. *)
Record Request {number : Type} := mkRequest {
  req_method : jstring;
  req_url : jstring;
  req_body : JSVal number;
  req_headers : gmap jstring jstring
}.
Arguments Request : clear implicits.
Arguments mkRequest {number}.

Definition IdempotencyKey : jstring := lit "Idempotency-Key".

(** [{ headers: { "Idempotency-Key": key } }] *)
Definition idem_headers (key : jstring) : gmap jstring jstring := {[ IdempotencyKey := key ]}.

(** [x || undefined] and an optional string field *)
Definition str_or_undefined {number} (s : jstring) : JSVal number :=
  match s with
  | [] => VUndefined
  | _ => VStr s
  end.
Definition opt_str {number} (s : option jstring) : JSVal number :=
  match s with
  | None => VUndefined
  | Some s => VStr s
  end.

(** Built-ins of the pages that stay abstract: [String.prototype.toLowerCase]
    and the SHA-256 digest of [crypto.subtle] (bytes to bytes). *)
Class PageBuiltins := {
  toLowerCase : jstring -> jstring;
  sha256 : list N -> list N
}.

(** [crypto.randomUUID()]: the values it will return are fixed by the
    environment and unknown to the code; [drawn] counts the calls. *)
Record Entropy := mkEntropy {
  uuid_at : nat -> jstring;
  drawn : nat
}.

Definition randomUUID (e : Entropy) : jstring * Entropy :=
  (uuid_at e (drawn e), mkEntropy (uuid_at e) (S (drawn e))).

(** The inbox page: seller approvals and payouts. *)
Module InboxPage.
Section InboxPage.
Context {number : Type}.

(** [function IdemKey(id, action) { return `admin-inbox:${id}:${action}`; }] *)
Definition IdemKey (id action : jstring) : jstring :=
  lit "admin-inbox:" ++ id ++ lit ":" ++ action.

Definition approveSeller (id : jstring) : Request number :=
  mkRequest (lit "post") (endpoints.adminInbox_approveSeller id) VUndefined
    (idem_headers (IdemKey id (lit "approve-seller"))).

Definition rejectSeller (id : jstring) (reason : option jstring) : Request number :=
  mkRequest (lit "post") (endpoints.adminInbox_rejectSeller id)
    (VObj [(lit "reason", opt_str reason)])
    (idem_headers (IdemKey id (lit "reject-seller"))).

Definition markPaid (id : jstring) (txid receiptUrl : option jstring) : Request number :=
  mkRequest (lit "post") (endpoints.adminInbox_markPayoutPaid id)
    (VObj [(lit "txid", opt_str txid); (lit "receiptUrl", opt_str receiptUrl)])
    (idem_headers (IdemKey id (lit "payout-paid"))).

Definition rejectPayout (id : jstring) (reason : option jstring) : Request number :=
  mkRequest (lit "post") (endpoints.adminInbox_rejectPayout id)
    (VObj [(lit "reason", opt_str reason)])
    (idem_headers (IdemKey id (lit "payout-reject"))).
End InboxPage.
End InboxPage.

(** The order pages: the list of pending orders and the order details. *)
Module OrderPages.
Section OrderPages.
Context {number : Type}.

Inductive decision := approve | reject.

Definition decision_name (a : decision) : jstring :=
  match a with
  | approve => lit "approve"
  | reject => lit "reject"
  end.

(** [function idempotencyKey(orderId, action) { return `admin-order:${orderId}:${action}`; }] *)
Definition idempotencyKey (orderId action : jstring) : jstring :=
  lit "admin-order:" ++ orderId ++ lit ":" ++ action.

(** Details page: [id] is the route parameter, [note] the text field. *)
Definition details_decideM (id note : jstring) (action : decision) : Request number :=
  mkRequest (lit "patch") (endpoints.adminOrders_decide id)
    (VObj [(lit "action", VStr (decision_name action));
           (lit "note", str_or_undefined (trim note))])
    (idem_headers (idempotencyKey id (decision_name action))).

Definition details_refundM (id refundAmount refundReason : jstring) : Request number :=
  mkRequest (lit "post") (endpoints.adminOrders_refund id)
    (VObj [(lit "amount", str_or_undefined refundAmount);
           (lit "reason", str_or_undefined refundReason)])
    (idem_headers (idempotencyKey id (lit "refund"))).

(** List page *)
Definition list_decideM (orderId : jstring) (action : decision) : Request number :=
  mkRequest (lit "patch") (endpoints.adminOrders_decide orderId)
    (VObj [(lit "action", VStr (decision_name action))])
    (idem_headers (idempotencyKey orderId (decision_name action))).
End OrderPages.
End OrderPages.

(** The page-local [stableKey(prefix, ...parts)] of the category and
    product pages:
    [[ return `${prefix}:${parts.map((p) => String(p ?? "")).join(":")}`; ]] *)
Module PageKey.
Section PageKey.
Context `{JSNumber number}.

Definition stableKey (prefix : jstring) (parts : list (prim number)) : jstring :=
  prefix ++ lit ":" ++
  join (lit ":") ((λ p, PrimToString (nullish_or p (PStr []))) <$> parts).
End PageKey.
End PageKey.

(** The categories page. *)
Module CategoriesPage.
Section CategoriesPage.
Context `{JSNumber number} `{!JSONOps number} `{!PageBuiltins}.

(** [createM]: [None] where the mutation throws before any request. *)
Definition createM (newName : jstring) : option (Request number) :=
  let name := trim newName in
  match name with
  | [] => None
  | _ =>
      Some (mkRequest (lit "post") endpoints.categories_create
              (VObj [(lit "name", VStr name)])
              (idem_headers (PageKey.stableKey (lit "cat-create") [PStr (toLowerCase name)])))
  end.

(** [patchM] of the version keyed on the patch:
    [stableKey("cat-patch", vars.id, JSON.stringify(vars.patch))] *)
Definition patchM_by_content (id : jstring) (patch : JSVal number) : Request number :=
  mkRequest (lit "patch") (endpoints.categories_update id) patch
    (idem_headers (PageKey.stableKey (lit "cat-patch") [PStr id; PStr (JSON_stringify patch)])).

(** [patchM] of the version keyed on an operation id:
    [stableKey("cat-patch", vars.id, vars.opId)] *)
Definition patchM_by_opId (id : jstring) (patch : JSVal number) (opId : jstring)
  : Request number :=
  mkRequest (lit "patch") (endpoints.categories_update id) patch
    (idem_headers (PageKey.stableKey (lit "cat-patch") [PStr id; PStr opId])).

(** [onToggle={() => patchM.mutate({ id: c.id, patch: { active: !c.active },
    opId: crypto.randomUUID() })}] *)
Definition onToggle (id : jstring) (active : bool) (e : Entropy) : Request number * Entropy :=
  let '(opId, e') := randomUUID e in
  (patchM_by_opId id (VObj [(lit "active", VBool (negb active))]) opId, e').

(** [onRename={(name) => patchM.mutate({ id: c.id, patch: { name },
    opId: crypto.randomUUID() })}] *)
Definition onRename (id name : jstring) (e : Entropy) : Request number * Entropy :=
  let '(opId, e') := randomUUID e in
  (patchM_by_opId id (VObj [(lit "name", VStr name)]) opId, e').
End CategoriesPage.
End CategoriesPage.

(** The product creation page. *)
Module ProductNewPage.
Section ProductNewPage.
Context `{JSNumber number}.

(** The payload built by [createM] before the call. *)
Record Payload := mkPayload {
  sku : jstring;
  name : jstring;
  price : jstring;
  customerPrice : option jstring;
  active : bool;
  stock : number;
  categoryId : option jstring;
  categoryIds : list jstring;
  audience : jstring;
  description : option jstring;
  highlights : option (list jstring)
}.

Definition nullable (s : option jstring) : JSVal number :=
  match s with
  | None => VNull
  | Some s => VStr s
  end.

Definition payload_json (p : Payload) : JSVal number :=
  VObj ([(lit "sku", VStr (sku p)); (lit "name", VStr (name p));
         (lit "price", VStr (price p)); (lit "customerPrice", nullable (customerPrice p));
         (lit "active", VBool (active p)); (lit "stock", VNum (stock p));
         (lit "categoryId", nullable (categoryId p));
         (lit "categoryIds", VArr ((λ s, VStr s) <$> categoryIds p));
         (lit "audience", VStr (audience p))] ++
        match description p with
        | Some d => [(lit "description", VStr d)]
        | None => []
        end ++
        match highlights p with
        | Some hs => [(lit "highlights", VArr ((λ s, VStr s) <$> hs))]
        | None => []
        end).

(** [payload.sku || payload.name || "no-key"] *)
Definition sku_or_name (p : Payload) : jstring :=
  Runtime.or_else (Runtime.or_else (sku p) (name p)) (lit "no-key").

(** The key of [createM] *)
Definition create_key (p : Payload) : jstring :=
  PageKey.stableKey (lit "product-create")
    [PStr (sku_or_name p);
     PStr (default [] (categoryId p));
     PStr (join (lit ",") (categoryIds p));
     PStr (audience p)].

Definition createM (p : Payload) : Request number :=
  mkRequest (lit "post") endpoints.products_create (payload_json p)
    (idem_headers (create_key p)).
End ProductNewPage.
End ProductNewPage.

(** The coupon pages. *)
Module CouponPages.
Section CouponPages.
Context `{JSNumber number}.

Record CreateArgs := mkCreateArgs {
  code : jstring;
  appliesTo : jstring;
  type : jstring;
  value : number;
  startsAtISO : jstring;
  endsAtISO : option jstring
}.

(** [stableIdemForCreateCoupon(args)] *)
Definition stableIdemForCreateCoupon (args : CreateArgs) : jstring :=
  join (lit ":")
    [lit "admin-coupon-create"; code args; appliesTo args; type args;
     NumberToString (value args); startsAtISO args;
     default (lit "no-end") (endsAtISO args)].

(** [createM]: the payload has [endsAt] only when [endsISO] is truthy. *)
Definition createM (args : CreateArgs) : Request number :=
  mkRequest (lit "post") endpoints.adminCoupons_create
    (VObj ([(lit "code", VStr (code args)); (lit "appliesTo", VStr (appliesTo args));
            (lit "type", VStr (type args)); (lit "value", VNum (value args));
            (lit "startsAt", VStr (startsAtISO args))] ++
           match endsAtISO args with
           | Some (c :: e) => [(lit "endsAt", VStr (c :: e))]
           | _ => []
           end))
    (idem_headers (stableIdemForCreateCoupon args)).

(** [disableM] *)
Definition disableM (id : jstring) : Request number :=
  mkRequest (lit "patch") (lit "/admin/coupons/" ++ id ++ lit "/disable") (VObj [])
    (idem_headers (lit "admin-coupon-disable:" ++ id)).
End CouponPages.
End CouponPages.

(** [Object.keys(o).sort()]: the own keys in the order of their UTF-16
    code units. *)
Fixpoint jstring_leb (a b : jstring) : bool :=
  match a, b with
  | [], _ => true
  | _ :: _, [] => false
  | x :: a', y :: b' =>
      if x <? y then true else if y <? x then false else jstring_leb a' b'
  end.

Fixpoint insert_key (k : jstring) (l : list jstring) : list jstring :=
  match l with
  | [] => [k]
  | k' :: l' => if jstring_leb k k' then k :: l else k' :: insert_key k l'
  end.

Definition sorted_keys {number} (props : list (jstring * JSVal number)) : list jstring :=
  foldr insert_key [] (remove_dups (fst <$> props)).

(** The flattened encoding shared by [stableIdem] and [stableIdemForPatch]:
    [[ keys.map((k) => `${k}=${String(parts[k])}`).join("&") ]]
    [None] where [String] throws. *)
Section Flatten.
Context `{JSNumber number}.

Fixpoint flat_entries (props : list (jstring * JSVal number)) (keys : list jstring)
  : option (list jstring) :=
  match keys with
  | [] => Some []
  | k :: keys' =>
      v ← ToString (default VUndefined (own_prop props k));
      rest ← flat_entries props keys';
      Some ((k ++ lit "=" ++ v) :: rest)
  end.

Definition flatten (props : list (jstring * JSVal number)) : option jstring :=
  join (lit "&") <$> flat_entries props (sorted_keys props).
End Flatten.

(** [TextEncoder.encode]: UTF-8, a lone surrogate becoming U+FFFD. *)
Fixpoint utf8_encode (s : jstring) : list N :=
  match s with
  | [] => []
  | c :: s' =>
      if is_high_surrogate c then
        match s' with
        | c2 :: s'' =>
            if is_low_surrogate c2
            then utf8 ((c - 0xD800) * 0x400 + (c2 - 0xDC00) + 0x10000) ++ utf8_encode s''
            else utf8 0xFFFD ++ utf8_encode s'
        | [] => utf8 0xFFFD
        end
      else if is_low_surrogate c then utf8 0xFFFD ++ utf8_encode s'
      else utf8 c ++ utf8_encode s'
  end.

(** [btoa(String.fromCharCode(...bytes))] *)
Definition b64_char (n : N) : N :=
  if n <? 26 then 0x41 + n
  else if n <? 52 then 0x61 + (n - 26)
  else if n <? 62 then 0x30 + (n - 52)
  else if n =? 62 then 0x2B else 0x2F.

Fixpoint btoa (bytes : list N) : jstring :=
  match bytes with
  | [] => []
  | [a] => [b64_char (a / 4); b64_char ((a mod 4) * 16); 0x3D; 0x3D]
  | [a; b] =>
      [b64_char (a / 4); b64_char ((a mod 4) * 16 + b / 16);
       b64_char ((b mod 16) * 4); 0x3D]
  | a :: b :: c :: rest =>
      [b64_char (a / 4); b64_char ((a mod 4) * 16 + b / 16);
       b64_char ((b mod 16) * 4 + c / 64); b64_char (c mod 64)] ++ btoa rest
  end.

(** [.replace(/\+/g, "-").replace(/\//g, "_").replace(/=+$/, "")] *)
Definition base64url (s : jstring) : jstring :=
  reverse (dropWhile (λ c, c =? 0x3D)
    (reverse ((λ c, if c =? 0x2B then 0x2D else if c =? 0x2F then 0x5F else c) <$> s))).

(** The coupon edit page and the product edit page. *)
Module EditPages.
Section EditPages.
Context `{JSNumber number} `{!JSONOps number} `{!PageBuiltins}.

(** [stableIdemForPatch(id, payload)] of the coupon edit page *)
Definition stableIdemForPatch (id : jstring) (payload : list (jstring * JSVal number))
  : option jstring :=
  flat ← flatten payload;
  Some (lit "admin-coupon-patch:" ++ id ++ lit ":" ++ flat).

Definition coupon_saveM (id : jstring) (payload : list (jstring * JSVal number))
  : option (Request number) :=
  idem ← stableIdemForPatch id payload;
  Some (mkRequest (lit "patch") (endpoints.adminCoupons_patch id) (VObj payload)
          (idem_headers idem)).

(** [stableIdem(prefix, parts)] of the product edit page *)
Definition stableIdem (prefix : jstring) (parts : list (jstring * JSVal number))
  : option jstring :=
  flat ← flatten parts;
  Some (prefix ++ lit ":" ++ flat).

Definition createPromoM (id : jstring) (payload : list (jstring * JSVal number))
  : option (Request number) :=
  idem ← stableIdem (lit "admin-prod-promo-create:" ++ id) payload;
  Some (mkRequest (lit "post") (endpoints.adminPromos_createForProduct id) (VObj payload)
          (idem_headers idem)).

Definition patchPromoM (id promoId : jstring) (payload : list (jstring * JSVal number))
  : option (Request number) :=
  idem ← stableIdem (lit "admin-prod-promo-patch:" ++ id ++ lit ":" ++ promoId) payload;
  Some (mkRequest (lit "patch") (endpoints.adminPromos_patch id promoId) (VObj payload)
          (idem_headers idem)).

(** [idemKey(prefix, payload)]: the SHA-256 of the JSON text, in
    unpadded URL-safe base 64. *)
Definition idemKey (prefix : jstring) (payload : JSVal number) : jstring :=
  let json := JSON_stringify payload in
  let bytes := utf8_encode json in
  let digest := sha256 bytes in
  prefix ++ lit ":" ++ base64url (btoa digest).

Definition product_saveM (id : jstring) (payload : JSVal number) : Request number :=
  mkRequest (lit "patch") (endpoints.products_update id) payload
    (idem_headers (idemKey (lit "product-update:" ++ id) payload)).
End EditPages.
End EditPages.

(** ** src/lib/apiError.ts *)
Module apiError.
Section apiError.
Context `{JSNumber number}.

(** [apiErrorMessage(err, fallback)]; [None] where a [String(...)] of
    the body throws. *)
Definition apiErrorMessage (err : JSVal number) (fallback : jstring) : option jstring :=
  let parsed := nullish err (VObj []) in
  let data := get_prop (get_prop parsed "response") "data" in
  match data with
  | VStr s => Some s
  | _ =>
      if ToBoolean (get_prop data "error") then ToString (get_prop data "error")
      else if ToBoolean (get_prop data "message") then ToString (get_prop data "message")
      else
        let last :=
          if ToBoolean (get_prop parsed "message")
          then ToString (get_prop parsed "message")
          else Some fallback in
        if isArray (get_prop data "issues") then
          let first := get_index0 (get_prop data "issues") in
          if ToBoolean (get_prop first "message") then ToString (get_prop first "message")
          else if ToBoolean (get_prop first "msg") then ToString (get_prop first "msg")
          else last
        else last
  end.

(** [fallback = "Ocorreu um erro"] *)
Definition default_fallback : jstring := lit "Ocorreu um erro".

(** The order of precedence in words: the candidates in the order they
    are tried; the first truthy one is converted with [String], and the
    fallback is returned when there is none. *)
Definition candidates (err : JSVal number) : list (JSVal number) :=
  let parsed := nullish err (VObj []) in
  let data := get_prop (get_prop parsed "response") "data" in
  let first := get_index0 (get_prop data "issues") in
  [get_prop data "error"; get_prop data "message"] ++
  (if isArray (get_prop data "issues")
   then [get_prop first "message"; get_prop first "msg"] else []) ++
  [get_prop parsed "message"].

Definition by_precedence (err : JSVal number) (fallback : jstring) : option jstring :=
  let parsed := nullish err (VObj []) in
  match get_prop (get_prop parsed "response") "data" with
  | VStr s => Some s
  | _ =>
      match filter (λ v, ToBoolean v = true) (candidates err) with
      | v :: _ => ToString v
      | [] => Some fallback
      end
  end.
End apiError.
End apiError.

(** ** src/lib/productImages.ts *)
Module productImages.

(** [ProductImage].  The optional, nullable fields are options: the code
    treats [null] and [undefined] alike.  Only the order of the [sort]
    values matters; they are the finite numbers of a JSON document, on
    which the sign of a difference is the sign of the exact difference,
    and are modelled as integers. *)
Record ProductImage := mkProductImage {
  id : jstring;
  url : jstring;
  key : option jstring;
  isPrimary : option bool;
  sort : option Z;
  mime : option jstring;
  size : option Z
}.

(** Arrays live in a heap and are passed by reference. *)
Abbreviation loc := nat.
Abbreviation heap := (gmap nat (list ProductImage)).

(** The comparator of the sort:
    [[
    const ap = a.isPrimary ? 1 : 0;
    const bp = b.isPrimary ? 1 : 0;
    if (bp !== ap) return bp - ap;
    return (a.sort ?? 0) - (b.sort ?? 0);
    ]] *)
Definition compareFn (a b : ProductImage) : Z :=
  let ap := (if default false (isPrimary a) then 1 else 0)%Z in
  let bp := (if default false (isPrimary b) then 1 else 0)%Z in
  if negb (bp =? ap)%Z then (bp - ap)%Z
  else (default 0 (sort a) - default 0 (sort b))%Z.

(** [Array.prototype.sort(compareFn)] is stable: an element moves in
    front of another only when the comparator is positive. *)
Fixpoint sort_insert (cmp : ProductImage -> ProductImage -> Z) (x : ProductImage)
    (l : list ProductImage) : list ProductImage :=
  match l with
  | [] => [x]
  | y :: l' => if (cmp x y <=? 0)%Z then x :: l else y :: sort_insert cmp x l'
  end.

Definition array_sort (cmp : ProductImage -> ProductImage -> Z) (l : list ProductImage)
  : list ProductImage :=
  foldr (sort_insert cmp) [] l.

(** A location not yet in use. *)
Definition fresh_loc (h : heap) : loc := fresh (dom h).

(** [pickPrimaryImage(images)]: [images] is [None] for [null] and
    [undefined], a reference otherwise.  [[...images]] allocates the
    copy, [.sort] sorts the copy in place. *)
Definition pickPrimaryImage (images : option loc) (h : heap) : option jstring * heap :=
  match images ≫= (h !!.) with
  | None | Some [] => (None, h)
  | Some arr =>
      let sorted := fresh_loc h in
      let h1 := <[sorted := arr]> h in
      let h2 := <[sorted := array_sort compareFn arr]> h1 in
      (url <$> (default [] (h2 !! sorted)) !! 0%nat, h2)
  end.

Definition sort_value (i : ProductImage) : Z := default 0%Z (sort i).
Definition primary (i : ProductImage) : bool := default false (isPrimary i).
End productImages.

(** ** Notions used to state the properties *)

(** [ws_runs_collapsed s out]: [out] is [s] with every maximal run of
    whitespace replaced by one underscore. *)
Inductive ws_runs_collapsed : jstring -> jstring -> Prop :=
| collapsed_nil : ws_runs_collapsed [] []
| collapsed_char c s out :
    is_ws c = false ->
    ws_runs_collapsed s out ->
    ws_runs_collapsed (c :: s) (c :: out)
| collapsed_run run s out :
    run ≠ [] ->
    Forall (λ c, is_ws c = true) run ->
    match s with [] => True | c :: _ => is_ws c = false end ->
    ws_runs_collapsed s out ->
    ws_runs_collapsed (run ++ s) (underscore :: out).

Definition no_whitespace (s : jstring) : Prop := Forall (λ c, is_ws c = false) s.

(** What a JavaScript function could read or write besides its
    arguments: the state of the modules and of the browser, the source of
    random identifiers, the clock. *)
Record Ambient {number : Type} := mkAmbient {
  amb_world : Runtime.World number;
  amb_entropy : Entropy;
  amb_now : Z
}.
Arguments Ambient : clear implicits.

(** A run of a function whose body reads and writes nothing of it. *)
Definition runs_as {number A} (result : A) : Ambient number -> A * Ambient number :=
  λ env, (result, env).


(** Notions about the state of api.ts. *)
Section ApiNotions.
Import Runtime.
Context `{JSNumber number} `{!JSONOps number}.

(** The stored access token, as [authStore.getAccessToken] reads it. *)
Definition token_of (w : World number) : option jstring :=
  win ← window w; localStorage win !! authStore.ACCESS_TOKEN_KEY.

Definition me_of (w : World number) : option jstring :=
  win ← window w; localStorage win !! authStore.ME_KEY.

(** [config] with its [Authorization] header set to the bearer [token]. *)
Definition with_bearer (token : jstring) (config : Config number) : Config number :=
  set_headers (<[api.Authorization := api.Bearer token]> (default ∅ (headers config)))
              config.

(** The configuration that leaves after the request interceptor. *)
Definition sent_config (config : Config number) (w : World number) : Config number :=
  if truthy (token_of w) then with_bearer (default [] (token_of w)) config else config.

(** The state when [refreshAccessToken] has started a refresh. *)
Definition start_refresh (w : World number) : World number :=
  set_refreshing (Some (next_promise w))
    (add_log (RefreshStarted (next_promise w))
       (set_pending (λ l, l ++ [RefreshPost (next_promise w)])
          (set_next_promise (S (next_promise w)) w))).

(** The part of the state that is not the browser's: module variable,
    requests in flight, suspended handlers, observations. *)
Definition net (w : World number) :=
  (refreshing w, next_promise w, next_call w, pending w, waiters w, log w).

(** Code that reads and writes the browser part only. *)
Definition browser_only {A} (m : JS number A) : Prop :=
  ∀ w, net (snd (m w)) = net w.

Definition caller_eqb (a b : caller) : bool :=
  match a, b with
  | App x, App y => bool_decide (x = y)
  | Guard s, Guard t => bool_decide (s = t)
  | _, _ => false
  end.

(** How many times the request of caller [c] was re-issued. *)
Fixpoint retried_count (c : caller) (l : list (action number)) : nat :=
  match l with
  | [] => 0
  | Retried c' _ :: l' => (if caller_eqb c' c then 1 else 0) + retried_count c l'
  | _ :: l' => retried_count c l'
  end.

Definition is_retried (a : action number) : bool :=
  match a with
  | Retried _ _ => true
  | _ => false
  end.

Definition pending_for (c : caller) (e : Pending number) : bool :=
  match e with
  | ViaApi _ c' => caller_eqb c' c
  | RefreshPost _ => false
  end.

(** The requests of [c] in flight, plus its handlers awaiting a refresh. *)
Definition live_count (c : caller) (w : World number) : nat :=
  EventLoop.count (pending_for c) (pending w) +
  EventLoop.count (λ wt, caller_eqb (waiting_for wt) c) (waiters w).

(** The state after the suspended handler [wt] has re-issued its
    request with the bearer [t]. *)
Definition reissue (t : jstring) (w : World number) (wt : Waiter number) : World number :=
  let sent := sent_config (with_bearer t (original wt)) w in
  add_log (Retried (waiting_for wt) sent)
    (set_pending (λ l, l ++ [ViaApi sent (waiting_for wt)]) w).

(** The address of the login page with the current location as [next]. *)
Definition login_url (win : Window) : option jstring :=
  enc ← encodeURIComponent
          (or_else (location_pathname win ++ location_search win) (lit "/admin"));
  Some (lit "/login?next=" ++ enc).

(** The session is cleared and the browser was sent to [target]. *)
Definition signed_out (target : jstring) (win : Window) : Prop :=
  localStorage win !! authStore.ACCESS_TOKEN_KEY = None ∧
  localStorage win !! authStore.ME_KEY = None ∧
  location_href win = Some target.

(** How the refresh promise settles on the answer [rep] to its POST
    when the answer carries no usable token. *)
Definition refresh_failure (rep : EventLoop.reply) : option (thrown number) :=
  match EventLoop.axios_settle api.refresh_post rep with
  | inl e => Some e
  | inr res =>
      if ToBoolean (api.extractAccessToken (resp_data res)) then None
      else Some api.refresh_error
  end.

(** Single flight: the refresh operations in flight are the one held by
    [refreshing], if any; every suspended handler awaits that promise;
    a pending refresh has a handler waiting for it. *)
Record single_flight (w : World number) : Prop := {
  sf_in_flight :
    filter (λ e, EventLoop.is_refresh_operation e = true) (pending w) =
    match refreshing w with Some p => [RefreshPost p] | None => [] end;
  sf_waiters : ∀ wt, wt ∈ waiters w ->
    refreshing w = Some (awaited wt) ∧ ∃ call, waiting_for wt = App call;
  sf_first : refreshing w ≠ None -> waiters w ≠ [];
  sf_guard : ∀ cfg n, ViaApi cfg (Guard n) ∈ pending w ->
    includes (default [] (url cfg)) endpoints.auth_refresh = true
}.

(** Retry accounting. *)
Record retry_once (w : World number) : Prop := {
  ro_waiters : ∀ wt, wt ∈ waiters w ->
    _retry (original wt) = true ∧ retried_count (waiting_for wt) (log w) = 0%nat;
  ro_retried : ∀ c, (retried_count c (log w) ≤ 1)%nat;
  ro_pending : ∀ cfg c, ViaApi cfg c ∈ pending w -> _retry cfg = false ->
    retried_count c (log w) = 0%nat;
  ro_live : ∀ call, (live_count (App call) w ≤ 1)%nat;
  ro_fresh : ∀ call, (next_call w ≤ call)%nat ->
    live_count (App call) w = 0%nat ∧ retried_count (App call) (log w) = 0%nat;
  ro_app_waiters : ∀ wt, wt ∈ waiters w -> ∃ call, waiting_for wt = App call;
  ro_guard : ∀ n, retried_count (Guard n) (log w) = 0%nat
}.
End ApiNotions.

(** Stand-ins for the abstract built-ins, used to evaluate the models on
    concrete inputs: a parser that rejects every text and a printer that
    prints nothing. *)
#[export] Instance no_JSON : JSONOps Z := {|
  JSON_parse := λ _, None;
  JSON_stringify := λ _, []
|}.

(** Lower case on the letters A..Z only, and a digest that is empty. *)
#[export] Instance ascii_builtins : PageBuiltins := {|
  toLowerCase := fmap (λ c, if (0x41 <=? c) && (c <=? 0x5A) then c + 0x20 else c);
  sha256 := λ _, []
|}.

(** A browser on [/admin/orders?page=2] with an empty store, a GET of the
    application, and the answers of the server used below. *)
Definition sample_window : Runtime.Window :=
  Runtime.mkWindow ∅ (lit "/admin/orders") (lit "?page=2") None.

Definition sample_get : Runtime.Config Z :=
  Runtime.mkConfig (Some (lit "/admin/notifications/unread-count")) (lit "get")
                   None VUndefined false.

Definition unauthorized : EventLoop.reply (number:=Z) :=
  EventLoop.HttpReply (Runtime.mkResponse 401 (VObj [])).

Definition refreshed : EventLoop.reply (number:=Z) :=
  EventLoop.HttpReply
    (Runtime.mkResponse 200 (VObj [(lit "accessToken", VStr (lit "tok2"))])).

Definition sample_patch : Runtime.Config Z :=
  Runtime.mkConfig (Some (lit "/admin/orders/o1")) (lit "patch")
                   (Some (idem_headers (lit "admin-order:o1:approve")))
                   (VObj [(lit "action", VStr (lit "approve"))]) false.

(** The state in which two requests of the application have been answered
    401 one after the other, and the refresh is in flight. *)
Definition sample_refreshing : Runtime.World Z :=
  EventLoop.run (EventLoop.init (Some sample_window))
    [EventLoop.Send sample_get; EventLoop.Send sample_patch;
     EventLoop.Reply 0 unauthorized; EventLoop.Reply 0 unauthorized].

(** An entropy source whose n-th identifier is ["uuid-n"]. *)
Definition sample_entropy : Entropy :=
  mkEntropy (λ n, lit "uuid-" ++ NumberToString (Z.of_nat n)) 0.

(** The [Idempotency-Key] header of a request. *)
Definition key_of {number} (r : Request number) : option jstring :=
  req_headers r !! IdempotencyKey.

(** ** Helpers of the product, coupon and login pages *)

Definition space : N := 0x20.
Definition line_feed : N := 0x0A.
Definition full_stop : N := 0x2E.
Definition comma : N := 0x2C.
Definition colon : N := 0x3A.

(** [s.replace(/\s+/g, rep)] for a one-character [rep]: the scan of
    [replace_ws_runs], with [rep] where that one writes the underscore. *)
Equations replace_ws_runs_with (rep : N) (s : jstring) : jstring by wf (length s) lt :=
  replace_ws_runs_with rep nil := nil;
  replace_ws_runs_with rep (cons c s') with is_ws c := {
    | true => rep :: replace_ws_runs_with rep (dropWhile is_ws s')
    | false => c :: replace_ws_runs_with rep s' }.
Next Obligation.
  clear. simpl.
  induction s' as [|x l IH]; simpl; [lia|].
  destruct (is_ws x); simpl; lia.
Qed.

(** [s.split(sep)] for a one-character separator: the empty string
    gives one empty piece. *)
Fixpoint split_on (sep : N) (s : jstring) : list jstring :=
  match s with
  | [] => [[]]
  | c :: s' =>
      if c =? sep then [] :: split_on sep s'
      else match split_on sep s' with
           | piece :: rest => (c :: piece) :: rest
           | [] => [[c]]
           end
  end.

(** The character classes [\d] and [[.,]] *)
Definition is_digit (c : N) : bool := (0x30 <=? c) && (c <=? 0x39).
Definition is_sep (c : N) : bool := (c =? full_stop) || (c =? comma).

(** [s.search(/[...]/)] for a character class: the index of the first
    code unit in the class; [None] stands for -1. *)
Fixpoint search (cls : N -> bool) (s : jstring) : option nat :=
  match s with
  | [] => None
  | c :: s' => if cls c then Some 0%nat else S <$> search cls s'
  end.

(** [s.replace(/[...]/g, "")]: every code unit of the class is removed. *)
Definition remove_class (cls : N -> bool) (s : jstring) : jstring :=
  filter (λ c, cls c = false) s.

(** [s.replace(/^[...]/, "")] *)
Definition remove_leading (cls : N -> bool) (s : jstring) : jstring :=
  match s with
  | c :: s' => if cls c then s' else s
  | [] => []
  end.

(** [s.replace(a, b)] for one-character strings: a string pattern
    replaces its first occurrence only. *)
Fixpoint replace_first (a b : N) (s : jstring) : jstring :=
  match s with
  | [] => []
  | c :: s' => if c =? a then b :: s' else c :: replace_first a b s'
  end.

(** [Array.from(new Set(xs))]: the elements of [xs] in the order of their
    first occurrence; [seen] holds the elements already in the set. *)
Fixpoint set_from (seen xs : list jstring) : list jstring :=
  match xs with
  | [] => []
  | x :: xs' =>
      if bool_decide (x ∈ seen) then set_from seen xs'
      else x :: set_from (x :: seen) xs'
  end.

(** The product pages (new and edit) and the coupon pages. *)
Module ProductForm.
Section ProductForm.
Context `{JSNumber number}.

(** [[
    String(text ?? "").split("\n").map((s) => s.trim().replace(/\s+/g, " "))
      .filter(Boolean).slice(0, 10).map((s) => s.slice(0, 60))
    ]] *)
Definition parseHighlights (text : prim number) : list jstring :=
  slice0 60 <$>
    take 10
      (filter (λ s, s ≠ [])
         ((λ s, replace_ws_runs_with space (trim s)) <$>
            split_on line_feed (PrimToString (nullish_or text (PStr []))))).

(** [prev.includes(id) ? prev.filter((x) => x !== id) : [...prev, id]] *)
Definition toggleCategoryId (id : jstring) (prev : list jstring) : list jstring :=
  if bool_decide (id ∈ prev) then filter (λ x, x ≠ id) prev else prev ++ [id].

(** [[
    let s = String(v ?? "").replace(/[^\d.,]/g, "");
    const firstSepIndex = s.search(/[.,]/);
    if (firstSepIndex >= 0) {
      const head = s.slice(0, firstSepIndex);
      const tail = s.slice(firstSepIndex + 1).replace(/[.,]/g, "");
      s = head + s[firstSepIndex] + tail;
    }
    s = s.replace(/^[.,]/, "");
    return s;
    ]] *)
Definition sanitizeMoneyInput (v : prim number) : jstring :=
  let s := remove_class (λ c, negb (is_digit c || is_sep c))
             (PrimToString (nullish_or v (PStr []))) in
  let s :=
    match search is_sep s with
    | Some firstSepIndex =>
        let head := take firstSepIndex s in
        let tail := remove_class is_sep (drop (S firstSepIndex) s) in
        head ++ option_list (s !! firstSepIndex) ++ tail
    | None => s
    end in
  remove_leading is_sep s.

(** [String(v ?? "").replace(/[^\d]/g, "")] *)
Definition sanitizeIntInput (v : prim number) : jstring :=
  remove_class (λ c, negb (is_digit c)) (PrimToString (nullish_or v (PStr []))).

(** [normalizeMoney(s)]: [s.trim().replace(",", ".")] *)
Definition normalizeMoney (s : jstring) : jstring :=
  replace_first comma full_stop (trim s).

(** The field [categoryIds] of the payload of a product:
    [[ Array.from(new Set([...(categoryIds ?? []), ...(categoryId ? [categoryId] : [])])) ]] *)
Definition payload_categoryIds (categoryId : jstring) (categoryIds : list jstring)
  : list jstring :=
  set_from [] (categoryIds ++ match categoryId with [] => [] | _ => [categoryId] end).
End ProductForm.
End ProductForm.

(** The login page. *)
Module LoginPage.

(** [[
    if (!target) return "/admin";
    if (!target.startsWith("/")) return "/admin";
    if (target.startsWith("//")) return "/admin";
    return target;
    ]] *)
Definition safeNext (target : option jstring) : jstring :=
  if negb (Runtime.truthy target) then lit "/admin"
  else
    let target := default [] target in
    if negb (starts_with (lit "/") target) then lit "/admin"
    else if starts_with (lit "//") target then lit "/admin"
    else target.

(** What [humanLoginError] reads of the value it is given: [err.code],
    [err.response?.status], [err.response?.data?.error],
    [err.response?.data?.message] and [err.message]; an absent field is
    [None].  The status of an HTTP response is an integer. *)
Record LoginFailure := mkLoginFailure {
  code : option jstring;
  response_status : option Z;
  data_error : option jstring;
  data_message : option jstring;
  message : option jstring
}.

Definition timed_out : jstring := lit "Tempo esgotado. Tente novamente.".
Definition no_connection : jstring :=
  lit "Sem conex" ++ [0xE3] ++ lit "o com o servidor. Verifique sua internet.".
Definition wrong_credentials : jstring := lit "E-mail ou senha incorretos.".
Definition access_denied : jstring :=
  lit "Acesso negado. Sua conta pode estar bloqueada.".
Definition too_many_attempts : jstring :=
  lit "Muitas tentativas. Aguarde um pouco e tente novamente.".
Definition server_unavailable : jstring :=
  lit "Servidor indispon" ++ [0xED] ++ lit "vel no momento. Tente novamente em instantes.".
Definition login_failed : jstring := lit "Falha no login.".

(** [a || b] on [string | undefined] *)
Definition or_str (a b : option jstring) : option jstring :=
  if Runtime.truthy a then a else b.

Definition humanLoginError (err : LoginFailure) : jstring :=
  if bool_decide (code err = Some (lit "ECONNABORTED")) then timed_out
  else
    match response_status err with
    | None => no_connection
    | Some status =>
        if (status =? 0)%Z then no_connection
        else if (status =? 401)%Z then wrong_credentials
        else if (status =? 403)%Z then access_denied
        else if (status =? 429)%Z then too_many_attempts
        else if (500 <=? status)%Z then server_unavailable
        else
          let backendMsg :=
            or_str (or_str (data_error err) (data_message err)) (message err) in
          if Runtime.truthy backendMsg then default [] backendMsg else login_failed
    end.

Section onSubmit.
Import Runtime.
Context `{JSNumber number} `{!JSONOps number}.

(** [onSubmit] after its [await api.post(endpoints.auth.login, ...)],
    given the value of the [next] parameter and the outcome of the
    POST, as far as it touches the stored session and the router:
    [[
    const token = res.data?.accessToken ?? res.data?.token;
    const user = res.data?.user ?? res.data?.me ?? null;
    if (!token) throw new Error("Login OK mas não veio accessToken.");
    authStore.setAccessToken(token);
    authStore.setMe(user);
    router.replace(next);
    ]]
    The [catch] block shows a message and touches neither. *)
Definition onSubmit_resume (nextParam : option jstring)
    (r : thrown number + Response number) : JS number unit :=
  try_catch
    (res ← settled r;
     let d := resp_data res in
     let token := nullish (get_prop d "accessToken") (get_prop d "token") in
     let user := nullish (get_prop d "user") (nullish (get_prop d "me") VNull) in
     (if negb (ToBoolean token)
      then throw (ThrownError (lit "Login OK mas n" ++ [0xE3] ++ lit "o veio accessToken."))
      else mret ());;
     authStore.setAccessToken token;;
     authStore.setMe user;;
     modify (set_router_replaced (safeNext nextParam)))
    (λ _, mret ()).
End onSubmit.
End LoginPage.

(** ** Further notions used to state the properties *)

(** A string of digits with at most one separator of the class [sep],
    which is not its first code unit: [/^\d*$/] or [/^\d+[sep]\d*$/]. *)
Definition money_shaped (sep : N -> bool) (s : jstring) : Prop :=
  Forall (λ c, is_digit c = true) s ∨
  ∃ int c frac,
    s = int ++ c :: frac ∧ int ≠ [] ∧ sep c = true ∧
    Forall (λ c, is_digit c = true) int ∧ Forall (λ c, is_digit c = true) frac.

(** The whitespace of [s] is made of single spaces, none of them in
    front. *)
Definition single_spaced (s : jstring) : Prop :=
  (∀ c, c ∈ s -> is_ws c = true -> c = space) ∧
  (∀ i, s !! i = Some space -> s !! S i ≠ Some space) ∧
  (∀ c, head s = Some c -> is_ws c = false).

(** The alphabet of unpadded URL-safe base 64. *)
Definition is_b64url (c : N) : bool :=
  ((0x41 <=? c) && (c <=? 0x5A)) || ((0x61 <=? c) && (c <=? 0x7A)) ||
  ((0x30 <=? c) && (c <=? 0x39)) || (c =? 0x2D) || (c =? 0x5F).

Section TraceNotions.
Import Runtime.
Context {number : Type}.

(** How many times the promise of caller [c] was settled. *)
Fixpoint delivered_count (c : caller) (l : list (action number)) : nat :=
  match l with
  | [] => 0
  | Delivered c' _ :: l' => (if caller_eqb c' c then 1 else 0) + delivered_count c l'
  | _ :: l' => delivered_count c l'
  end.

Definition is_delivered (a : action number) : bool :=
  match a with
  | Delivered _ _ => true
  | _ => false
  end.

(** Every call of the application made so far is either under way (its
    request in flight, or its handler awaiting the refresh) or settled,
    once; the calls not made yet are neither. *)
Record settles_once (w : World number) : Prop := {
  so_made : ∀ call, (call < next_call w)%nat ->
    (live_count (App call) w + delivered_count (App call) (log w) = 1)%nat;
  so_fresh : ∀ call, (next_call w ≤ call)%nat ->
    live_count (App call) w = 0%nat ∧ delivered_count (App call) (log w) = 0%nat;
  so_app_waiters : ∀ wt, wt ∈ waiters w -> ∃ call, waiting_for wt = App call
}.

(** The header [k] of a request. *)
Definition header (cfg : Config number) (k : jstring) : option jstring :=
  default ∅ (headers cfg) !! k.

(** The same request, up to its [Authorization] header and its [_retry]
    mark. *)
Definition same_request (a b : Config number) : Prop :=
  url a = url b ∧ method a = method b ∧ data a = data b ∧
  ∀ k, k ≠ api.Authorization -> header a k = header b k.

(** Every request under way, and every request re-issued, is the request
    its caller made. *)
Record traced (w : World number) : Prop := {
  tr_pending : ∀ cfg call, ViaApi cfg (App call) ∈ pending w ->
    ∃ cfg0, Requested (App call) cfg0 ∈ log w ∧ same_request cfg0 cfg;
  tr_waiters : ∀ wt, wt ∈ waiters w ->
    ∃ cfg0, Requested (waiting_for wt) cfg0 ∈ log w ∧ same_request cfg0 (original wt);
  tr_retried : ∀ c cfg, Retried c cfg ∈ log w ->
    ∃ cfg0, Requested c cfg0 ∈ log w ∧ same_request cfg0 cfg;
  tr_made : ∀ c cfg, Requested c cfg ∈ log w ->
    ∃ call, c = App call ∧ (call < next_call w)%nat;
  tr_unique : ∀ c cfg1 cfg2, Requested c cfg1 ∈ log w -> Requested c cfg2 ∈ log w ->
    cfg1 = cfg2
}.
End TraceNotions.

(** The entry [k] of [localStorage]; nothing is stored where there is no
    [window]. *)
Definition stored {number} (w : Runtime.World number) (k : jstring) : option jstring :=
  win ← Runtime.window w; Runtime.localStorage win !! k.

(** The guard has cleared the session and sent the router to [target]. *)
Definition guard_signed_out {number} (target : jstring) (w : Runtime.World number) : Prop :=
  stored w authStore.ACCESS_TOKEN_KEY = None ∧
  stored w authStore.ME_KEY = None ∧
  Runtime.router_replaced w = Some target.

(** How the effect of the guard ends on the outcome [r] of its refresh
    POST, from the state [w] to the state [w']: signed out to the login
    address [next] when the POST failed or its answer has no usable
    token; otherwise the token is stored and the router is left alone,
    unless the role check has signed the user out to ["/login"]. *)
Definition guard_outcome `{JSNumber number}
    (next : jstring) (r : Runtime.thrown number + Runtime.Response number)
    (w w' : Runtime.World number) : Prop :=
  match r with
  | inl _ => guard_signed_out next w'
  | inr res =>
      let token := AuthGuard.extractToken res in
      match ToString token with
      | Some t =>
          if ToBoolean token
          then guard_signed_out (lit "/login") w' ∨
               (stored w' authStore.ACCESS_TOKEN_KEY = Some t ∧
                Runtime.router_replaced w' = Runtime.router_replaced w)
          else guard_signed_out next w'
      | None => guard_signed_out next w'
      end
  end.

(** How a login attempt ends on the outcome [r] of its POST, from the
    state [w] to the state [w']: with the token of the answer stored and
    the router sent to the safe target, or with the session and the
    router as they were. *)
Definition login_outcome `{JSNumber number}
    (nextParam : option jstring) (r : Runtime.thrown number + Runtime.Response number)
    (w w' : Runtime.World number) : Prop :=
  let unchanged :=
    (∀ k, stored w' k = stored w k) ∧
    Runtime.router_replaced w' = Runtime.router_replaced w in
  match r with
  | inl _ => unchanged
  | inr res =>
      let d := Runtime.resp_data res in
      let token := nullish (get_prop d "accessToken") (get_prop d "token") in
      match ToString token with
      | Some t =>
          if ToBoolean token
          then stored w' authStore.ACCESS_TOKEN_KEY = Some t ∧
               Runtime.router_replaced w' = Some (LoginPage.safeNext nextParam)
          else unchanged
      | None => unchanged
      end
  end.

(** The actions that record a request: the first issue and the re-issue. *)
Definition is_request {number} (a : Runtime.action number) : bool :=
  match a with
  | Runtime.Requested _ _ | Runtime.Retried _ _ => true
  | _ => false
  end.

(** The comparison of [Object.keys(o).sort()] as a relation. *)
Definition key_le (a b : jstring) : Prop := jstring_leb a b = true.

(** The translation of [base64url], one code unit at a time, and the
    code units of base 64 other than the padding. *)
Definition url_char (c : N) : N :=
  if c =? 0x2B then 0x2D else if c =? 0x2F then 0x5F else c.

Definition b64_ok (c : N) : Prop :=
  c ≠ 0x3D ∧ url_char c ≠ 0x3D ∧ is_b64url (url_char c) = true.

(** An unreserved character or a percent sign: what is left of a text
    after [encodeURIComponent]. *)
Definition uri_safe (c : N) : Prop := uri_unreserved c = true ∨ c = 0x25.

(** Further stand-ins for the abstract built-ins: a digest of 32 zero
    bytes, and a parser that reads every text as the record of a seller. *)
Definition zero_digest_builtins : PageBuiltins := {|
  toLowerCase := λ s, s;
  sha256 := λ _, replicate 32 0
|}.

Definition seller_JSON : JSONOps Z := {|
  JSON_parse := λ _, Some (VObj [(lit "role", VStr (lit "SELLER"))]);
  JSON_stringify := λ _, lit "{}"
|}.

(** A browser whose storage holds a token, the record of a user, and an
    entry of another script. *)
Definition signed_in_window : Runtime.Window :=
  Runtime.mkWindow {[ authStore.ACCESS_TOKEN_KEY := lit "tok1";
              authStore.ME_KEY := lit "{}";
              lit "theme" := lit "dark" ]}
           (lit "/admin/orders") [] None.

(** The page was loaded without a token and the guard has sent its
    refresh POST. *)
Definition sample_guarding : Runtime.World Z :=
  EventLoop.run (EventLoop.init (Some sample_window)) [EventLoop.GuardRun (lit "/admin")].

(** A request answered 401, the refresh, the retry and its answer. *)
Definition sample_settled : Runtime.World Z :=
  EventLoop.run (EventLoop.init (Some sample_window))
    [EventLoop.Send sample_patch; EventLoop.Reply 0 unauthorized;
     EventLoop.Reply 0 refreshed;
     EventLoop.Reply 0 (EventLoop.HttpReply (Runtime.mkResponse 200 (VObj [])))].

Create HintDb browser.

(** * Properties *)

(** ** stableKey *)
Section StableKeyFacts.
Context `{JSNumber number}.

Lemma dropWhile_split (p : N -> bool) (s : jstring) :
  ∃ run, s = run ++ dropWhile p s ∧ Forall (λ c, p c = true) run ∧
         match dropWhile p s with [] => True | c :: _ => p c = false end.
Proof.
  induction s as [|c s IH]; simpl.
  - exists []. repeat split; constructor.
  - destruct (p c) eqn:Hc.
    + destruct IH as (run & Heq & Hall & Hhd).
      exists (c :: run). repeat split; [simpl; congruence | by constructor | done].
    + exists []. repeat split; [constructor | done].
Qed.

Lemma replace_ws_runs_collapsed (s : jstring) :
  ws_runs_collapsed s (replace_ws_runs s).
Proof.
  funelim (replace_ws_runs s).
  - constructor.
  - destruct (dropWhile_split is_ws s') as (run & Hsplit & Hall & Hhd).
    rewrite Hsplit at 1.
    apply (collapsed_run (c :: run)); [done | by constructor | done | done].
  - by constructor.
Qed.

Lemma collapsed_no_whitespace (s out : jstring) :
  ws_runs_collapsed s out -> no_whitespace out.
Proof.
  induction 1; constructor; done.
Qed.

Lemma no_whitespace_take (n : nat) (s : jstring) :
  no_whitespace s -> no_whitespace (take n s).
Proof. apply Forall_take. Qed.

(** C10: the key returned by [stableKey] has no whitespace character
    and at most 160 code units; it is the first 160 code units of the
    trimmed, joined input in which every maximal run of whitespace has
    been replaced by one underscore. *)
Theorem stableKey_no_whitespace_bounded (parts : list Idempotency.part) :
  no_whitespace (Idempotency.stableKey parts) ∧
  (length (Idempotency.stableKey parts) ≤ 160)%nat ∧
  ∃ out, ws_runs_collapsed (Idempotency.raw parts) out ∧
         Idempotency.stableKey parts = take 160 out.
Proof.
  unfold Idempotency.stableKey, slice0.
  pose proof (replace_ws_runs_collapsed (Idempotency.raw parts)) as Hc.
  split; [|split].
  - apply no_whitespace_take. eapply collapsed_no_whitespace, Hc.
  - rewrite length_take. lia.
  - eauto.
Qed.
End StableKeyFacts.

(** ** Determinism of the key derivations *)
Section KeyDeterminism.
Context `{JSNumber number}.

(** C5: two runs of [stableKey], of [idempotencyKey] or of [IdemKey] on
    the same arguments, in any two environments (module and browser
    state, random source, clock), return the same key, and a run leaves
    the environment as it found it. *)
Theorem key_derivation_deterministic :
  (∀ (parts : list Idempotency.part) (env1 env2 : Ambient number),
      fst (runs_as (Idempotency.stableKey parts) env1) =
      fst (runs_as (Idempotency.stableKey parts) env2) ∧
      snd (runs_as (Idempotency.stableKey parts) env1) = env1) ∧
  (∀ (orderId action : jstring) (env1 env2 : Ambient number),
      fst (runs_as (OrderPages.idempotencyKey orderId action) env1) =
      fst (runs_as (OrderPages.idempotencyKey orderId action) env2) ∧
      snd (runs_as (OrderPages.idempotencyKey orderId action) env1) = env1) ∧
  (∀ (id action : jstring) (env1 env2 : Ambient number),
      fst (runs_as (InboxPage.IdemKey id action) env1) =
      fst (runs_as (InboxPage.IdemKey id action) env2) ∧
      snd (runs_as (InboxPage.IdemKey id action) env1) = env1).
Proof.
  repeat split.
Qed.
End KeyDeterminism.

(** ** apiErrorMessage *)
Section ApiErrorFacts.
Context `{JSNumber number}.

Lemma filter_truthy_cons (v : JSVal number) (rest : list (JSVal number)) :
  filter (λ v, ToBoolean v = true) (v :: rest) =
  if ToBoolean v then v :: filter (λ v, ToBoolean v = true) rest
  else filter (λ v, ToBoolean v = true) rest.
Proof. rewrite filter_cons. destruct (ToBoolean v); by case_decide. Qed.

Lemma apiErrorMessage_by_precedence (err : JSVal number) (fallback : jstring) :
  apiError.apiErrorMessage err fallback = apiError.by_precedence err fallback.
Proof.
  unfold apiError.apiErrorMessage, apiError.by_precedence, apiError.candidates.
  generalize (nullish err (VObj [])) as parsed. intros parsed.
  generalize (get_prop (get_prop parsed "response") "data") as d. intros d.
  generalize (get_prop d "error") (get_prop d "message")
             (get_prop (get_index0 (get_prop d "issues")) "message")
             (get_prop (get_index0 (get_prop d "issues")) "msg")
             (get_prop parsed "message") (isArray (get_prop d "issues")).
  intros e m im ig pm arr.
  assert (Hnil : filter (λ v : JSVal number, ToBoolean v = true) [] = []) by done.
  destruct d as [[| | | |s]| |]; try done;
    destruct arr; simpl app; rewrite !filter_truthy_cons, Hnil;
    destruct (ToBoolean e), (ToBoolean m), (ToBoolean pm);
    try done; destruct (ToBoolean im); try done; destruct (ToBoolean ig); done.
Qed.

(** C8 (as the code has it): [apiErrorMessage] follows the precedence
    of [by_precedence] (a string [response.data], else the first truthy
    of [data.error], [data.message], [issues[0].message],
    [issues[0].msg], [err.message], each converted with [String], else
    the fallback); it returns the fallback on [null] and [undefined];
    and it returns a string whenever [String] converts the truthy
    candidates. *)
Theorem apiErrorMessage_precedence (err : JSVal number) (fallback : jstring) :
  apiError.apiErrorMessage err fallback = apiError.by_precedence err fallback ∧
  apiError.apiErrorMessage VNull fallback = Some fallback ∧
  apiError.apiErrorMessage VUndefined fallback = Some fallback ∧
  ((∀ v, v ∈ apiError.candidates err -> ToBoolean v = true -> is_Some (ToString v)) ->
   is_Some (apiError.apiErrorMessage err fallback)).
Proof.
  split; [apply apiErrorMessage_by_precedence|].
  split; [done|]. split; [done|].
  intros Hconv. rewrite apiErrorMessage_by_precedence.
  unfold apiError.by_precedence.
  destruct (get_prop (get_prop (nullish err (VObj [])) "response") "data")
    as [[| | | |s]| |]; try done;
    (destruct (filter _ (apiError.candidates err)) as [|v l] eqn:Hf; [done|];
     assert (Hv : v ∈ filter (λ v, ToBoolean v = true) (apiError.candidates err))
       by (rewrite Hf; left);
     apply list_elem_of_filter in Hv as [Ht Hin]; by apply Hconv).
Qed.
End ApiErrorFacts.

(** ** pickPrimaryImage *)
Section PickPrimaryImageFacts.
Import productImages.

Lemma compareFn_refl a : (compareFn a a = 0)%Z.
Proof. unfold compareFn. destruct (default false (isPrimary a)); simpl; lia. Qed.

Lemma compareFn_trans a b c :
  (compareFn a b ≤ 0 -> compareFn b c ≤ 0 -> compareFn a c ≤ 0)%Z.
Proof.
  unfold compareFn.
  destruct (default false (isPrimary a)), (default false (isPrimary b)),
           (default false (isPrimary c)); simpl; lia.
Qed.

Lemma compareFn_total a b : (0 < compareFn a b -> compareFn b a ≤ 0)%Z.
Proof.
  unfold compareFn.
  destruct (default false (isPrimary a)), (default false (isPrimary b)); simpl; lia.
Qed.

Lemma sort_insert_elem x y l : y ∈ sort_insert compareFn x l ↔ y = x ∨ y ∈ l.
Proof.
  induction l as [|z l IH]; simpl.
  - rewrite list_elem_of_singleton, elem_of_nil. tauto.
  - destruct (compareFn x z <=? 0)%Z.
    + rewrite !elem_of_cons. tauto.
    + rewrite !elem_of_cons, IH. tauto.
Qed.

Lemma array_sort_elem y l : y ∈ array_sort compareFn l ↔ y ∈ l.
Proof.
  induction l as [|x l IH]; simpl; [done|].
  rewrite sort_insert_elem, IH, elem_of_cons. tauto.
Qed.

(** The first element after the sort is below every element. *)
Lemma array_sort_head l :
  l ≠ [] ->
  ∃ hd rest, array_sort compareFn l = hd :: rest ∧ hd ∈ l ∧
             ∀ y, y ∈ l -> (compareFn hd y ≤ 0)%Z.
Proof.
  induction l as [|x l IH]; [done|]. intros _. simpl.
  destruct l as [|x' l'].
  - simpl. exists x, []. split; [done|]. split; [left|].
    intros y ->%list_elem_of_singleton. rewrite compareFn_refl. lia.
  - destruct IH as (hd & rest & Heq & Hin & Hmin); [done|].
    rewrite Heq. simpl.
    destruct (compareFn x hd <=? 0)%Z eqn:Hc.
    + apply Z.leb_le in Hc.
      exists x, (hd :: rest). split; [done|]. split; [left|].
      intros y [->|Hy]%elem_of_cons; [rewrite compareFn_refl; lia|].
      eapply compareFn_trans; eauto.
    + apply Z.leb_gt in Hc.
      exists hd, (sort_insert compareFn x rest). split; [done|].
      split; [by right|].
      intros y [->|Hy]%elem_of_cons; [by apply compareFn_total | by apply Hmin].
Qed.

Lemma compareFn_primary_first a b :
  (compareFn a b ≤ 0)%Z -> primary b = true -> primary a = true.
Proof.
  unfold compareFn, primary.
  destruct (default false (isPrimary a)), (default false (isPrimary b)); simpl; try done; lia.
Qed.

Lemma compareFn_by_sort a b :
  (compareFn a b ≤ 0)%Z -> primary a = false -> primary b = false ->
  (sort_value a ≤ sort_value b)%Z.
Proof.
  unfold compareFn, primary, sort_value.
  destruct (default false (isPrimary a)), (default false (isPrimary b)); simpl; try done; lia.
Qed.

(** C9: [pickPrimaryImage] returns [null] exactly for a [null],
    [undefined] or empty list; on a non-empty list it returns the url of
    an element of the list, a primary one whenever the list has one, and
    otherwise one whose [sort] (0 when missing) is minimal; the arrays
    that existed before the call, the argument among them, are left as
    they were. *)
Theorem pickPrimaryImage_spec (images : option loc) (h : heap) :
  (∀ l, images = Some l -> is_Some (h !! l)) ->
  let arr := default [] (images ≫= (h !!.)) in
  (fst (pickPrimaryImage images h) = None ↔ images = None ∨ arr = []) ∧
  (arr ≠ [] ->
     ∃ img, img ∈ arr ∧ fst (pickPrimaryImage images h) = Some (url img) ∧
       ((∃ x, x ∈ arr ∧ primary x = true) -> primary img = true) ∧
       ((∀ x, x ∈ arr -> primary x = false) ->
          ∀ x, x ∈ arr -> (sort_value img ≤ sort_value x)%Z)) ∧
  (∀ l, is_Some (h !! l) -> snd (pickPrimaryImage images h) !! l = h !! l).
Proof.
  intros Hwf arr. unfold pickPrimaryImage. subst arr.
  destruct images as [l0|]; simpl.
  2:{ split; [split; [by left | done]|]. split; [done | done]. }
  destruct (Hwf l0 eq_refl) as [a Ha]. rewrite Ha. simpl.
  destruct a as [|x a']; simpl.
  { split; [split; [by right | done]|]. split; [done | done]. }
  destruct (array_sort_head (x :: a')) as (hd & rest & Hs & Hin & Hmin); [done|].
  rewrite insert_insert_eq, lookup_insert_eq. simpl.
  simpl in Hs. rewrite Hs. simpl.
  split; [split; [done | intros [?|?]; congruence]|].
  split.
  - intros _. exists hd. split; [done|]. split; [done|]. split.
    + intros (x0 & Hx0 & Hp). eapply compareFn_primary_first; eauto.
    + intros Hnone x0 Hx0. apply compareFn_by_sort; auto.
  - intros l Hl. apply lookup_insert_ne. intros <-.
    apply elem_of_dom in Hl. by apply (is_fresh (dom h)).
Qed.
End PickPrimaryImageFacts.

(** ** The interceptors of api.ts *)
Section ApiFacts.
Import Runtime.
Context `{JSNumber number} `{!JSONOps number}.

Ltac js_unfold :=
  unfold mbind, mret, JS_bind, JS_ret, gets, modify, throw, settled, or_throw, try_catch.

Lemma refreshAccessToken_shared (w : World number) (p : nat) :
  refreshing w = Some p -> api.refreshAccessToken w = (inr p, w).
Proof.
  intros Hr. unfold api.refreshAccessToken. js_unfold. by rewrite Hr.
Qed.

Lemma refreshAccessToken_first (w : World number) :
  refreshing w = None ->
  api.refreshAccessToken w = (inr (next_promise w), start_refresh w).
Proof.
  intros Hr. unfold api.refreshAccessToken. js_unfold. by rewrite Hr.
Qed.

(** C6: the rejection handler starts refresh-then-retry exactly when the
    status is 401, the request configuration is present, its address
    does not contain the refresh endpoint and it is not marked
    [_retry]; then it goes through [refreshAccessToken].  In every other
    case it rejects with the error it was given and leaves the state
    untouched: no refresh is attempted. *)
Theorem refresh_triggered_iff (err : AxiosError number) (w : World number) :
  let expired_and_retryable :=
    status <$> response err = Some 401%Z ∧
    ∃ original, config err = Some original ∧
      includes (default [] (url original)) endpoints.auth_refresh = false ∧
      _retry original = false in
  ((∃ x w', api.onRejected err w = (inr x, w')) ↔ expired_and_retryable) ∧
  (expired_and_retryable ->
     ∃ original p, config err = Some original ∧
       api.refreshAccessToken w = (inr p, snd (api.refreshAccessToken w)) ∧
       api.onRejected err w =
         (inr (p, set_retry true original), snd (api.refreshAccessToken w))) ∧
  (¬ expired_and_retryable -> api.onRejected err w = (inl (ThrownAxios err), w)).
Proof.
  intros cond. subst cond. unfold api.onRejected.
  assert (Hrefresh : ∃ p, api.refreshAccessToken w = (inr p, snd (api.refreshAccessToken w))).
  { destruct (refreshing w) as [p|] eqn:Hr.
    - exists p. by rewrite (refreshAccessToken_shared w p Hr).
    - eexists. by rewrite (refreshAccessToken_first w Hr). }
  destruct Hrefresh as [p Hp].
  destruct (config err) as [original|] eqn:Hc.
  2:{ js_unfold. split; [|split].
      - split; [intros (x & w' & [=]) | intros (_ & o & [=] & _)].
      - intros (_ & o & [=] & _).
      - done. }
  case_bool_decide as Hs; simpl.
  2:{ js_unfold. split; [|split].
      - split; [intros (x & w' & [=]) | intros (? & _); done].
      - intros (? & _); done.
      - done. }
  destruct (includes _ _) eqn:Hi.
  { js_unfold. split; [|split].
    - split; [intros (x & w' & [=]) | intros (_ & o & [= <-] & ? & _); congruence].
    - intros (_ & o & [= <-] & ? & _); congruence.
    - done. }
  destruct (_retry original) eqn:Hre.
  { js_unfold. split; [|split].
    - split; [intros (x & w' & [=]) | intros (_ & o & [= <-] & _ & ?); congruence].
    - intros (_ & o & [= <-] & _ & ?); congruence.
    - done. }
  js_unfold. rewrite Hp. simpl. split; [|split].
  - split; [|eauto]. intros _. split; [done|]. exists original. done.
  - intros _. exists original, p. done.
  - intros Hn. exfalso. apply Hn. split; [done|]. exists original. done.
Qed.
End ApiFacts.

(** ** The state machine of api.ts *)
Section ApiSystemFacts.
Import Runtime.
Context `{JSNumber number} `{!JSONOps number}.

Ltac js_unfold :=
  unfold mbind, mret, JS_bind, JS_ret, gets, modify, throw, settled, or_throw, try_catch.

(** *** Code that touches the browser only *)

Lemma browser_only_ret {A} (x : A) : browser_only (mret x : JS number A).
Proof. done. Qed.

Lemma browser_only_throw {A} e : browser_only (throw e : JS number A).
Proof. done. Qed.

Lemma browser_only_gets {A} (f : World number -> A) : browser_only (gets f).
Proof. done. Qed.

Lemma browser_only_bind {A B} (m : JS number A) (k : A -> JS number B) :
  browser_only m -> (∀ x, browser_only (k x)) -> browser_only (m ≫= k).
Proof.
  intros Hm Hk w. js_unfold. specialize (Hm w).
  destruct (m w) as [[e|x] w1]; simpl in *; [done|].
  rewrite Hk. done.
Qed.

Lemma browser_only_try_catch {A} (m : JS number A) (h : thrown number -> JS number A) :
  browser_only m -> (∀ e, browser_only (h e)) -> browser_only (try_catch m h).
Proof.
  intros Hm Hh w. unfold try_catch. specialize (Hm w).
  destruct (m w) as [[e|x] w1]; simpl in *; [|done].
  rewrite Hh. done.
Qed.

Lemma browser_only_set_window f : browser_only (modify (set_window (number:=number) f)).
Proof. done. Qed.

Lemma browser_only_set_router u :
  browser_only (modify (set_router_replaced (number:=number) u)).
Proof. done. Qed.

Lemma browser_only_or_throw {A} e (o : option A) : browser_only (or_throw (number:=number) e o).
Proof. by destruct o. Qed.

Lemma browser_only_settled {A} (r : thrown number + A) : browser_only (settled r : JS number A).
Proof. by destruct r. Qed.

Lemma browser_only_attempt {A} (m : JS number A) :
  browser_only m -> browser_only (EventLoop.attempt m).
Proof.
  intros Hm w. unfold EventLoop.attempt. specialize (Hm w).
  by destruct (m w).
Qed.

Hint Resolve browser_only_ret browser_only_throw browser_only_gets
  browser_only_set_window browser_only_set_router browser_only_or_throw
  browser_only_settled : browser.

Ltac browser :=
  repeat first
    [ apply browser_only_bind; [|intros ?]
    | apply browser_only_try_catch; [|intros ?]
    | apply browser_only_attempt
    | match goal with |- browser_only (if ?b then _ else _) => destruct b end
    | match goal with |- browser_only (match ?x with _ => _ end) => destruct x end
    | solve [auto with browser] ].

Lemma browser_only_clearAll : browser_only (authStore.clearAll : JS number _).
Proof. done. Qed.

Lemma browser_only_setAccessToken token : browser_only (authStore.setAccessToken token).
Proof. unfold authStore.setAccessToken. browser. Qed.

Lemma browser_only_setMe me : browser_only (authStore.setMe me).
Proof. done. Qed.

Lemma browser_only_getMe : browser_only (authStore.getMe : JS number _).
Proof. done. Qed.

Hint Resolve browser_only_clearAll browser_only_setAccessToken browser_only_setMe
  browser_only_getMe : browser.

Lemma browser_only_redirect : browser_only (api.redirect_to_login : JS number _).
Proof. unfold api.redirect_to_login. browser. Qed.

Lemma browser_only_check_role : browser_only (AuthGuard.check_role : JS number _).
Proof. unfold AuthGuard.check_role. browser. Qed.

Hint Resolve browser_only_redirect browser_only_check_role : browser.

Lemma browser_only_onRejected_resume original r :
  browser_only (api.onRejected_resume original r).
Proof. unfold api.onRejected_resume. browser. Qed.

Lemma browser_only_refresh_body r : browser_only (api.refresh_body r).
Proof. unfold api.refresh_body. browser. Qed.

Lemma browser_only_run_resume next r : browser_only (AuthGuard.run_resume next r).
Proof. unfold AuthGuard.run_resume. browser. Qed.

(** *** The operations of api.ts *)
Lemma getAccessToken_eq (w : World number) :
  authStore.getAccessToken w = (inr (token_of w), w).
Proof. done. Qed.

Lemma request_interceptor_eq cfg (w : World number) :
  api.request_interceptor cfg w = (inr (sent_config cfg w), w).
Proof.
  unfold api.request_interceptor, sent_config, with_bearer. js_unfold.
  rewrite getAccessToken_eq. by destruct (truthy (token_of w)).
Qed.

Lemma api_request_eq cfg c (w : World number) :
  api.api_request cfg c w =
  (inr (sent_config cfg w), set_pending (λ l, l ++ [ViaApi (sent_config cfg w) c]) w).
Proof.
  unfold api.api_request. js_unfold. by rewrite request_interceptor_eq.
Qed.

Lemma sent_config_retry cfg (w : World number) : _retry (sent_config cfg w) = _retry cfg.
Proof. unfold sent_config. by destruct (truthy (token_of w)). Qed.

Lemma sent_config_url cfg (w : World number) : url (sent_config cfg w) = url cfg.
Proof. unfold sent_config. by destruct (truthy (token_of w)). Qed.

Lemma deliver_app call r (w : World number) :
  EventLoop.deliver (App call) r w = (inr (), add_log (Delivered (App call) r) w).
Proof. done. Qed.

Lemma deliver_net c r (w : World number) :
  ∃ w', EventLoop.deliver c r w = (inr (), w') ∧
        net w' = net (add_log (Delivered c r) w).
Proof.
  destruct c as [call|next]; [eexists; split; [apply deliver_app | done]|].
  unfold EventLoop.deliver. js_unfold. simpl.
  pose proof (browser_only_attempt _ (browser_only_run_resume next r)
                (add_log (Delivered (Guard next) r) w)) as Hb.
  unfold EventLoop.attempt in *.
  destruct (AuthGuard.run_resume next r _) as [res w1]; simpl in *.
  eexists; split; [done | done].
Qed.

Lemma onRejected_resume_cases original r (w : World number) :
  (∃ tok s, r = inr tok ∧ ToString tok = Some s ∧
     api.onRejected_resume original r w = (inr (with_bearer s original), w)) ∨
  (∃ e w1, api.onRejected_resume original r w = (inl e, w1) ∧ net w1 = net w).
Proof.
  pose proof (browser_only_onRejected_resume original r w) as Hb.
  unfold api.onRejected_resume in *. revert Hb. js_unfold.
  destruct r as [e|tok]; simpl.
  - destruct (api.redirect_to_login _) as [[e'|[]] w1]; simpl; intros Hb;
      right; eauto.
  - destruct (ToString tok) as [s|] eqn:Hs; simpl.
    + intros _. left. eauto.
    + destruct (api.redirect_to_login _) as [[e'|[]] w1]; simpl; intros Hb;
        right; eauto.
Qed.

Lemma resume_waiter_cases r wt (w : World number) :
  (∃ cfg, _retry cfg = _retry (original wt) ∧
     EventLoop.resume_waiter r wt w =
     (inr (), add_log (Retried (waiting_for wt) (sent_config cfg w))
                (set_pending (λ l, l ++ [ViaApi (sent_config cfg w) (waiting_for wt)]) w))) ∨
  (∃ e w1, net w1 = net w ∧
     EventLoop.resume_waiter r wt w = EventLoop.deliver (waiting_for wt) (inl e) w1).
Proof.
  unfold EventLoop.resume_waiter, EventLoop.attempt. js_unfold.
  destruct (onRejected_resume_cases (original wt) r w)
    as [(tok & s & -> & Hs & ->)|(e & w1 & -> & Hn)]; simpl.
  - left. exists (with_bearer s (original wt)). split; [done|].
    by rewrite api_request_eq.
  - right. eauto.
Qed.

(** *** Counting *)
Lemma count_app {A} (f : A -> bool) (l1 l2 : list A) :
  EventLoop.count f (l1 ++ l2) = (EventLoop.count f l1 + EventLoop.count f l2)%nat.
Proof. unfold EventLoop.count. by rewrite filter_app, length_app. Qed.

Lemma count_cons {A} (f : A -> bool) (x : A) (l : list A) :
  EventLoop.count f (x :: l) = ((if f x then 1 else 0) + EventLoop.count f l)%nat.
Proof.
  unfold EventLoop.count. rewrite filter_cons.
  destruct (f x); case_decide; simpl; congruence.
Qed.

Lemma count_nil {A} (f : A -> bool) : EventLoop.count f [] = 0%nat.
Proof. done. Qed.

Lemma lookup_split {A} (l : list A) (i : nat) (x : A) :
  l !! i = Some x ->
  ∃ l1 l2, l = l1 ++ x :: l2 ∧ delete i l = l1 ++ l2.
Proof.
  intros Hi. exists (take i l), (drop (S i) l). split.
  - by rewrite take_drop_middle.
  - by rewrite delete_take_drop.
Qed.

Lemma retried_count_app c (l1 l2 : list (action number)) :
  retried_count c (l1 ++ l2) = (retried_count c l1 + retried_count c l2)%nat.
Proof.
  induction l1 as [|a l1 IH]; simpl; [done|].
  destruct a; rewrite IH; lia.
Qed.

Lemma caller_eqb_eq a b : caller_eqb a b = true ↔ a = b.
Proof.
  destruct a, b; simpl; rewrite ?bool_decide_eq_true; split; congruence.
Qed.

Lemma caller_eqb_refl a : caller_eqb a a = true.
Proof. by apply caller_eqb_eq. Qed.

Lemma caller_eqb_neq a b : a ≠ b -> caller_eqb a b = false.
Proof.
  intros Hne. destruct (caller_eqb a b) eqn:E; [|done].
  by apply caller_eqb_eq in E.
Qed.

(** *** The tasks *)
Lemma refreshAccessToken_cases (w : World number) :
  (∃ p, refreshing w = Some p ∧ api.refreshAccessToken w = (inr p, w)) ∨
  (refreshing w = None ∧
   api.refreshAccessToken w = (inr (next_promise w), start_refresh w)).
Proof.
  destruct (refreshing w) as [p|] eqn:Hr.
  - left. exists p. split; [done|]. unfold api.refreshAccessToken. js_unfold. by rewrite Hr.
  - right. split; [done|]. unfold api.refreshAccessToken. js_unfold. by rewrite Hr.
Qed.

Lemma onRejected_cases err (w : World number) :
  api.onRejected err w = (inl (ThrownAxios err), w) ∨
  ∃ original p w1,
    config err = Some original ∧
    status <$> response err = Some 401%Z ∧
    includes (default [] (url original)) endpoints.auth_refresh = false ∧
    _retry original = false ∧
    api.refreshAccessToken w = (inr p, w1) ∧
    api.onRejected err w = (inr (p, set_retry true original), w1).
Proof.
  unfold api.onRejected.
  destruct (config err) as [original|]; [|by left].
  case_bool_decide as Hs; simpl; [|by left].
  destruct (includes _ _) eqn:Hi; [by left|].
  destruct (_retry original) eqn:Hre; [by left|].
  right. js_unfold.
  destruct (refreshAccessToken_cases w) as [(p & Hr & Hp)|(Hr & Hp)];
    rewrite Hp; simpl; eauto 10.
Qed.

Lemma axios_settle_config (cfg : Config number) rep err :
  EventLoop.axios_settle cfg rep = inl (ThrownAxios err) -> config err = Some cfg.
Proof.
  destruct rep as [res|]; simpl; [case_bool_decide|]; intros [= <-]; done.
Qed.

Lemma axios_settle_thrown (cfg : Config number) rep e :
  EventLoop.axios_settle cfg rep = inl e -> ∃ err, e = ThrownAxios err.
Proof.
  destruct rep as [res|]; simpl; [case_bool_decide|]; intros [= <-]; eauto.
Qed.

Lemma api_settles_cases cfg c rep (w : World number) :
  (∃ x w', EventLoop.api_settles cfg c (EventLoop.axios_settle cfg rep) w = (inr (), w') ∧
           net w' = net (add_log (Delivered c x) w)) ∨
  (includes (default [] (url cfg)) endpoints.auth_refresh = false ∧
   _retry cfg = false ∧
   ∃ p w1, api.refreshAccessToken w = (inr p, w1) ∧
     EventLoop.api_settles cfg c (EventLoop.axios_settle cfg rep) w =
     (inr (), set_waiters (λ l, l ++ [mkWaiter p (set_retry true cfg) c]) w1)).
Proof.
  unfold EventLoop.api_settles.
  destruct (EventLoop.axios_settle cfg rep) as [e|res] eqn:Hrep.
  2:{ left. destruct (deliver_net c (inr res) w) as (w' & -> & Hn). eauto. }
  destruct (axios_settle_thrown _ _ _ Hrep) as [err ->].
  pose proof (axios_settle_config _ _ _ Hrep) as Hcfg.
  unfold EventLoop.attempt. js_unfold.
  destruct (onRejected_cases err w)
    as [->|(original & p & w1 & Hc & _ & Hi & Hre & Hp & ->)]; simpl.
  - left. destruct (deliver_net c (inl (ThrownAxios err)) w) as (w' & -> & Hn). eauto.
  - right. rewrite Hcfg in Hc. injection Hc as <-. eauto 10.
Qed.

Lemma step_send cfg (w : World number) :
  EventLoop.step w (EventLoop.Send cfg) =
  add_log (Requested (App (next_call w)) (sent_config cfg w))
    (set_pending (λ l, l ++ [ViaApi (sent_config cfg w) (App (next_call w))])
       (set_next_call (S (next_call w)) w)).
Proof.
  unfold EventLoop.step, EventLoop.task. js_unfold. simpl.
  by rewrite api_request_eq.
Qed.

Lemma step_guard pathname (w : World number) :
  net (EventLoop.step w (EventLoop.GuardRun pathname)) = net w ∨
  ∃ next, EventLoop.step w (EventLoop.GuardRun pathname) =
          set_pending (λ l, l ++ [ViaApi (sent_config api.refresh_post w) (Guard next)]) w.
Proof.
  unfold EventLoop.step, EventLoop.task, AuthGuard.run. js_unfold.
  destruct (encodeURIComponent _) as [enc|]; simpl; [|by left].
  fold (token_of w).
  destruct (truthy (token_of w)).
  - left. apply browser_only_check_role.
  - right. rewrite api_request_eq. simpl. eauto.
Qed.

Lemma step_reply_none i rep (w : World number) :
  pending w !! i = None -> EventLoop.step w (EventLoop.Reply i rep) = w.
Proof.
  intros Hi. unfold EventLoop.step, EventLoop.task. js_unfold. simpl. by rewrite Hi.
Qed.

Lemma step_reply_api i rep cfg c (w : World number) :
  pending w !! i = Some (ViaApi cfg c) ->
  EventLoop.step w (EventLoop.Reply i rep) =
  snd (EventLoop.api_settles cfg c (EventLoop.axios_settle cfg rep)
         (set_pending (delete i) w)).
Proof.
  intros Hi. unfold EventLoop.step, EventLoop.task. js_unfold. simpl. by rewrite Hi.
Qed.

Lemma step_reply_refresh i rep p (w : World number) :
  pending w !! i = Some (RefreshPost p) ->
  EventLoop.step w (EventLoop.Reply i rep) =
  snd (EventLoop.refresh_settles p (EventLoop.axios_settle api.refresh_post rep)
         (set_pending (delete i) w)).
Proof.
  intros Hi. unfold EventLoop.step, EventLoop.task. js_unfold. simpl. by rewrite Hi.
Qed.

(** *** Single flight is an invariant *)
Ltac net_fields H :=
  unfold net in H; simpl in H;
  injection H as ?Hrefreshing ?Hnext_promise ?Hnext_call ?Hpending ?Hwaiters ?Hlog.

Lemma single_flight_net (w w' : World number) :
  net w' = net w -> single_flight w -> single_flight w'.
Proof.
  intros Hn [H1 H2 H3 H4]. net_fields Hn.
  constructor; rewrite ?Hrefreshing, ?Hpending, ?Hwaiters; done.
Qed.

Lemma single_flight_log a (w : World number) :
  single_flight w -> single_flight (add_log a w).
Proof. intros [H1 H2 H3 H4]. by constructor. Qed.

Lemma single_flight_init win : single_flight (EventLoop.init (number:=number) win).
Proof.
  constructor; simpl; try done.
  - intros wt Hwt. by apply elem_of_nil in Hwt.
  - intros cfg n Hin. by apply elem_of_nil in Hin.
Qed.

Lemma filter_refresh_snoc_api (l : list (Pending number)) cfg c :
  filter (λ e, EventLoop.is_refresh_operation e = true) (l ++ [ViaApi cfg c]) =
  filter (λ e, EventLoop.is_refresh_operation e = true) l.
Proof. rewrite filter_app. simpl. by rewrite app_nil_r. Qed.

Lemma single_flight_add_api cfg c (w : World number) :
  (∀ n, c = Guard n -> includes (default [] (url cfg)) endpoints.auth_refresh = true) ->
  single_flight w ->
  single_flight (set_pending (λ l, l ++ [ViaApi cfg c]) w).
Proof.
  intros Hc [H1 H2 H3 H4]. constructor; simpl; try done.
  - by rewrite filter_refresh_snoc_api.
  - intros cfg' n [Hin|Hin]%elem_of_app; [by eapply H4|].
    apply list_elem_of_singleton in Hin. injection Hin as Hcfg Hcaller. subst cfg'.
    by eapply Hc.
Qed.

Lemma single_flight_remove_api i cfg c (w : World number) :
  pending w !! i = Some (ViaApi cfg c) ->
  single_flight w ->
  single_flight (set_pending (delete i) w).
Proof.
  intros Hi [H1 H2 H3 H4].
  destruct (lookup_split _ _ _ Hi) as (l1 & l2 & Hl & Hd).
  constructor; simpl; try done.
  - rewrite Hd. rewrite Hl in H1. rewrite filter_app in *.
    by rewrite filter_cons in H1.
  - intros cfg' n Hin. apply (H4 cfg' n). rewrite Hl. rewrite Hd in Hin.
    apply elem_of_app in Hin as [?|?]; apply elem_of_app; [by left|].
    right. by right.
Qed.

Lemma snoc_not_nil {A} (l : list A) (x : A) : l ++ [x] ≠ [].
Proof. by destruct l. Qed.

Lemma single_flight_suspend p cfg call (w w1 : World number) :
  api.refreshAccessToken w = (inr p, w1) ->
  single_flight w ->
  single_flight (set_waiters (λ l, l ++ [mkWaiter p cfg (App call)]) w1).
Proof.
  intros Hp Hsf.
  destruct (refreshAccessToken_cases w) as [(p' & Hr & Hp')|(Hr & Hp')];
    rewrite Hp' in Hp; injection Hp as <- <-.
  - destruct Hsf as [H1 H2 H3 H4]. constructor; simpl; try done.
    + intros wt [Hin|Hin]%elem_of_app; [by apply H2|].
      apply list_elem_of_singleton in Hin as ->. simpl. eauto.
    + intros _. apply snoc_not_nil.
  - destruct Hsf as [H1 H2 H3 H4].
    assert (Hnone : waiters w = []).
    { destruct (waiters w) as [|wt l] eqn:Hw; [done|].
      destruct (H2 wt) as [Hwt _]; [left|]. congruence. }
    constructor; simpl.
    + rewrite filter_app, H1, Hr. done.
    + rewrite Hnone. intros wt Hin. apply list_elem_of_singleton in Hin as ->.
      simpl. eauto.
    + intros _. apply snoc_not_nil.
    + intros cfg' n [Hin|Hin]%elem_of_app; [by eapply H4|].
      by apply list_elem_of_singleton in Hin.
Qed.

Lemma resume_all_shape r wts (w : World number) :
  (∀ wt, wt ∈ wts -> ∃ call, waiting_for wt = App call) ->
  ∃ w' extra,
    EventLoop.resume_all r wts w = (inr (), w') ∧
    refreshing w' = refreshing w ∧ waiters w' = waiters w ∧
    next_promise w' = next_promise w ∧ next_call w' = next_call w ∧
    pending w' = pending w ++ extra ∧
    Forall (λ e, ∃ cfg call, e = ViaApi cfg (App call)) extra.
Proof.
  revert w. induction wts as [|wt rest IH]; intros w Happ; simpl.
  - exists w, []. rewrite app_nil_r. repeat split; done.
  - js_unfold.
    destruct (Happ wt) as [call Hcall]; [left|].
    assert (Hrest : ∀ wt, wt ∈ rest -> ∃ call, waiting_for wt = App call)
      by (intros; apply Happ; by right).
    destruct (resume_waiter_cases r wt w) as [(cfg & _ & ->)|(e & w1 & Hn & ->)].
    + simpl.
      match goal with |- context [@EventLoop.resume_all _ _ _ r rest ?w0] =>
        destruct (IH w0 Hrest) as (w' & extra & -> & Hr & Hw & Hnp & Hnc & Hp & Hex)
      end.
      simpl in *. eexists w', (_ :: extra). split; [done|].
      repeat split; try done.
      * rewrite Hp, <- app_assoc. done.
      * constructor; [|done]. rewrite Hcall. eauto.
    + rewrite Hcall, deliver_app.
      destruct (IH (add_log (Delivered (App call) (inl e)) w1) Hrest)
        as (w' & extra & -> & Hr & Hw & Hnp & Hnc & Hp & Hex).
      net_fields Hn. simpl in *.
      exists w', extra. split; [done|].
      repeat split; congruence.
Qed.

Lemma single_flight_refresh_settles i p r (w : World number) :
  pending w !! i = Some (RefreshPost p) ->
  single_flight w ->
  single_flight (snd (EventLoop.refresh_settles p r (set_pending (delete i) w))).
Proof.
  intros Hi [H1 H2 H3 H4].
  destruct (lookup_split _ _ _ Hi) as (l1 & l2 & Hl & Hd).
  assert (Hr : refreshing w = Some p ∧
               filter (λ e, EventLoop.is_refresh_operation e = true) (l1 ++ l2) = []).
  { rewrite Hl, filter_app, filter_cons in H1. simpl in H1.
    rewrite filter_app.
    destruct (refreshing w) as [p'|].
    - destruct (filter _ l1) as [|x l1']; simpl in H1.
      + injection H1 as <- ->. done.
      + injection H1 as _ H1. by destruct l1'.
    - by destruct (filter _ l1). }
  destruct Hr as [Hr Hf].
  unfold EventLoop.refresh_settles, api.refresh_finally. js_unfold.
  pose proof (browser_only_attempt _ (browser_only_refresh_body r)
                (set_pending (delete i) w)) as Hb.
  unfold EventLoop.attempt in *.
  destruct (api.refresh_body r _) as [out w1]; simpl in *.
  net_fields Hb.
  match goal with |- context [@EventLoop.resume_all _ _ _ ?r ?wts ?w0] =>
    destruct (resume_all_shape r wts w0) as (w' & extra & Hres & Hr' & Hw' & _ & _ & Hp' & Hex)
  end.
  { intros wt [_ Hin]%list_elem_of_filter. rewrite Hwaiters in Hin.
    by destruct (H2 wt Hin). }
  rewrite Hres. simpl in *.
  assert (Hnow : ∀ wt, wt ∈ waiters w1 -> awaited wt = p).
  { intros wt Hin. rewrite Hwaiters in Hin. destruct (H2 wt Hin) as [Hwt _]. congruence. }
  assert (Hempty : filter (λ wt, awaited wt ≠ p) (waiters w1) = []).
  { clear -Hnow. induction (waiters w1) as [|wt l IH]; [done|].
    rewrite filter_cons. case_decide as Hd.
    - exfalso. apply Hd, Hnow. left.
    - apply IH. intros; apply Hnow; by right. }
  constructor.
  - rewrite Hp', Hr', Hpending, Hd, filter_app, Hf. simpl.
    clear -Hex. induction Hex as [|e l (cfg & call & ->) _ IH]; [done|].
    rewrite filter_cons. simpl. exact IH.
  - rewrite Hw', Hempty. intros wt Hin. by apply elem_of_nil in Hin.
  - rewrite Hr'. done.
  - intros cfg n. rewrite Hp', Hpending, Hd.
    intros [Hin|Hin]%elem_of_app.
    + apply (H4 cfg n). rewrite Hl.
      apply elem_of_app in Hin as [?|?]; apply elem_of_app; [by left|]. right. by right.
    + rewrite Forall_forall in Hex. destruct (Hex _ Hin) as (? & ? & [=]).
Qed.

Lemma single_flight_step (w : World number) ev :
  single_flight w -> single_flight (EventLoop.step w ev).
Proof.
  intros Hsf. destruct ev as [cfg|i rep|pathname].
  - rewrite step_send. apply single_flight_log.
    apply single_flight_add_api; [intros n [=]|].
    destruct Hsf. by constructor.
  - destruct (pending w !! i) as [[cfg c|p]|] eqn:Hi.
    + rewrite (step_reply_api _ _ _ _ _ Hi).
      pose proof (single_flight_remove_api _ _ _ _ Hi Hsf) as Hsf0.
      destruct (api_settles_cases cfg c rep (set_pending (delete i) w))
        as [(x & w' & -> & Hn)|(Hincl & Hre & p & w1 & Hp & ->)]; simpl.
      * eapply single_flight_net; [exact Hn|]. by apply single_flight_log.
      * destruct c as [call|n].
        -- eapply single_flight_suspend; eauto.
        -- destruct Hsf as [_ _ _ H4].
           rewrite (H4 cfg n) in Hincl; [done|].
           eapply list_elem_of_lookup_2; eauto.
    + rewrite (step_reply_refresh _ _ _ _ Hi).
      by apply single_flight_refresh_settles.
    + by rewrite step_reply_none.
  - destruct (step_guard pathname w) as [Hn|[next ->]].
    + eapply single_flight_net; eauto.
    + apply single_flight_add_api; [|done].
      intros _ _. rewrite sent_config_url. done.
Qed.

Lemma reachable_single_flight win (w : World number) :
  EventLoop.reachable win w -> single_flight w.
Proof.
  induction 1; [apply single_flight_init | by apply single_flight_step].
Qed.

(** *** Retry accounting is an invariant *)
Lemma retry_once_ext (w w' : World number) :
  next_call w' = next_call w -> pending w' = pending w ->
  waiters w' = waiters w -> log w' = log w ->
  retry_once w -> retry_once w'.
Proof.
  intros Hnc Hp Hw Hl [R1 R2 R3 R4 R5 R6 R7].
  constructor; unfold live_count in *; rewrite ?Hnc, ?Hp, ?Hw, ?Hl; done.
Qed.

Lemma retry_once_net (w w' : World number) :
  net w' = net w -> retry_once w -> retry_once w'.
Proof. intros Hn. net_fields Hn. by apply retry_once_ext. Qed.

Lemma retry_once_init win : retry_once (EventLoop.init (number:=number) win).
Proof.
  constructor; unfold live_count; simpl; intros;
    repeat match goal with
           | Hx : _ ∈ [] |- _ => apply elem_of_nil in Hx; destruct Hx
           end; rewrite ?count_nil; try done; lia.
Qed.

Lemma retried_count_snoc c (l : list (action number)) a :
  is_retried a = false -> retried_count c (l ++ [a]) = retried_count c l.
Proof. intros Ha. rewrite retried_count_app. destruct a; simpl in *; try done; lia. Qed.

Lemma retry_once_log a (w : World number) :
  is_retried a = false -> retry_once w -> retry_once (add_log a w).
Proof.
  intros Ha [R1 R2 R3 R4 R5 R6 R7].
  constructor; unfold live_count in *; simpl; intros;
    rewrite ?retried_count_snoc by done; eauto.
Qed.

Lemma count_delete {A} (f : A -> bool) (l : list A) i x :
  l !! i = Some x ->
  EventLoop.count f l = (EventLoop.count f (delete i l) + (if f x then 1 else 0))%nat.
Proof.
  intros Hi. destruct (lookup_split _ _ _ Hi) as (l1 & l2 & Hl & ->).
  rewrite Hl, !count_app, count_cons. lia.
Qed.

Lemma elem_of_delete {A} (l : list A) i y : y ∈ delete i l -> y ∈ l.
Proof. apply list_elem_of_delete_inv. Qed.

Lemma retry_once_remove i e (w : World number) :
  pending w !! i = Some e -> retry_once w -> retry_once (set_pending (delete i) w).
Proof.
  intros Hi [R1 R2 R3 R4 R5 R6 R7].
  constructor; unfold live_count in *; simpl; try done.
  - intros cfg c Hin. apply R3. by eapply elem_of_delete.
  - intros call. specialize (R4 call).
    rewrite (count_delete _ _ _ _ Hi) in R4. lia.
  - intros call Hc. destruct (R5 call Hc) as [Hl Hr]. split; [|done].
    rewrite (count_delete _ _ _ _ Hi) in Hl. lia.
Qed.

Lemma retry_once_send cfg (w : World number) :
  retry_once w -> retry_once (EventLoop.step w (EventLoop.Send cfg)).
Proof.
  intros [R1 R2 R3 R4 R5 R6 R7]. rewrite step_send.
  constructor; unfold live_count in *; simpl.
  - intros wt Hwt. rewrite retried_count_snoc by done. by apply R1.
  - intros c. rewrite retried_count_snoc by done. apply R2.
  - intros cfg' c [Hin|Hin]%elem_of_app Hre; rewrite retried_count_snoc by done.
    + by eapply R3.
    + apply list_elem_of_singleton in Hin. injection Hin as Hcfg Hcaller. subst c.
      by apply R5.
  - intros call. rewrite count_app, count_cons, count_nil. simpl.
    case_bool_decide as Hc.
    + subst call. destruct (R5 (next_call w)) as [Hl _]; [lia|]. lia.
    + specialize (R4 call). lia.
  - intros call Hc. rewrite count_app, count_cons, count_nil. simpl.
    rewrite retried_count_snoc by done.
    destruct (R5 call) as [Hl Hr]; [lia|].
    rewrite bool_decide_eq_false_2 by lia. split; [lia | done].
  - done.
  - intros n. rewrite retried_count_snoc by done. apply R7.
Qed.

Lemma retry_once_add_guard cfg next (w : World number) :
  retry_once w -> retry_once (set_pending (λ l, l ++ [ViaApi cfg (Guard next)]) w).
Proof.
  intros [R1 R2 R3 R4 R5 R6 R7].
  constructor; unfold live_count in *; simpl; try done.
  - intros cfg' c [Hin|Hin]%elem_of_app Hre; [by eapply R3|].
    apply list_elem_of_singleton in Hin. injection Hin as Hcfg Hcaller. subst c. apply R7.
  - intros call. rewrite count_app, count_cons, count_nil. simpl.
    specialize (R4 call). lia.
  - intros call Hc. rewrite count_app, count_cons, count_nil. simpl.
    destruct (R5 call Hc). split; [lia | done].
Qed.

Lemma retry_once_suspend i cfg call p (w w1 : World number) :
  pending w !! i = Some (ViaApi cfg (App call)) ->
  _retry cfg = false ->
  api.refreshAccessToken (set_pending (delete i) w) = (inr p, w1) ->
  retry_once w ->
  retry_once (set_waiters (λ l, l ++ [mkWaiter p (set_retry true cfg) (App call)]) w1).
Proof.
  intros Hi Hre Hp [R1 R2 R3 R4 R5 R6 R7].
  assert (Hzero : retried_count (App call) (log w) = 0%nat).
  { eapply R3; [|done]. eapply list_elem_of_lookup_2; eauto. }
  assert (Hshape :
    next_call w1 = next_call w ∧ waiters w1 = waiters w ∧
    (∀ c, retried_count c (log w1) = retried_count c (log w)) ∧
    (∀ c, EventLoop.count (pending_for c) (pending w1) =
          EventLoop.count (pending_for c) (delete i (pending w))) ∧
    (∀ cfg' c, ViaApi cfg' c ∈ pending w1 -> ViaApi cfg' c ∈ pending w)).
  { destruct (refreshAccessToken_cases (set_pending (delete i) w))
      as [(p' & Hr & Hp')|(Hr & Hp')]; rewrite Hp' in Hp; injection Hp as <- <-; simpl.
    - repeat split; try done. intros cfg' c Hin. by eapply elem_of_delete.
    - repeat split; try done.
      + intros c. by rewrite retried_count_snoc.
      + intros c. rewrite count_app, count_cons, count_nil. simpl. lia.
      + intros cfg' c [Hin|Hin]%elem_of_app; [by eapply elem_of_delete|].
        by apply list_elem_of_singleton in Hin. }
  destruct Hshape as (Hnc & Hw & Hlog & Hcount & Hmem).
  constructor; unfold live_count in *; simpl; rewrite ?Hnc, ?Hw.
  - intros wt [Hin|Hin]%elem_of_app; rewrite Hlog; [by apply R1|].
    apply list_elem_of_singleton in Hin as ->. done.
  - intros c. rewrite Hlog. apply R2.
  - intros cfg' c Hin Hre'. rewrite Hlog. eapply R3; eauto.
  - intros call'. rewrite Hcount, count_app, count_cons, count_nil. simpl.
    specialize (R4 call'). rewrite (count_delete _ _ _ _ Hi) in R4. simpl in R4. lia.
  - intros call' Hc. rewrite Hcount, count_app, count_cons, count_nil, Hlog. simpl.
    destruct (R5 call' Hc) as [Hl Hr]. rewrite (count_delete _ _ _ _ Hi) in Hl.
    simpl in Hl. split; [lia | done].
  - intros wt [Hin|Hin]%elem_of_app; [by apply R6|].
    apply list_elem_of_singleton in Hin as ->. simpl. eauto.
  - intros n. rewrite Hlog. apply R7.
Qed.

(** One handler resumes: the accounting holds with the handlers still
    to resume taken as the suspended ones. *)
Lemma retry_once_resume_waiter r wt rest (w : World number) :
  retry_once (set_waiters (λ _, wt :: rest) w) ->
  retry_once (set_waiters (λ _, rest) (snd (EventLoop.resume_waiter r wt w))).
Proof.
  intros [R1 R2 R3 R4 R5 R6 R7]. unfold live_count in *. simpl in *.
  destruct (R1 wt) as [Hre Hzero]; [left|].
  destruct (R6 wt) as [call Hcall]; [left|].
  assert (Hothers : ∀ x, x ∈ rest -> waiting_for x ≠ App call).
  { intros x Hx Heq. specialize (R4 call).
    rewrite count_cons, Hcall, caller_eqb_refl in R4.
    apply list_elem_of_split in Hx as (l1 & l2 & ->).
    rewrite count_app, count_cons, Heq, caller_eqb_refl in R4. lia. }
  assert (Hnone : ∀ cfg, ViaApi cfg (App call) ∉ pending w).
  { intros cfg Hin. specialize (R4 call).
    rewrite count_cons, Hcall, caller_eqb_refl in R4.
    apply list_elem_of_split in Hin as (l1 & l2 & Hl).
    rewrite Hl, count_app, count_cons in R4. simpl in R4.
    rewrite bool_decide_eq_true_2 in R4 by done. lia. }
  destruct (resume_waiter_cases r wt w) as [(cfg & Hcfg & ->)|(e & w1 & Hn & ->)].
  - rewrite Hcall. simpl.
    assert (Hcount : ∀ c, retried_count c (log w ++ [Retried (App call) (sent_config cfg w)]) =
              (retried_count c (log w) + (if caller_eqb (App call) c then 1 else 0))%nat).
    { intros c. rewrite retried_count_app. simpl. lia. }
    constructor; unfold live_count; simpl.
    + intros x Hx. destruct (R1 x) as [Hx1 Hx2]; [by right|]. split; [done|].
      rewrite Hcount, Hx2, caller_eqb_neq; [done|]. intros Heq. by eapply Hothers.
    + intros c. rewrite Hcount. destruct (caller_eqb (App call) c) eqn:Hc.
      * apply caller_eqb_eq in Hc as <-. rewrite Hcall in Hzero. lia.
      * specialize (R2 c). lia.
    + intros cfg' c [Hin|Hin]%elem_of_app Hre'.
      * rewrite Hcount, (R3 _ _ Hin Hre'), caller_eqb_neq; [done|].
        intros <-. by eapply Hnone.
      * apply list_elem_of_singleton in Hin. injection Hin as Hc1 Hc2. subst cfg'.
        rewrite sent_config_retry, Hcfg, Hre in Hre'. done.
    + intros call'. rewrite count_app, count_cons, count_nil. simpl.
      specialize (R4 call'). rewrite count_cons, Hcall in R4. simpl in R4. lia.
    + intros call' Hc. rewrite count_app, count_cons, count_nil, Hcount. simpl.
      destruct (R5 call' Hc) as [Hl Hr]. rewrite count_cons, Hcall in Hl. simpl in Hl.
      case_bool_decide; [lia|]. split; lia.
    + intros x Hx. apply R6. by right.
    + intros n. rewrite Hcount. simpl. rewrite R7. done.
  - destruct (deliver_net (waiting_for wt) (inl e) w1) as (w' & -> & Hn').
    simpl. net_fields Hn. net_fields Hn'.
    constructor; unfold live_count; simpl;
      rewrite ?Hnext_call0, ?Hpending0, ?Hlog0, ?Hnext_call, ?Hpending, ?Hlog; simpl.
    + intros x Hx. rewrite retried_count_snoc by done. apply R1. by right.
    + intros c. rewrite retried_count_snoc by done. apply R2.
    + intros cfg' c Hin Hre'. rewrite retried_count_snoc by done. by eapply R3.
    + intros call'. specialize (R4 call'). rewrite count_cons in R4. lia.
    + intros call' Hc. rewrite retried_count_snoc by done.
      destruct (R5 call' Hc) as [Hl Hr]. rewrite count_cons in Hl. split; [lia | done].
    + intros x Hx. apply R6. by right.
    + intros n. rewrite retried_count_snoc by done. apply R7.
Qed.

Lemma resume_all_cons r wt rest (w : World number) :
  EventLoop.resume_all r (wt :: rest) w =
  EventLoop.resume_all r rest (snd (EventLoop.resume_waiter r wt w)).
Proof.
  simpl. js_unfold.
  destruct (resume_waiter_cases r wt w) as [(cfg & _ & ->)|(e & w1 & _ & ->)]; [done|].
  by destruct (deliver_net (waiting_for wt) (inl e) w1) as (w' & -> & _).
Qed.

Lemma retry_once_resume_all r wts (w : World number) :
  retry_once (set_waiters (λ _, wts) w) ->
  retry_once (set_waiters (λ _, []) (snd (EventLoop.resume_all r wts w))).
Proof.
  revert w. induction wts as [|wt rest IH]; intros w Hinv; [done|].
  rewrite resume_all_cons. apply IH. by apply retry_once_resume_waiter.
Qed.

Lemma filter_all_awaited p (l : list (Waiter number)) :
  (∀ wt, wt ∈ l -> awaited wt = p) ->
  filter (λ wt, awaited wt = p) l = l ∧ filter (λ wt, awaited wt ≠ p) l = [].
Proof.
  induction l as [|wt l IH]; intros Hall; [done|].
  rewrite !filter_cons.
  destruct IH as [-> ->]; [intros; apply Hall; by right|].
  rewrite (Hall wt); [|left].
  rewrite decide_True by done. by rewrite decide_False by (intros ?; done).
Qed.

Lemma refresh_post_promise i p (w : World number) :
  pending w !! i = Some (RefreshPost p) -> single_flight w -> refreshing w = Some p.
Proof.
  intros Hi [H1 _ _ _].
  assert (Hin : RefreshPost p ∈ filter (λ e, EventLoop.is_refresh_operation e = true) (pending w)).
  { apply list_elem_of_filter. split; [done|]. eapply list_elem_of_lookup_2; eauto. }
  rewrite H1 in Hin. destruct (refreshing w) as [p'|].
  - apply list_elem_of_singleton in Hin. congruence.
  - by apply elem_of_nil in Hin.
Qed.

Lemma waiters_await_refreshing p (w : World number) :
  single_flight w -> refreshing w = Some p -> ∀ wt, wt ∈ waiters w -> awaited wt = p.
Proof.
  intros [_ H2 _ _] Hr wt Hin. destruct (H2 wt Hin) as [Hwt _]. congruence.
Qed.

Lemma retry_once_refresh_settles i p r (w : World number) :
  pending w !! i = Some (RefreshPost p) ->
  single_flight w -> retry_once w ->
  retry_once (snd (EventLoop.refresh_settles p r (set_pending (delete i) w))).
Proof.
  intros Hi Hsf Hro.
  pose proof (refresh_post_promise _ _ _ Hi Hsf) as Hr.
  pose proof (waiters_await_refreshing _ _ Hsf Hr) as Hall.
  destruct (filter_all_awaited p (waiters w) Hall) as [Hyes Hno].
  unfold EventLoop.refresh_settles, api.refresh_finally. js_unfold.
  pose proof (browser_only_attempt _ (browser_only_refresh_body r)
                (set_pending (delete i) w)) as Hb.
  unfold EventLoop.attempt in *.
  destruct (api.refresh_body r _) as [out w1]; simpl in *.
  net_fields Hb. rewrite Hwaiters, Hyes.
  match goal with |- context [@EventLoop.resume_all _ _ _ ?r ?wts ?w0] =>
    pose proof (retry_once_resume_all r wts w0) as Hloop;
    destruct (resume_all_shape r wts w0) as (w' & extra & Hres & _ & Hw' & _)
  end.
  { intros wt Hin. destruct Hsf as [_ H2 _ _]. by destruct (H2 wt Hin). }
  rewrite Hres in *. simpl in *. rewrite Hwaiters, Hno in Hw'.
  eapply retry_once_ext; [| | | |apply Hloop]; simpl; try done.
  eapply retry_once_ext; [| | | |eapply (retry_once_remove i), Hro]; simpl; eauto.
Qed.

Lemma retry_once_step (w : World number) ev :
  single_flight w -> retry_once w -> retry_once (EventLoop.step w ev).
Proof.
  intros Hsf Hro. destruct ev as [cfg|i rep|pathname].
  - by apply retry_once_send.
  - destruct (pending w !! i) as [[cfg c|p]|] eqn:Hi.
    + rewrite (step_reply_api _ _ _ _ _ Hi).
      destruct (api_settles_cases cfg c rep (set_pending (delete i) w))
        as [(x & w' & -> & Hn)|(Hincl & Hre & p & w1 & Hp & ->)]; simpl.
      * eapply retry_once_net; [exact Hn|].
        apply retry_once_log; [done|]. by eapply retry_once_remove.
      * destruct c as [call|n].
        -- eapply retry_once_suspend; eauto.
        -- destruct Hsf as [_ _ _ H4].
           rewrite (H4 cfg n) in Hincl; [done|].
           eapply list_elem_of_lookup_2; eauto.
    + rewrite (step_reply_refresh _ _ _ _ Hi).
      by apply retry_once_refresh_settles.
    + by rewrite step_reply_none.
  - destruct (step_guard pathname w) as [Hn|[next ->]].
    + eapply retry_once_net; eauto.
    + by apply retry_once_add_guard.
Qed.

Lemma reachable_retry_once win (w : World number) :
  EventLoop.reachable win w -> retry_once w.
Proof.
  induction 1 as [|w ev Hreach IH]; [apply retry_once_init|].
  apply retry_once_step; [|done]. by eapply reachable_single_flight.
Qed.

(** *** A successful refresh *)
Lemma sent_config_window cfg (w w' : World number) :
  window w' = window w -> sent_config cfg w' = sent_config cfg w.
Proof. intros Hw. unfold sent_config, token_of. by rewrite Hw. Qed.

Lemma resume_waiter_success t wt (w : World number) :
  EventLoop.resume_waiter (inr (VStr t)) wt w = (inr (), reissue t w wt).
Proof.
  unfold EventLoop.resume_waiter, EventLoop.attempt, api.onRejected_resume. js_unfold.
  simpl. by rewrite api_request_eq.
Qed.

Lemma resume_all_success t wts (w : World number) :
  EventLoop.resume_all (inr (VStr t)) wts w = (inr (), foldl (reissue t) w wts).
Proof.
  revert w. induction wts as [|wt rest IH]; intros w; [done|].
  rewrite resume_all_cons, resume_waiter_success. apply IH.
Qed.

Lemma reissue_all_fields t wts (w : World number) :
  let w' := foldl (reissue t) w wts in
  window w' = window w ∧ refreshing w' = refreshing w ∧ waiters w' = waiters w ∧
  pending w' = pending w ++
    ((λ wt, ViaApi (sent_config (with_bearer t (original wt)) w) (waiting_for wt)) <$> wts) ∧
  log w' = log w ++
    ((λ wt, Retried (waiting_for wt) (sent_config (with_bearer t (original wt)) w)) <$> wts).
Proof.
  revert w. induction wts as [|wt rest IH]; intros w; simpl.
  - by rewrite !app_nil_r.
  - destruct (IH (reissue t w wt)) as (Hwin & Hr & Hw & Hp & Hl).
    simpl in *. rewrite Hwin, Hr, Hw, Hp, Hl, <- !app_assoc. simpl.
    repeat split.
Qed.

Lemma refresh_body_success res t (w : World number) :
  (200 ≤ status res < 300)%Z ->
  api.extractAccessToken (resp_data res) = VStr t -> t ≠ [] ->
  ∃ w1, api.refresh_body (EventLoop.axios_settle api.refresh_post (EventLoop.HttpReply res)) w
          = (inr (VStr t), w1) ∧
        net w1 = net w ∧
        (window w = None -> w1 = w) ∧
        (window w ≠ None -> token_of w1 = Some t).
Proof.
  intros Hs Ht Hne. unfold api.refresh_body, EventLoop.axios_settle.
  rewrite bool_decide_eq_true_2 by done. js_unfold. simpl. rewrite Ht. simpl.
  destruct t as [|c t]; [done|]. simpl.
  unfold authStore.setAccessToken. js_unfold. simpl.
  destruct (window w) as [win|] eqn:Hwin; simpl.
  - eexists. split; [done|]. split; [done|]. split; [done|].
    intros _. unfold token_of. simpl. rewrite Hwin. simpl. apply lookup_insert_eq.
  - eexists. split; [done|]. split; [done|]. split; [done|]. done.
Qed.

Lemma with_bearer_header t (cfg : Config number) :
  headers (with_bearer t cfg) ≫= (.!! api.Authorization) = Some (api.Bearer t).
Proof. unfold with_bearer. simpl. apply lookup_insert_eq. Qed.

Lemma sent_with_bearer_header t cfg (w : World number) :
  token_of w = Some t ∨ token_of w = None ->
  headers (sent_config (with_bearer t cfg) w) ≫= (.!! api.Authorization) =
  Some (api.Bearer t).
Proof.
  intros [Ht|Ht]; unfold sent_config; rewrite Ht; simpl.
  - destruct t; simpl; apply lookup_insert_eq.
  - apply lookup_insert_eq.
Qed.

(** *** A failed refresh *)
Opaque lit.

Lemma onRejected_resume_failure original e win target (w : World number) :
  window w = Some win -> login_url win = Some target ->
  ∃ w1 win1,
    api.onRejected_resume original (inl e) w = (inl e, w1) ∧
    net w1 = net w ∧ router_replaced w1 = router_replaced w ∧
    window w1 = Some win1 ∧
    location_pathname win1 = location_pathname win ∧
    location_search win1 = location_search win ∧
    signed_out target win1.
Proof.
  intros Hwin Hurl. unfold login_url in Hurl.
  destruct (encodeURIComponent _) as [enc|] eqn:Henc; [|done].
  injection Hurl as <-.
  unfold api.onRejected_resume, authStore.clearAll, api.redirect_to_login. js_unfold.
  simpl. rewrite Hwin. simpl. rewrite Henc. simpl.
  eexists _, _. split; [reflexivity|]. split; [done|]. split; [done|].
  split; [simpl; rewrite Hwin; reflexivity|]. split; [done|]. split; [done|].
  unfold signed_out. simpl. split; [|split; [|done]].
  - rewrite lookup_delete_ne by done. apply lookup_delete_eq.
  - apply lookup_delete_eq.
Qed.

Lemma resume_all_failure e target wts :
  ∀ (w : World number) win,
    window w = Some win -> login_url win = Some target ->
    (∀ wt, wt ∈ wts -> ∃ call, waiting_for wt = App call) ->
    ∃ w' win',
      EventLoop.resume_all (inl e) wts w = (inr (), w') ∧
      window w' = Some win' ∧ login_url win' = Some target ∧
      refreshing w' = refreshing w ∧ waiters w' = waiters w ∧
      pending w' = pending w ∧
      log w' = log w ++ ((λ wt, Delivered (waiting_for wt) (inl e)) <$> wts) ∧
      (signed_out target win ∨ wts ≠ [] -> signed_out target win').
Proof.
  induction wts as [|wt rest IH]; intros w win Hwin Hurl Happ.
  - exists w, win. simpl. rewrite app_nil_r. repeat (split; [done|]).
    intros [?|?]; done.
  - rewrite resume_all_cons.
    destruct (Happ wt) as [call Hcall]; [left|].
    unfold EventLoop.resume_waiter, EventLoop.attempt. js_unfold.
    destruct (onRejected_resume_failure (original wt) e win target w Hwin Hurl)
      as (w1 & win1 & -> & Hn & _ & Hwin1 & Hpn & Hsr & Hout).
    simpl. rewrite Hcall, deliver_app. simpl.
    destruct (IH (add_log (Delivered (App call) (inl e)) w1) win1)
      as (w' & win' & -> & Hwin' & Hurl' & Hr & Hw & Hp & Hl & Hso).
    { done. }
    { unfold login_url in *. by rewrite Hpn, Hsr. }
    { intros; apply Happ; by right. }
    net_fields Hn. simpl in *.
    exists w', win'. split; [done|]. split; [done|]. split; [done|].
    split; [congruence|]. split; [congruence|]. split; [congruence|].
    split; [rewrite Hl, Hlog, <- app_assoc; done|].
    intros _. apply Hso. by left.
Qed.

Lemma refresh_body_failure rep e (w : World number) :
  refresh_failure rep = Some e ->
  api.refresh_body (EventLoop.axios_settle api.refresh_post rep) w = (inl e, w).
Proof.
  unfold refresh_failure, api.refresh_body. js_unfold.
  destruct (EventLoop.axios_settle _ rep) as [e'|res]; simpl.
  - by intros [= ->].
  - destruct (ToBoolean _); [done|]. by intros [= <-].
Qed.

(** *** The answer to the refresh POST *)
Lemma refresh_step_success win (w : World number) i p res t :
  EventLoop.reachable win w ->
  pending w !! i = Some (RefreshPost p) ->
  (200 ≤ status res < 300)%Z ->
  api.extractAccessToken (resp_data res) = VStr t -> t ≠ [] ->
  ∃ w1,
    api.refresh_body (EventLoop.axios_settle api.refresh_post (EventLoop.HttpReply res))
      (set_pending (delete i) w) = (inr (VStr t), w1) ∧
    (window w ≠ None -> token_of w1 = Some t) ∧
    (window w = None -> token_of w1 = None) ∧
    let w' := EventLoop.step w (EventLoop.Reply i (EventLoop.HttpReply res)) in
    window w' = window w1 ∧ refreshing w' = None ∧ waiters w' = [] ∧
    pending w' = delete i (pending w) ++
      ((λ wt, ViaApi (sent_config (with_bearer t (original wt)) w1) (waiting_for wt))
         <$> waiters w) ∧
    log w' = log w ++
      ((λ wt, Retried (waiting_for wt) (sent_config (with_bearer t (original wt)) w1))
         <$> waiters w).
Proof.
  intros Hreach Hi Hs Ht Hne.
  pose proof (reachable_single_flight _ _ Hreach) as Hsf.
  pose proof (refresh_post_promise _ _ _ Hi Hsf) as Hr.
  pose proof (waiters_await_refreshing _ _ Hsf Hr) as Hall.
  destruct (filter_all_awaited p (waiters w) Hall) as [Hyes Hno].
  destruct (refresh_body_success res t (set_pending (delete i) w) Hs Ht Hne)
    as (w1 & Hbody & Hn & Hnowin & Htok).
  exists w1. split; [done|]. split; [done|].
  split.
  { intros Hw. rewrite Hnowin by done. unfold token_of. simpl. by rewrite Hw. }
  rewrite (step_reply_refresh _ _ _ _ Hi).
  unfold EventLoop.refresh_settles, EventLoop.attempt, api.refresh_finally. js_unfold.
  rewrite Hbody. simpl. net_fields Hn.
  rewrite Hwaiters, Hyes, resume_all_success. simpl.
  match goal with |- context [foldl (reissue t) ?w0 (waiters w)] =>
    destruct (reissue_all_fields t (waiters w) w0) as (Hwin' & Hr' & Hw' & Hp' & Hl')
  end.
  simpl in *. rewrite Hwin', Hr', Hw', Hp', Hl', Hwaiters, Hno, Hpending, Hlog.
  repeat split.
Qed.

Lemma refresh_step_failure win (w : World number) i p rep e browser target :
  EventLoop.reachable win w ->
  pending w !! i = Some (RefreshPost p) ->
  refresh_failure rep = Some e ->
  window w = Some browser -> login_url browser = Some target ->
  let w' := EventLoop.step w (EventLoop.Reply i rep) in
  waiters w ≠ [] ∧
  refreshing w' = None ∧ waiters w' = [] ∧ pending w' = delete i (pending w) ∧
  log w' = log w ++ ((λ wt, Delivered (waiting_for wt) (inl e)) <$> waiters w) ∧
  ∃ browser', window w' = Some browser' ∧ signed_out target browser'.
Proof.
  intros Hreach Hi Hfail Hwin Hurl.
  pose proof (reachable_single_flight _ _ Hreach) as Hsf.
  pose proof (refresh_post_promise _ _ _ Hi Hsf) as Hr.
  pose proof (waiters_await_refreshing _ _ Hsf Hr) as Hall.
  destruct (filter_all_awaited p (waiters w) Hall) as [Hyes Hno].
  assert (Hne : waiters w ≠ []).
  { destruct Hsf as [_ _ H3 _]. apply H3. by rewrite Hr. }
  split; [done|].
  rewrite (step_reply_refresh _ _ _ _ Hi).
  unfold EventLoop.refresh_settles, EventLoop.attempt, api.refresh_finally. js_unfold.
  rewrite (refresh_body_failure _ _ _ Hfail). simpl. rewrite Hyes.
  match goal with |- context [@EventLoop.resume_all _ _ _ _ _ ?w0] =>
    destruct (resume_all_failure e target (waiters w) w0 browser)
      as (w' & browser' & -> & Hwin' & _ & Hr' & Hw' & Hp' & Hl' & Hso)
  end; [done | done | |].
  { intros wt Hin. destruct Hsf as [_ H2 _ _]. by destruct (H2 wt Hin). }
  simpl in *. rewrite Hr', Hw', Hp', Hl', Hno.
  repeat (split; [done|]). exists browser'. split; [done|]. apply Hso. by right.
Qed.

(** C1 (as the code has it): among the refresh operations started by
    [refreshAccessToken], at most one is in flight at any time, and it
    is the one held by [refreshing]; a call that finds [refreshing] set
    returns that promise and sends nothing, only a call that finds it
    empty sends the POST; every suspended handler awaits the promise
    held by [refreshing]; and when the refresh succeeds every suspended
    handler re-issues its request once, with the new token as bearer. *)
Theorem refresh_single_flight win (w : World number) :
  EventLoop.reachable win w ->
  (EventLoop.count EventLoop.is_refresh_operation (pending w) ≤ 1)%nat ∧
  (∀ p, RefreshPost p ∈ pending w ↔ refreshing w = Some p) ∧
  (∀ wt, wt ∈ waiters w -> refreshing w = Some (awaited wt)) ∧
  (∀ p, refreshing w = Some p -> api.refreshAccessToken w = (inr p, w)) ∧
  (refreshing w = None ->
     api.refreshAccessToken w = (inr (next_promise w), start_refresh w) ∧
     EventLoop.count EventLoop.is_refresh_operation (pending (start_refresh w)) = 1%nat) ∧
  (∀ i p res t,
     pending w !! i = Some (RefreshPost p) ->
     (200 ≤ status res < 300)%Z ->
     api.extractAccessToken (resp_data res) = VStr t -> t ≠ [] ->
     let w' := EventLoop.step w (EventLoop.Reply i (EventLoop.HttpReply res)) in
     refreshing w' = None ∧ waiters w' = [] ∧
     ∃ sent : Waiter number -> Config number,
       pending w' = delete i (pending w) ++
                      ((λ wt, ViaApi (sent wt) (waiting_for wt)) <$> waiters w) ∧
       log w' = log w ++ ((λ wt, Retried (waiting_for wt) (sent wt)) <$> waiters w) ∧
       ∀ wt, headers (sent wt) ≫= (.!! api.Authorization) = Some (api.Bearer t) ∧
             url (sent wt) = url (original wt)).
Proof.
  intros Hreach.
  pose proof (reachable_single_flight _ _ Hreach) as Hsf.
  destruct Hsf as [H1 H2 H3 H4].
  split; [|split; [|split; [|split; [|split]]]].
  - unfold EventLoop.count. rewrite H1. destruct (refreshing w); simpl; lia.
  - intros p. split.
    + intros Hin.
      assert (Hf : RefreshPost p ∈
                filter (λ e, EventLoop.is_refresh_operation e = true) (pending w))
        by (apply list_elem_of_filter; done).
      rewrite H1 in Hf. destruct (refreshing w) as [p'|].
      * apply list_elem_of_singleton in Hf. congruence.
      * by apply elem_of_nil in Hf.
    + intros Hr. rewrite Hr in H1.
      assert (Hf : RefreshPost p ∈
                filter (λ e, EventLoop.is_refresh_operation e = true) (pending w))
        by (rewrite H1; left).
      by apply list_elem_of_filter in Hf as [_ ?].
  - intros wt Hin. by destruct (H2 wt Hin).
  - intros p Hr. destruct (refreshAccessToken_cases w) as [(p' & Hr' & ->)|(Hr' & _)];
      congruence.
  - intros Hr. destruct (refreshAccessToken_cases w) as [(p' & Hr' & _)|(_ & ->)];
      [congruence|]. split; [done|].
    unfold EventLoop.count. simpl. rewrite filter_app, H1, Hr. done.
  - intros i p res t Hi Hs Ht Hne.
    destruct (refresh_step_success _ _ _ _ _ _ Hreach Hi Hs Ht Hne)
      as (w1 & _ & Htok & Hnotok & _ & Hr' & Hw' & Hp' & Hl').
    split; [done|]. split; [done|].
    exists (λ wt, sent_config (with_bearer t (original wt)) w1).
    split; [done|]. split; [done|].
    intros wt. split.
    + apply sent_with_bearer_header.
      destruct (window w) eqn:Hwin; [left; by apply Htok | right; by apply Hnotok].
    + by rewrite sent_config_url.
Qed.

(** C7: when the refresh succeeds with the token [t], every request
    re-issued by a suspended handler carries [Authorization: Bearer t];
    in the browser the body of the refresh promise has stored [t] as the
    access token, the re-issued requests leave through the request
    interceptor in that state, and [t] is still the stored token when
    the task ends. *)
Theorem retry_carries_new_token win (w : World number) i p res t :
  EventLoop.reachable win w ->
  pending w !! i = Some (RefreshPost p) ->
  (200 ≤ status res < 300)%Z ->
  api.extractAccessToken (resp_data res) = VStr t -> t ≠ [] ->
  let w' := EventLoop.step w (EventLoop.Reply i (EventLoop.HttpReply res)) in
  ∃ w1,
    api.refresh_body (EventLoop.axios_settle api.refresh_post (EventLoop.HttpReply res))
      (set_pending (delete i) w) = (inr (VStr t), w1) ∧
    (window w ≠ None -> token_of w1 = Some t ∧ token_of w' = Some t) ∧
    ∀ wt, wt ∈ waiters w ->
      let sent := sent_config (with_bearer t (original wt)) w1 in
      ViaApi sent (waiting_for wt) ∈ pending w' ∧
      Retried (waiting_for wt) sent ∈ log w' ∧
      headers sent ≫= (.!! api.Authorization) = Some (api.Bearer t).
Proof.
  intros Hreach Hi Hs Ht Hne.
  destruct (refresh_step_success _ _ _ _ _ _ Hreach Hi Hs Ht Hne)
    as (w1 & Hbody & Htok & Hnotok & Hwin' & Hr' & Hw' & Hp' & Hl').
  exists w1. split; [done|]. split.
  - intros Hw. split; [by apply Htok|].
    unfold token_of. rewrite Hwin'. by apply Htok.
  - intros wt Hin. split; [|split].
    + rewrite Hp'. apply elem_of_app. right.
      apply (list_elem_of_fmap_2
               (λ wt, ViaApi (sent_config (with_bearer t (original wt)) w1) (waiting_for wt))).
      done.
    + rewrite Hl'. apply elem_of_app. right.
      apply (list_elem_of_fmap_2
               (λ wt, Retried (waiting_for wt) (sent_config (with_bearer t (original wt)) w1))).
      done.
    + apply sent_with_bearer_header.
      destruct (window w) eqn:Hwin; [left; by apply Htok | right; by apply Hnotok].
Qed.

(** C2: a request is re-issued at most once.  The handler that goes on
    to refresh has marked the configuration [_retry]; the mark is still
    there on the request that is re-issued; a 401 whose configuration
    carries the mark is rejected with the same error, without a refresh
    and without a new request; and in every reachable state no caller
    has had its request re-issued more than once. *)
Theorem retried_at_most_once :
  (∀ err (w w' : World number) p marked,
      api.onRejected err w = (inr (p, marked), w') -> _retry marked = true) ∧
  (∀ marked r (w w' : World number) cfg,
      api.onRejected_resume marked r w = (inr cfg, w') ->
      _retry (sent_config cfg w') = _retry marked) ∧
  (∀ err original (w : World number),
      config err = Some original -> _retry original = true ->
      api.onRejected err w = (inl (ThrownAxios err), w)) ∧
  (∀ (w : World number) i cfg c res,
      pending w !! i = Some (ViaApi cfg c) ->
      _retry cfg = true -> status res = 401%Z ->
      ∃ w', net w' = net (add_log (Delivered c
              (inl (ThrownAxios (mkAxiosError (Some res) (Some cfg)))))
              (set_pending (delete i) w)) ∧
            EventLoop.step w (EventLoop.Reply i (EventLoop.HttpReply res)) = w') ∧
  (∀ win (w : World number) c,
      EventLoop.reachable win w -> (retried_count c (log w) ≤ 1)%nat).
Proof.
  split; [|split; [|split; [|split]]].
  - intros err w w' p marked Hrej.
    destruct (onRejected_cases err w)
      as [Hc|(original & p' & w1 & _ & _ & _ & _ & _ & Hc)]; rewrite Hc in Hrej.
    + done.
    + by injection Hrej as _ <- _.
  - intros marked r w w' cfg Hres. rewrite sent_config_retry.
    destruct (onRejected_resume_cases marked r w)
      as [(tok & s & _ & _ & Hc)|(e & w1 & Hc & _)]; rewrite Hc in Hres.
    + by injection Hres as <- _.
    + done.
  - intros err original w Hc Hre.
    destruct (onRejected_cases err w)
      as [Hrej|(original' & p' & w1 & Hc' & _ & _ & Hre' & _)]; [done|].
    congruence.
  - intros w i cfg c res Hi Hre Hs.
    rewrite (step_reply_api _ _ _ _ _ Hi).
    unfold EventLoop.api_settles, EventLoop.axios_settle, EventLoop.attempt.
    rewrite bool_decide_eq_false_2 by lia. js_unfold.
    destruct (onRejected_cases (mkAxiosError (Some res) (Some cfg)) (set_pending (delete i) w))
      as [->|(original' & p' & w1 & Hc' & _ & _ & Hre' & _)].
    + simpl.
      destruct (deliver_net c (inl (ThrownAxios (mkAxiosError (Some res) (Some cfg))))
                  (set_pending (delete i) w)) as (w' & -> & Hn).
      exists w'. done.
    + simpl in Hc'. injection Hc' as <-. congruence.
  - intros win w c Hreach.
    by destruct (reachable_retry_once _ _ Hreach) as [_ R2 _ _ _ _ _].
Qed.

(** C3: the refresh POST fails (no answer, an answer outside 200..299,
    or an answer without a token) while handlers await the promise, in a
    browser whose location can be encoded.  Then every handler that
    awaited the promise rejects to its caller with that failure, no
    request is re-issued, the stored access token and the stored user
    record are gone, and the browser has been sent to
    [/login?next=] followed by the encoded location (["/admin"] when
    the location is empty). *)
Theorem refresh_failure_signs_out win (w : World number) i p rep e browser target :
  EventLoop.reachable win w ->
  pending w !! i = Some (RefreshPost p) ->
  refresh_failure rep = Some e ->
  window w = Some browser ->
  login_url browser = Some target ->
  let w' := EventLoop.step w (EventLoop.Reply i rep) in
  waiters w ≠ [] ∧
  (∀ wt, wt ∈ waiters w -> awaited wt = p ∧
                           Delivered (waiting_for wt) (inl e) ∈ log w') ∧
  pending w' = delete i (pending w) ∧ waiters w' = [] ∧ refreshing w' = None ∧
  token_of w' = None ∧ me_of w' = None ∧
  (window w' ≫= location_href) = Some target.
Proof.
  intros Hreach Hi Hfail Hwin Hurl.
  destruct (refresh_step_failure _ _ _ _ _ _ _ _ Hreach Hi Hfail Hwin Hurl)
    as (Hne & Hr' & Hw' & Hp' & Hl' & browser' & Hwin' & Hat & Hme & Href).
  pose proof (reachable_single_flight _ _ Hreach) as Hsf.
  pose proof (refresh_post_promise _ _ _ Hi Hsf) as Hr.
  split; [done|]. split.
  { intros wt Hin. split; [by eapply waiters_await_refreshing|].
    rewrite Hl'. apply elem_of_app. right.
    by apply (list_elem_of_fmap_2 (λ wt, Delivered (waiting_for wt) (inl e))). }
  repeat (split; [done|]).
  unfold token_of, me_of. rewrite Hwin'. simpl. done.
Qed.
End ApiSystemFacts.
Transparent lit.

(** ** The idempotency keys of the mutations *)
Section IdempotencyHeaders.
Context `{JSNumber number} `{!JSONOps number} `{!PageBuiltins}.

Lemma key_of_idem_headers meth u (body : JSVal number) key :
  key_of (mkRequest meth u body (idem_headers key)) = Some key.
Proof. unfold key_of, idem_headers. simpl. apply lookup_singleton_eq. Qed.

(** C4 (as the code has it): each listed mutation, and each update that
    carries a payload, sends an [Idempotency-Key] that is a function of
    the entity id, the action name and, where there is one, the payload
    (flattened, or hashed); the category update keyed on an operation id
    is the exception: its key is the entity id followed by the
    identifier drawn from [crypto.randomUUID()] for that click. *)
Theorem mutations_carry_idempotency_key :
  (* the inbox *)
  (∀ id, key_of (InboxPage.approveSeller (number:=number) id) =
         Some (lit "admin-inbox:" ++ id ++ lit ":approve-seller")) ∧
  (∀ id reason, key_of (InboxPage.rejectSeller (number:=number) id reason) =
         Some (lit "admin-inbox:" ++ id ++ lit ":reject-seller")) ∧
  (∀ id txid receiptUrl, key_of (InboxPage.markPaid (number:=number) id txid receiptUrl) =
         Some (lit "admin-inbox:" ++ id ++ lit ":payout-paid")) ∧
  (∀ id reason, key_of (InboxPage.rejectPayout (number:=number) id reason) =
         Some (lit "admin-inbox:" ++ id ++ lit ":payout-reject")) ∧
  (* the orders *)
  (∀ id note action, key_of (OrderPages.details_decideM (number:=number) id note action) =
         Some (lit "admin-order:" ++ id ++ lit ":" ++ OrderPages.decision_name action)) ∧
  (∀ id action, key_of (OrderPages.list_decideM (number:=number) id action) =
         Some (lit "admin-order:" ++ id ++ lit ":" ++ OrderPages.decision_name action)) ∧
  (∀ id amount reason, key_of (OrderPages.details_refundM (number:=number) id amount reason) =
         Some (lit "admin-order:" ++ id ++ lit ":refund")) ∧
  (* creations *)
  (∀ newName r, CategoriesPage.createM newName = Some r ->
         key_of r = Some (lit "cat-create:" ++ toLowerCase (trim newName))) ∧
  (∀ p, key_of (ProductNewPage.createM p) =
         Some (lit "product-create:" ++ ProductNewPage.sku_or_name p ++ lit ":" ++
               default [] (ProductNewPage.categoryId p) ++ lit ":" ++
               join (lit ",") (ProductNewPage.categoryIds p) ++ lit ":" ++
               ProductNewPage.audience p)) ∧
  (∀ a, key_of (CouponPages.createM a) =
         Some (lit "admin-coupon-create:" ++ CouponPages.code a ++ lit ":" ++
               CouponPages.appliesTo a ++ lit ":" ++ CouponPages.type a ++ lit ":" ++
               NumberToString (CouponPages.value a) ++ lit ":" ++
               CouponPages.startsAtISO a ++ lit ":" ++
               default (lit "no-end") (CouponPages.endsAtISO a))) ∧
  (∀ id payload r, EditPages.createPromoM id payload = Some r ->
         ∃ flat, flatten payload = Some flat ∧
                 key_of r = Some (lit "admin-prod-promo-create:" ++ id ++ lit ":" ++ flat)) ∧
  (* updates with a payload *)
  (∀ id payload, key_of (EditPages.product_saveM id payload) =
         Some (lit "product-update:" ++ id ++ lit ":" ++
               base64url (btoa (sha256 (utf8_encode (JSON_stringify payload)))))) ∧
  (∀ id payload r, EditPages.coupon_saveM id payload = Some r ->
         ∃ flat, flatten payload = Some flat ∧
                 key_of r = Some (lit "admin-coupon-patch:" ++ id ++ lit ":" ++ flat)) ∧
  (∀ id promoId payload r, EditPages.patchPromoM id promoId payload = Some r ->
         ∃ flat, flatten payload = Some flat ∧
                 key_of r = Some (lit "admin-prod-promo-patch:" ++ id ++ lit ":" ++
                                  promoId ++ lit ":" ++ flat)) ∧
  (∀ id patch, key_of (CategoriesPage.patchM_by_content id patch) =
         Some (lit "cat-patch:" ++ id ++ lit ":" ++ JSON_stringify patch)) ∧
  (* the update keyed on an operation id *)
  (∀ id active e, key_of (fst (CategoriesPage.onToggle (number:=number) id active e)) =
         Some (lit "cat-patch:" ++ id ++ lit ":" ++ uuid_at e (drawn e))) ∧
  (∀ id name e, key_of (fst (CategoriesPage.onRename (number:=number) id name e)) =
         Some (lit "cat-patch:" ++ id ++ lit ":" ++ uuid_at e (drawn e))).
Proof.
  repeat split; intros; try (rewrite key_of_idem_headers; reflexivity).
  - unfold CategoriesPage.createM in *.
    destruct (trim newName) as [|c n]; [done|].
    match goal with Hx : Some _ = Some _ |- _ => injection Hx as <- end.
    rewrite key_of_idem_headers. reflexivity.
  - unfold EditPages.createPromoM, EditPages.stableIdem in *.
    destruct (flatten payload) as [flat|]; [|done]. simpl in *.
    match goal with Hx : Some _ = Some _ |- _ => injection Hx as <- end.
    exists flat. split; [done|]. rewrite key_of_idem_headers.
    rewrite <- ?app_assoc. reflexivity.
  - unfold EditPages.coupon_saveM, EditPages.stableIdemForPatch in *.
    destruct (flatten payload) as [flat|]; [|done]. simpl in *.
    match goal with Hx : Some _ = Some _ |- _ => injection Hx as <- end.
    exists flat. split; [done|]. rewrite key_of_idem_headers. reflexivity.
  - unfold EditPages.patchPromoM, EditPages.stableIdem in *.
    destruct (flatten payload) as [flat|]; [|done]. simpl in *.
    match goal with Hx : Some _ = Some _ |- _ => injection Hx as <- end.
    exists flat. split; [done|]. rewrite key_of_idem_headers.
    rewrite <- ?app_assoc. reflexivity.
Qed.
End IdempotencyHeaders.

(** ** The properties on concrete inputs *)
Section Examples.
Import Runtime.

Lemma reachable_run win (w : World Z) evs :
  EventLoop.reachable win w -> EventLoop.reachable win (EventLoop.run w evs).
Proof.
  revert w. induction evs as [|ev evs IH]; intros w Hw; [done|].
  simpl. apply IH. by constructor.
Qed.

Lemma sample_refreshing_reachable :
  EventLoop.reachable (Some sample_window) sample_refreshing.
Proof. apply reachable_run. constructor. Qed.

(** The guard's own POST to the refresh endpoint and the refresh started
    by the interceptor are in flight together: on a page loaded without
    a token, the guard runs, the application sends a request, and that
    request is answered 401. *)
Lemma two_refresh_posts_in_flight :
  ∃ w : World Z,
    EventLoop.reachable (Some sample_window) w ∧
    EventLoop.count EventLoop.is_refresh_post (pending w) = 2%nat.
Proof.
  exists (EventLoop.run (EventLoop.init (Some sample_window))
            [EventLoop.GuardRun (lit "/admin"); EventLoop.Send sample_get;
             EventLoop.Reply 1 unauthorized]).
  split; [apply reachable_run; constructor|].
  vm_compute. reflexivity.
Qed.

Lemma refresh_single_flight_witness :
  EventLoop.reachable (Some sample_window) sample_refreshing ∧
  (EventLoop.count EventLoop.is_refresh_operation (pending sample_refreshing) ≤ 1)%nat ∧
  (∀ wt, wt ∈ waiters sample_refreshing ->
         refreshing sample_refreshing = Some (awaited wt)).
Proof.
  split; [exact sample_refreshing_reachable|].
  destruct (refresh_single_flight _ _ sample_refreshing_reachable)
    as (Hone & _ & Hshared & _).
  split; [exact Hone | exact Hshared].
Defined.

Lemma retried_at_most_once_witness :
  let w := EventLoop.step sample_refreshing (EventLoop.Reply 0 refreshed) in
  EventLoop.reachable (Some sample_window) w ∧
  retried_count (App 0) (log w) = 1%nat ∧
  retried_count (App 1) (log w) = 1%nat ∧
  (∀ c, retried_count c (log w) ≤ 1)%nat.
Proof.
  intros w.
  assert (Hr : EventLoop.reachable (Some sample_window) w)
    by (constructor; exact sample_refreshing_reachable).
  split; [exact Hr|]. split; [vm_compute; reflexivity|]. split; [vm_compute; reflexivity|].
  destruct (retried_at_most_once (number:=Z)) as (_ & _ & _ & _ & Honce).
  intros c. exact (Honce _ _ c Hr).
Defined.

Lemma refresh_failure_signs_out_witness :
  let e := ThrownAxios (mkAxiosError None (Some api.refresh_post)) in
  let target := lit "/login?next=%2Fadmin%2Forders%3Fpage%3D2" in
  let w' := EventLoop.step sample_refreshing (EventLoop.Reply 0 EventLoop.NetworkFailure) in
  (pending sample_refreshing !! 0%nat = Some (RefreshPost 0) ∧
   refresh_failure EventLoop.NetworkFailure = Some e ∧
   window sample_refreshing = Some sample_window ∧
   login_url sample_window = Some target) ∧
  (waiters sample_refreshing ≠ [] ∧
   (∀ wt, wt ∈ waiters sample_refreshing ->
      awaited wt = 0%nat ∧ Delivered (waiting_for wt) (inl e) ∈ log w') ∧
   pending w' = delete 0%nat (pending sample_refreshing) ∧ waiters w' = [] ∧
   refreshing w' = None ∧ token_of w' = None ∧ me_of w' = None ∧
   (window w' ≫= location_href) = Some target).
Proof.
  intros e target w'.
  assert (H1 : pending sample_refreshing !! 0%nat = Some (RefreshPost 0))
    by (vm_compute; reflexivity).
  assert (H2 : refresh_failure EventLoop.NetworkFailure = Some e)
    by (vm_compute; reflexivity).
  assert (H3 : window sample_refreshing = Some sample_window)
    by (vm_compute; reflexivity).
  assert (H4 : login_url sample_window = Some target)
    by (vm_compute; reflexivity).
  split; [done|].
  exact (refresh_failure_signs_out _ _ _ _ _ _ _ _
           sample_refreshing_reachable H1 H2 H3 H4).
Defined.

Lemma retry_carries_new_token_witness :
  let res := mkResponse 200 (VObj [(lit "accessToken", VStr (lit "tok2"))]) in
  let w' := EventLoop.step sample_refreshing (EventLoop.Reply 0 refreshed) in
  (pending sample_refreshing !! 0%nat = Some (RefreshPost 0) ∧
   (200 ≤ status res < 300)%Z ∧
   api.extractAccessToken (resp_data res) = VStr (lit "tok2")) ∧
  token_of w' = Some (lit "tok2") ∧
  ∃ sent0 sent1,
    pending w' = [ViaApi sent0 (App 0); ViaApi sent1 (App 1)] ∧
    headers sent0 ≫= (.!! api.Authorization) = Some (lit "Bearer tok2") ∧
    headers sent1 ≫= (.!! api.Authorization) = Some (lit "Bearer tok2") ∧
    headers sent1 ≫= (.!! IdempotencyKey) = Some (lit "admin-order:o1:approve").
Proof.
  intros res w'.
  assert (H1 : pending sample_refreshing !! 0%nat = Some (RefreshPost 0))
    by (vm_compute; reflexivity).
  assert (H2 : (200 ≤ status res < 300)%Z) by (simpl; lia).
  assert (H3 : api.extractAccessToken (resp_data res) = VStr (lit "tok2"))
    by (vm_compute; reflexivity).
  assert (H4 : lit "tok2" ≠ []) by done.
  split; [done|].
  destruct (retry_carries_new_token _ _ _ _ _ _ sample_refreshing_reachable H1 H2 H3 H4)
    as (w1 & _ & Hstored & Hsent).
  split; [apply Hstored; by vm_compute|].
  eexists _, _. split; [vm_compute; reflexivity|].
  repeat split; vm_compute; reflexivity.
Defined.

(** Two requests answered 401 while no refresh is pending: one POST to the
    refresh endpoint, two handlers awaiting the same promise. *)
Example concurrent_401_share_one_refresh :
  pending sample_refreshing = [RefreshPost 0] ∧
  refreshing sample_refreshing = Some 0%nat ∧
  (awaited <$> waiters sample_refreshing) = [0%nat; 0%nat] ∧
  (waiting_for <$> waiters sample_refreshing) = [App 0; App 1].
Proof. repeat split; vm_compute; reflexivity. Qed.

Example login_url_of_empty_location :
  login_url (mkWindow ∅ [] [] None) = Some (lit "/login?next=%2Fadmin").
Proof. vm_compute. reflexivity. Qed.

Lemma refresh_triggered_iff_witness :
  let err := mkAxiosError (Some (mkResponse 401 (VObj []))) (Some sample_get) in
  let w := EventLoop.init (number:=Z) (Some sample_window) in
  (status <$> response err = Some 401%Z ∧
   ∃ original, config err = Some original ∧
     includes (default [] (url original)) endpoints.auth_refresh = false ∧
     _retry original = false) ∧
  api.onRejected err w = (inr (0%nat, set_retry true sample_get), start_refresh w).
Proof.
  intros err w.
  assert (Hc : status <$> response err = Some 401%Z ∧
               ∃ original, config err = Some original ∧
                 includes (default [] (url original)) endpoints.auth_refresh = false ∧
                 _retry original = false).
  { split; [done|]. exists sample_get. split; [done|]. split; vm_compute; reflexivity. }
  split; [exact Hc|].
  destruct (refresh_triggered_iff err w) as (_ & Hyes & _).
  destruct (Hyes Hc) as (original & p & Hcfg & Hp & ->).
  injection Hcfg as <-.
  assert (Hfirst : api.refreshAccessToken w = (inr 0%nat, start_refresh w))
    by (vm_compute; reflexivity).
  rewrite Hfirst in *. injection Hp as <-. reflexivity.
Defined.

(** Two clicks on the same switch of the same category: same address,
    same payload, different keys. *)
Lemma category_update_key_changes_between_clicks :
  let click1 := CategoriesPage.onToggle (number:=Z) (lit "c1") true sample_entropy in
  let click2 := CategoriesPage.onToggle (number:=Z) (lit "c1") true (snd click1) in
  req_url (fst click1) = req_url (fst click2) ∧
  req_body (fst click1) = req_body (fst click2) ∧
  key_of (fst click1) = Some (lit "cat-patch:c1:uuid-0") ∧
  key_of (fst click2) = Some (lit "cat-patch:c1:uuid-1") ∧
  key_of (fst click1) ≠ key_of (fst click2).
Proof.
  intros click1 click2.
  assert (K1 : key_of (fst click1) = Some (lit "cat-patch:c1:uuid-0"))
    by (vm_compute; reflexivity).
  assert (K2 : key_of (fst click2) = Some (lit "cat-patch:c1:uuid-1"))
    by (vm_compute; reflexivity).
  split; [reflexivity|]. split; [reflexivity|]. split; [exact K1|]. split; [exact K2|].
  rewrite K1, K2. vm_compute. intros [=].
Qed.

Lemma mutations_carry_idempotency_key_witness :
  ∃ r, CategoriesPage.createM (number:=Z) (lit "  Shampoo ") = Some r ∧
       key_of r = Some (lit "cat-create:shampoo").
Proof.
  destruct (CategoriesPage.createM (number:=Z) (lit "  Shampoo ")) as [r|] eqn:Hr;
    [|vm_compute in Hr; discriminate Hr].
  exists r. split; [reflexivity|].
  destruct (mutations_carry_idempotency_key (number:=Z))
    as (_ & _ & _ & _ & _ & _ & _ & Hcreate & _).
  rewrite (Hcreate _ _ Hr). vm_compute. reflexivity.
Defined.

(** A response body whose [error] is an object with an own [toString]
    property: [String(data.error)] throws. *)
Lemma apiErrorMessage_throws :
  apiError.apiErrorMessage (number:=Z)
    (VObj [(lit "response",
            VObj [(lit "data",
                   VObj [(lit "error", VObj [(lit "toString", VNum 1%Z)])])])])
    apiError.default_fallback = None.
Proof. vm_compute. reflexivity. Qed.

Lemma apiErrorMessage_precedence_witness :
  let err : JSVal Z :=
    VObj [(lit "message", VStr (lit "Network Error"));
          (lit "response", VObj [(lit "data", VObj [(lit "issues", VArr [])])])] in
  (∀ v, v ∈ apiError.candidates err -> ToBoolean v = true -> is_Some (ToString v)) ∧
  apiError.apiErrorMessage err apiError.default_fallback = Some (lit "Network Error").
Proof.
  intros err.
  assert (Hc : ∀ v, v ∈ apiError.candidates err -> ToBoolean v = true -> is_Some (ToString v)).
  { intros v Hv _. vm_compute in Hv.
    repeat (apply elem_of_cons in Hv as [->|Hv]); try (by eexists).
    by apply elem_of_nil in Hv. }
  split; [exact Hc|].
  destruct (apiErrorMessage_precedence err apiError.default_fallback)
    as (Heq & _ & _ & Htotal).
  destruct (Htotal Hc) as [s Hs]. rewrite Hs. rewrite Heq in Hs.
  vm_compute in Hs. symmetry. exact Hs.
Defined.

Lemma pickPrimaryImage_spec_witness :
  let img (n : string) p s :=
    productImages.mkProductImage (lit n) (lit "https://cdn/" ++ lit n) None p s None None in
  let h : gmap nat (list productImages.ProductImage) :=
    {[ 0%nat := [img "a" None (Some 2%Z); img "b" (Some true) (Some 5%Z);
                 img "c" (Some true) None] ]} in
  (∀ l, Some 0%nat = Some l -> is_Some (h !! l)) ∧
  fst (productImages.pickPrimaryImage (Some 0%nat) h) = Some (lit "https://cdn/c") ∧
  snd (productImages.pickPrimaryImage (Some 0%nat) h) !! 0%nat = h !! 0%nat.
Proof.
  intros img h.
  assert (Hwf : ∀ l, Some 0%nat = Some l -> is_Some (h !! l)).
  { intros l [= <-]. by eexists. }
  split; [exact Hwf|].
  destruct (pickPrimaryImage_spec (Some 0%nat) h Hwf) as (_ & _ & Hkept).
  split; [vm_compute; reflexivity|].
  apply Hkept. by eexists.
Defined.

Example stableKey_example :
  Idempotency.stableKey (number:=Z)
    [Idempotency.One (PStr (lit "  refund order "));
     Idempotency.Many [PNum 12345%Z; PNull; PBool true]]
  = lit "refund_order_:12345::true".
Proof. vm_compute. reflexivity. Qed.
End Examples.

(** * Further properties *)

(** ** The money and integer fields *)
Section MoneyInputFacts.
Context `{JSNumber number}.

Lemma is_sep_not_digit c : is_sep c = true -> is_digit c = false.
Proof.
  unfold is_sep, is_digit, full_stop, comma.
  intros [->%N.eqb_eq| ->%N.eqb_eq]%orb_true_iff; done.
Qed.

Lemma is_digit_not_ws c : is_digit c = true -> is_ws c = false.
Proof.
  unfold is_digit. intros [H1%N.leb_le H2%N.leb_le]%andb_true_iff.
  unfold is_ws.
  repeat (rewrite (proj2 (N.eqb_neq c _)) by lia).
  rewrite (proj2 (N.leb_gt _ c)) by lia. done.
Qed.

Lemma is_sep_digit c : is_digit c = true -> is_sep c = false.
Proof.
  intros Hd. destruct (is_sep c) eqn:Hs; [|done].
  apply is_sep_not_digit in Hs. congruence.
Qed.

Lemma is_sep_not_ws c : is_sep c = true -> is_ws c = false.
Proof.
  unfold is_sep, full_stop, comma.
  intros [->%N.eqb_eq| ->%N.eqb_eq]%orb_true_iff; done.
Qed.

Lemma search_Some cls s i :
  search cls s = Some i ->
  ∃ c, s !! i = Some c ∧ cls c = true ∧ Forall (λ c, cls c = false) (take i s).
Proof.
  revert i. induction s as [|c s IH]; intros i; simpl; [done|].
  destruct (cls c) eqn:Hc.
  - intros [= <-]. exists c. simpl. split; [done|]. split; [done|]. constructor.
  - destruct (search cls s) as [j|]; simpl; [|done].
    intros [= <-]. destruct (IH j eq_refl) as (c' & Hl & Hc' & Hall).
    exists c'. simpl. split; [done|]. split; [done|]. by constructor.
Qed.

Lemma search_None cls s : search cls s = None -> Forall (λ c, cls c = false) s.
Proof.
  induction s as [|c s IH]; simpl; [constructor|].
  destruct (cls c) eqn:Hc; [done|].
  destruct (search cls s); simpl; [done|]. intros _. constructor; [done | by apply IH].
Qed.

Lemma search_first cls int c frac :
  Forall (λ c, cls c = false) int -> cls c = true ->
  search cls (int ++ c :: frac) = Some (length int).
Proof.
  intros Hint Hc. induction Hint as [|x int Hx _ IH]; simpl.
  - by rewrite Hc.
  - by rewrite Hx, IH.
Qed.

Lemma search_none cls s : Forall (λ c, cls c = false) s -> search cls s = None.
Proof.
  induction 1 as [|x s Hx _ IH]; simpl; [done|]. by rewrite Hx, IH.
Qed.

Lemma remove_class_all cls s :
  Forall (λ c, cls c = false) (remove_class cls s).
Proof. unfold remove_class. apply Forall_forall. by intros c [? _]%list_elem_of_filter. Qed.

Lemma remove_class_none cls s :
  Forall (λ c, cls c = false) s -> remove_class cls s = s.
Proof.
  unfold remove_class. induction 1 as [|x s Hx _ IH]; [done|].
  rewrite filter_cons, decide_True by done. by rewrite IH.
Qed.

Lemma digits_or_seps_split s :
  Forall (λ c, negb (is_digit c || is_sep c) = false) s ->
  Forall (λ c, is_sep c = false) s ->
  Forall (λ c, is_digit c = true) s.
Proof.
  intros H1 H2. induction H1 as [|c s Hc _ IH]; [constructor|].
  apply Forall_cons in H2 as [Hs H2]. constructor; [|by apply IH].
  rewrite Hs, orb_false_r in Hc. by apply negb_false_iff in Hc.
Qed.

Lemma digits_no_sep s :
  Forall (λ c, is_digit c = true) s -> Forall (λ c, is_sep c = false) s.
Proof.
  intros Hd. eapply Forall_impl; [exact Hd|].
  intros c Hc. simpl in Hc. destruct (is_sep c) eqn:Hs; [|done].
  apply is_sep_not_digit in Hs. congruence.
Qed.

Lemma digits_kept s :
  Forall (λ c, is_digit c = true) s ->
  Forall (λ c, negb (is_digit c || is_sep c) = false) s.
Proof. intros Hd. eapply Forall_impl; [exact Hd|]. by intros c ->. Qed.

Lemma remove_leading_digit cls s :
  (∀ c, head s = Some c -> cls c = false) -> remove_leading cls s = s.
Proof. destruct s as [|c s]; simpl; [done|]. intros Hc. by rewrite Hc. Qed.

Lemma money_shaped_keeps s :
  money_shaped is_sep s ->
  Forall (λ c, negb (is_digit c || is_sep c) = false) s ∧
  (∀ c, head s = Some c -> is_sep c = false).
Proof.
  intros [Hd|(int & c & frac & -> & Hne & Hc & Hint & Hfrac)].
  - split; [by apply digits_kept|].
    intros c Hc. destruct s as [|x s]; [done|]. injection Hc as ->.
    apply Forall_cons in Hd as [Hd _].
    destruct (is_sep c) eqn:Hs; [|done]. apply is_sep_not_digit in Hs. congruence.
  - split.
    + apply Forall_app. split; [by apply digits_kept|].
      constructor; [|by apply digits_kept]. rewrite Hc. by rewrite orb_true_r.
    + intros x Hx. destruct int as [|y int]; [done|]. injection Hx as ->.
      apply Forall_cons in Hint as [Hd _].
      destruct (is_sep x) eqn:Hs; [|done]. apply is_sep_not_digit in Hs. congruence.
Qed.

Lemma remove_class_Forall (P : N -> Prop) cls s :
  Forall P s -> Forall P (remove_class cls s).
Proof.
  rewrite !Forall_forall. intros Hs x [_ Hx]%list_elem_of_filter. by apply Hs.
Qed.

Lemma sanitizeMoneyInput_money_shaped (v : prim number) :
  money_shaped is_sep (ProductForm.sanitizeMoneyInput v).
Proof.
  unfold ProductForm.sanitizeMoneyInput.
  set (s := remove_class _ _).
  assert (Hs : Forall (λ c, negb (is_digit c || is_sep c) = false) s)
    by apply remove_class_all.
  clearbody s.
  destruct (search is_sep s) as [i|] eqn:Hsearch.
  - destruct (search_Some _ _ _ Hsearch) as (c & Hi & Hc & Hhead).
    rewrite Hi. simpl.
    assert (Hint : Forall (λ c, is_digit c = true) (take i s)).
    { apply digits_or_seps_split; [by apply Forall_take | done]. }
    assert (Hfrac : Forall (λ c, is_digit c = true) (remove_class is_sep (drop (S i) s))).
    { apply digits_or_seps_split; [|apply remove_class_all].
      by apply remove_class_Forall, Forall_drop. }
    destruct (take i s) as [|d int] eqn:Htake; simpl.
    + rewrite Hc. by left.
    + apply Forall_cons in Hint as [Hd Hint].
      rewrite (is_sep_digit d) by done.
      right. exists (d :: int), c, (remove_class is_sep (drop (S i) s)).
      split; [done|]. split; [done|]. split; [done|]. split; [by constructor | done].
  - apply search_None in Hsearch.
    pose proof (digits_or_seps_split _ Hs Hsearch) as Hd.
    rewrite remove_leading_digit; [by left|].
    intros c Hc. destruct s as [|x s]; [done|]. injection Hc as ->.
    by apply Forall_cons in Hsearch as [? _].
Qed.

Lemma sanitizeMoneyInput_keeps (s : jstring) :
  money_shaped is_sep s -> ProductForm.sanitizeMoneyInput (PStr s) = s.
Proof.
  intros Hshape.
  destruct (money_shaped_keeps s Hshape) as [Hkeep Hhead].
  unfold ProductForm.sanitizeMoneyInput. simpl.
  rewrite (remove_class_none _ s) by done.
  destruct Hshape as [Hd|(int & c & frac & -> & Hne & Hc & Hint & Hfrac)].
  - rewrite search_none by (by apply digits_no_sep).
    by apply remove_leading_digit.
  - rewrite search_first by (by auto using digits_no_sep).
    rewrite take_app_length, list_lookup_middle by done.
    assert (Hdrop : drop (S (length int)) (int ++ c :: frac) = frac).
    { rewrite cons_middle, app_assoc. rewrite drop_app_length'; [done|].
      rewrite length_app. simpl. lia. }
    rewrite Hdrop. simpl.
    rewrite remove_class_none by (by apply digits_no_sep).
    by apply remove_leading_digit.
Qed.

(** X1: the text [sanitizeMoneyInput] leaves in a money field is made of
    digits with at most one separator ([.] or [,]), which is not its
    first character; the text [sanitizeIntInput] leaves in an integer
    field is made of digits. *)
Theorem sanitized_input_shape (v : prim number) :
  money_shaped is_sep (ProductForm.sanitizeMoneyInput v) ∧
  Forall (λ c, is_digit c = true) (ProductForm.sanitizeIntInput v).
Proof.
  split; [apply sanitizeMoneyInput_money_shaped|].
  unfold ProductForm.sanitizeIntInput.
  eapply Forall_impl; [apply remove_class_all|].
  intros c Hc. by apply negb_false_iff in Hc.
Qed.

(** X2: the texts [sanitizeMoneyInput] leaves as they are are exactly
    the well-formed ones (digits, at most one separator, not in front);
    so sanitizing what was sanitized changes nothing. *)
Theorem sanitizeMoneyInput_fixed_points (s : jstring) :
  (ProductForm.sanitizeMoneyInput (PStr s) = s ↔ money_shaped is_sep s) ∧
  ∀ v : prim number,
    ProductForm.sanitizeMoneyInput (PStr (ProductForm.sanitizeMoneyInput v)) =
    ProductForm.sanitizeMoneyInput v.
Proof.
  split; [split|].
  - intros <-. apply sanitizeMoneyInput_money_shaped.
  - apply sanitizeMoneyInput_keeps.
  - intros v. apply sanitizeMoneyInput_keeps, sanitizeMoneyInput_money_shaped.
Qed.

Lemma replace_first_absent a b s : a ∉ s -> replace_first a b s = s.
Proof.
  induction s as [|c s IH]; simpl; [done|].
  intros Hn. apply not_elem_of_cons in Hn as [Hne Hn].
  rewrite (proj2 (N.eqb_neq c a)) by done. by rewrite IH.
Qed.

Lemma digits_no_comma s : Forall (λ c, is_digit c = true) s -> comma ∉ s.
Proof.
  intros Hd Hin. rewrite Forall_forall in Hd. by specialize (Hd _ Hin).
Qed.

Lemma dropWhile_none {A} (p : A -> bool) l :
  (∀ c, head l = Some c -> p c = false) -> dropWhile p l = l.
Proof. destruct l as [|c l]; simpl; [done|]. intros Hc. by rewrite Hc. Qed.

Lemma trim_none s :
  (∀ c, head s = Some c -> is_ws c = false) ->
  (∀ c, last s = Some c -> is_ws c = false) ->
  trim s = s.
Proof.
  intros Hh Hl. unfold trim, trimStart, trimEnd.
  rewrite (dropWhile_none _ s) by done.
  rewrite dropWhile_none; [apply reverse_involutive|].
  intros c. rewrite head_reverse. apply Hl.
Qed.

Lemma trim_no_ws s : Forall (λ c, is_ws c = false) s -> trim s = s.
Proof.
  intros Hs. rewrite Forall_forall in Hs.
  apply trim_none; intros c Hc; apply Hs.
  - destruct s; [done|]. injection Hc as ->. left.
  - by apply last_Some_elem_of.
Qed.

(** X3: a money field kept through [sanitizeMoneyInput] goes to the
    server in decimal notation: [normalizeMoney], which replaces the
    first comma only, leaves digits with at most one full stop, not in
    front, and no comma. *)
Theorem normalizeMoney_after_sanitize (v : prim number) :
  money_shaped (λ c, c =? full_stop)
    (ProductForm.normalizeMoney (ProductForm.sanitizeMoneyInput v)).
Proof.
  pose proof (sanitizeMoneyInput_money_shaped v) as Hshape.
  revert Hshape. generalize (ProductForm.sanitizeMoneyInput v). intros s Hshape.
  unfold ProductForm.normalizeMoney.
  rewrite trim_no_ws.
  2:{ destruct (money_shaped_keeps s Hshape) as [Hkeep _].
      eapply Forall_impl; [exact Hkeep|]. intros c Hc. simpl in Hc.
      apply negb_false_iff, orb_true_iff in Hc as [Hc|Hc];
        [by apply is_digit_not_ws | by apply is_sep_not_ws]. }
  destruct Hshape as [Hd|(int & c & frac & -> & Hne & Hc & Hint & Hfrac)].
  - rewrite replace_first_absent by (by apply digits_no_comma). by left.
  - right. unfold is_sep in Hc. apply orb_true_iff in Hc as [Hc|Hc]; apply N.eqb_eq in Hc; subst c.
    + rewrite replace_first_absent.
      * exists int, full_stop, frac. rewrite N.eqb_refl. done.
      * intros [Hin|Hin]%elem_of_app; [exact (digits_no_comma _ Hint Hin)|].
        apply elem_of_cons in Hin as [Hin|Hin]; [done | exact (digits_no_comma _ Hfrac Hin)].
    + exists int, full_stop, frac. split; [|rewrite N.eqb_refl; done].
      clear Hne. induction Hint as [|x int Hx _ IH]; simpl; [done|].
      rewrite IH. destruct (x =? comma) eqn:Hxc; [|done].
      apply N.eqb_eq in Hxc. by subst x.
Qed.
End MoneyInputFacts.

(** ** The highlights of a product *)
Section HighlightsFacts.
Context `{JSNumber number}.

Lemma replace_ws_runs_with_cons rep c s :
  is_ws c = false ->
  replace_ws_runs_with rep (c :: s) = c :: replace_ws_runs_with rep s.
Proof. intros Hc. simp replace_ws_runs_with. by rewrite Hc. Qed.

Lemma replace_ws_runs_with_run rep c s :
  is_ws c = true ->
  replace_ws_runs_with rep (c :: s) = rep :: replace_ws_runs_with rep (dropWhile is_ws s).
Proof. intros Hc. simp replace_ws_runs_with. by rewrite Hc. Qed.

Lemma replace_ws_runs_with_nil rep s : replace_ws_runs_with rep s = [] ↔ s = [].
Proof.
  split; [|intros ->; by simp replace_ws_runs_with].
  destruct s as [|c s]; [done|].
  destruct (is_ws c) eqn:Hc;
    [rewrite replace_ws_runs_with_run | rewrite replace_ws_runs_with_cons]; done.
Qed.

Lemma dropWhile_head {A} (p : A -> bool) l c :
  head (dropWhile p l) = Some c -> p c = false.
Proof.
  induction l as [|x l IH]; simpl; [done|].
  destruct (p x) eqn:Hx; [done|]. simpl. by intros [= <-].
Qed.

Lemma replace_ws_runs_with_head rep s c :
  (∀ c0, head s = Some c0 -> is_ws c0 = false) ->
  head (replace_ws_runs_with rep s) = Some c -> is_ws c = false.
Proof.
  destruct s as [|c0 s]; [by simp replace_ws_runs_with|].
  intros Hs. rewrite replace_ws_runs_with_cons by (by apply Hs).
  simpl. intros [= <-]. by apply Hs.
Qed.

Lemma replace_ws_runs_with_spaced s :
  (∀ c, c ∈ replace_ws_runs_with space s -> is_ws c = true -> c = space) ∧
  (∀ i, replace_ws_runs_with space s !! i = Some space ->
        replace_ws_runs_with space s !! S i ≠ Some space).
Proof.
  funelim (replace_ws_runs_with space s).
  - split; [by intros c Hc%elem_of_nil | done].
  - destruct H0 as [IH1 IH2]. split.
    + intros x [->|Hx]%elem_of_cons Hws; [done | by apply IH1].
    + intros [|i]; simpl; [|apply IH2].
      intros _ Hnext.
      assert (Hhd : head (replace_ws_runs_with space (dropWhile is_ws s')) = Some space).
      { by destruct (replace_ws_runs_with space (dropWhile is_ws s')). }
      apply replace_ws_runs_with_head in Hhd; [done|].
      intros c0. apply dropWhile_head.
  - destruct H0 as [IH1 IH2]. split.
    + intros x [->|Hx]%elem_of_cons Hws; [congruence | by apply IH1].
    + intros [|i]; simpl; [|apply IH2].
      intros [= ->]. done.
Qed.

Lemma trimStart_head s c : head (trimStart s) = Some c -> is_ws c = false.
Proof. apply dropWhile_head. Qed.

Lemma dropWhile_suffix_head {A} (p : A -> bool) l :
  ∃ run, l = run ++ dropWhile p l ∧ Forall (λ c, p c = true) run.
Proof.
  induction l as [|x l IH]; simpl; [by exists []|].
  destruct (p x) eqn:Hx; [|by exists []].
  destruct IH as (run & Heq & Hall). exists (x :: run).
  split; [simpl; congruence | by constructor].
Qed.

(** Trimming the end keeps the first code unit. *)
Lemma trimEnd_head s c :
  (∀ c0, head s = Some c0 -> is_ws c0 = false) ->
  head (trimEnd s) = Some c -> is_ws c = false.
Proof.
  intros Hs. unfold trimEnd.
  destruct (dropWhile_suffix_head is_ws (reverse s)) as (run & Heq & Hall).
  apply (f_equal reverse) in Heq. rewrite reverse_involutive, reverse_app in Heq.
  destruct (reverse (dropWhile is_ws (reverse s))) as [|x t]; [done|].
  simpl. intros [= ->]. apply Hs. by rewrite Heq.
Qed.

Lemma trim_head s c : head (trim s) = Some c -> is_ws c = false.
Proof. unfold trim. apply trimEnd_head. apply trimStart_head. Qed.

Lemma single_spaced_take n s : single_spaced s -> single_spaced (take n s).
Proof.
  intros (H1 & H2 & H3). split; [|split].
  - intros c (i & Hi & _)%elem_of_take. apply H1. by eapply list_elem_of_lookup_2.
  - intros i Hi Hn.
    apply lookup_take_Some in Hi as [Hi _]. apply lookup_take_Some in Hn as [Hn _].
    exact (H2 i Hi Hn).
  - intros c Hc. apply H3. destruct n, s; done.
Qed.

Lemma highlight_line_spaced s :
  single_spaced (replace_ws_runs_with space (trim s)).
Proof.
  destruct (replace_ws_runs_with_spaced (trim s)) as [H1 H2].
  split; [done|]. split; [done|].
  intros c. apply replace_ws_runs_with_head. intros c0. apply trim_head.
Qed.

(** X4: [parseHighlights] returns at most 10 entries; each is non-empty,
    has at most 60 code units, and its whitespace is made of single
    spaces (no line break, no tab, no two spaces in a row), none of them
    in front. *)
Theorem parseHighlights_bounds (text : prim number) :
  (length (ProductForm.parseHighlights text) ≤ 10)%nat ∧
  Forall (λ s, s ≠ [] ∧ (length s ≤ 60)%nat ∧ single_spaced s)
         (ProductForm.parseHighlights text).
Proof.
  unfold ProductForm.parseHighlights, slice0.
  split.
  - rewrite length_fmap, length_take. lia.
  - apply Forall_fmap, Forall_take, Forall_forall.
    intros s [Hne Hin]%list_elem_of_filter. simpl.
    apply list_elem_of_fmap in Hin as (l & -> & _).
    split; [|split].
    + by destruct (replace_ws_runs_with space (trim l)).
    + rewrite length_take. lia.
    + apply single_spaced_take, highlight_line_spaced.
Qed.

Lemma dropWhile_nil {A} (p : A -> bool) l :
  dropWhile p l = [] ↔ Forall (λ c, p c = true) l.
Proof.
  induction l as [|x l IH]; simpl; [by split|].
  destruct (p x) eqn:Hx.
  - rewrite IH. split; [by constructor | by intros [_ ?]%Forall_cons].
  - split; [done | intros [? _]%Forall_cons; congruence].
Qed.

Lemma trim_nil s : trim s = [] ↔ Forall (λ c, is_ws c = true) s.
Proof.
  unfold trim, trimEnd, trimStart. split.
  - intros Ht. apply (f_equal reverse) in Ht. rewrite reverse_involutive in Ht.
    simpl in Ht. apply dropWhile_nil in Ht. rewrite Forall_reverse in Ht.
    apply dropWhile_nil.
    destruct (dropWhile is_ws s) as [|c t] eqn:Hd; [done|].
    apply Forall_cons in Ht as [Hc _].
    assert (Hh : head (dropWhile is_ws s) = Some c) by (by rewrite Hd).
    apply dropWhile_head in Hh. congruence.
  - intros Hs. apply dropWhile_nil in Hs. by rewrite Hs.
Qed.

Lemma split_on_line_feed_blank s :
  Forall (λ l, Forall (λ c, is_ws c = true) l) (split_on line_feed s) ↔
  Forall (λ c, is_ws c = true) s.
Proof.
  induction s as [|c s IH]; simpl.
  - split; [constructor | repeat constructor].
  - destruct (c =? line_feed) eqn:Hc.
    + apply N.eqb_eq in Hc as ->.
      rewrite !Forall_cons, IH. split; [by intros [_ ?] | by intros [_ ?]].
    + destruct (split_on line_feed s) as [|piece rest].
      * rewrite !Forall_cons, <- IH. split; [intros [[? _] _] | intros [? _]]; repeat constructor; done.
      * rewrite !Forall_cons in *. rewrite <- IH. tauto.
Qed.

Lemma filter_nil_iff {A} (P : A -> Prop) `{!∀ x, Decision (P x)} (l : list A) :
  filter P l = [] ↔ Forall (λ x, ¬ P x) l.
Proof.
  induction l as [|x l IH]; [by split|].
  rewrite filter_cons, Forall_cons. case_decide; [|rewrite IH; tauto].
  split; [done | tauto].
Qed.

(** X5: [parseHighlights] returns no entry exactly when the text is
    blank: empty, [null], [undefined], or made of whitespace and line
    breaks only. *)
Theorem parseHighlights_empty_iff_blank (text : prim number) :
  ProductForm.parseHighlights text = [] ↔
  Forall (λ c, is_ws c = true) (PrimToString (nullish_or text (PStr []))).
Proof.
  unfold ProductForm.parseHighlights, slice0.
  rewrite <- split_on_line_feed_blank.
  generalize (split_on line_feed (PrimToString (nullish_or text (PStr [])))).
  intros lines.
  assert (Hmap : ∀ l : list jstring, take 60 <$> l = [] ↔ l = []) by (by intros [|? ?]).
  rewrite Hmap.
  assert (Htake : ∀ l : list jstring, take 10 l = [] ↔ l = []) by (by intros [|? ?]).
  rewrite Htake, filter_nil_iff, Forall_fmap.
  apply Forall_iff. intros l. simpl.
  rewrite <- trim_nil, <- (replace_ws_runs_with_nil space (trim l)).
  split; [apply dec_stable | intros Heq Hne; exact (Hne Heq)].
Qed.
End HighlightsFacts.

(** ** The category check boxes *)
Section CategoryFacts.
Context `{JSNumber number}.

Lemma toggle_elem (id x : jstring) (prev : list jstring) :
  x ∈ ProductForm.toggleCategoryId id prev ↔
  if bool_decide (x = id) then id ∉ prev else x ∈ prev.
Proof.
  unfold ProductForm.toggleCategoryId.
  repeat case_bool_decide; subst;
    rewrite ?list_elem_of_filter, ?elem_of_app, ?list_elem_of_singleton; tauto.
Qed.

Lemma toggle_NoDup (id : jstring) (prev : list jstring) :
  NoDup prev -> NoDup (ProductForm.toggleCategoryId id prev).
Proof.
  intros Hnd. unfold ProductForm.toggleCategoryId. case_bool_decide as Hin.
  - by apply NoDup_filter.
  - apply NoDup_app. split; [done|]. split; [|apply NoDup_singleton].
    intros x Hx ->%list_elem_of_singleton. done.
Qed.

Lemma filter_ne_absent (id : jstring) (l : list jstring) :
  id ∉ l -> filter (λ x, x ≠ id) l = l.
Proof.
  induction l as [|x l IH]; [done|].
  intros [Hne Hn]%not_elem_of_cons.
  rewrite filter_cons, decide_True by done. by rewrite IH.
Qed.

(** X6: after [toggleCategoryId(id, prev)] the category [id] is selected
    exactly when it was not before, and every other category is selected
    exactly when it was before. *)
Theorem toggleCategoryId_membership (id x : jstring) (prev : list jstring) :
  x ∈ ProductForm.toggleCategoryId id prev ↔
  if bool_decide (x = id) then id ∉ prev else x ∈ prev.
Proof. apply toggle_elem. Qed.

(** X7: on a selection without repetition, toggling the same category
    twice gives back the same selection: the same categories, each once,
    and the very same array when the category was not selected at
    first. *)
Theorem toggleCategoryId_twice (id : jstring) (prev : list jstring) :
  NoDup prev ->
  ProductForm.toggleCategoryId id (ProductForm.toggleCategoryId id prev) ≡ₚ prev ∧
  (id ∉ prev ->
   ProductForm.toggleCategoryId id (ProductForm.toggleCategoryId id prev) = prev) ∧
  NoDup (ProductForm.toggleCategoryId id (ProductForm.toggleCategoryId id prev)).
Proof.
  intros Hnd.
  assert (Habsent : id ∉ prev ->
    ProductForm.toggleCategoryId id (ProductForm.toggleCategoryId id prev) = prev).
  { intros Hn. unfold ProductForm.toggleCategoryId at 2.
    rewrite bool_decide_eq_false_2 by done.
    unfold ProductForm.toggleCategoryId.
    rewrite bool_decide_eq_true_2 by (apply elem_of_app; right; left).
    rewrite filter_app, filter_ne_absent by done.
    rewrite filter_cons, decide_False by (intros Hne; by apply Hne).
    by rewrite app_nil_r. }
  split; [|split; [done|]].
  2:{ by do 2 apply toggle_NoDup. }
  destruct (decide (id ∈ prev)) as [Hin|Hn]; [|by rewrite Habsent].
  apply NoDup_Permutation; [|done|].
  - by do 2 apply toggle_NoDup.
  - intros x. split.
    + intros Hx. apply toggle_elem in Hx.
      case_bool_decide as Hid; [by subst|].
      apply toggle_elem in Hx. by rewrite bool_decide_eq_false_2 in Hx.
    + intros Hx. apply toggle_elem. case_bool_decide as Hid.
      * subst x. intros Hc. apply toggle_elem in Hc.
        rewrite bool_decide_eq_true_2 in Hc by done. done.
      * apply toggle_elem. by rewrite bool_decide_eq_false_2.
Qed.
End CategoryFacts.

(** ** The login page *)
Section LoginFacts.


(** X9: [humanLoginError] never returns an empty message; an error
    without an HTTP status (a network failure, or an exception thrown by
    the page itself) gives the no-connection message whatever its own
    message says, unless its code is [ECONNABORTED]; and a text of the
    server or of the error object is shown only for a status below 500
    other than 0, 401, 403 and 429. *)
Theorem humanLoginError_messages (err : LoginPage.LoginFailure) :
  LoginPage.humanLoginError err ≠ [] ∧
  (LoginPage.code err ≠ Some (lit "ECONNABORTED") ->
   LoginPage.response_status err = None ∨ LoginPage.response_status err = Some 0%Z ->
   LoginPage.humanLoginError err = LoginPage.no_connection) ∧
  (LoginPage.humanLoginError err ∉
     [LoginPage.timed_out; LoginPage.no_connection; LoginPage.wrong_credentials;
      LoginPage.access_denied; LoginPage.too_many_attempts;
      LoginPage.server_unavailable; LoginPage.login_failed] ->
   ∃ status, LoginPage.response_status err = Some status ∧
     (status < 500)%Z ∧ (status ∉ [0%Z; 401%Z; 403%Z; 429%Z]) ∧
     Some (LoginPage.humanLoginError err) ∈
       [LoginPage.data_error err; LoginPage.data_message err; LoginPage.message err]).
Proof.
  unfold LoginPage.humanLoginError.
  assert (Hfixed : ∀ m,
    m ∈ [LoginPage.timed_out; LoginPage.no_connection; LoginPage.wrong_credentials;
         LoginPage.access_denied; LoginPage.too_many_attempts;
         LoginPage.server_unavailable; LoginPage.login_failed] -> m ≠ []).
  { intros m Hm. rewrite !elem_of_cons, elem_of_nil in Hm.
    destruct Hm as [->|[->|[->|[->|[->|[->|[->|[]]]]]]]]; by vm_compute. }
  case_bool_decide as Hcode.
  { split; [apply Hfixed; left|]. split; [done|].
    intros Hn. exfalso. apply Hn. left. }
  destruct (LoginPage.response_status err) as [status|].
  2:{ split; [apply Hfixed; right; left|]. split; [done|].
      intros Hn. exfalso. apply Hn. right; left. }
  destruct (Z.eqb_spec status 0) as [->|H0].
  { split; [apply Hfixed; right; left|]. split; [done|].
    intros Hn. exfalso. apply Hn. right; left. }
  destruct (Z.eqb_spec status 401) as [->|H401].
  { split; [apply Hfixed; do 2 right; left|]. split; [by intros _ [|[=]]|].
    intros Hn. exfalso. apply Hn. do 2 right; left. }
  destruct (Z.eqb_spec status 403) as [->|H403].
  { split; [apply Hfixed; do 3 right; left|]. split; [by intros _ [|[=]]|].
    intros Hn. exfalso. apply Hn. do 3 right; left. }
  destruct (Z.eqb_spec status 429) as [->|H429].
  { split; [apply Hfixed; do 4 right; left|]. split; [by intros _ [|[=]]|].
    intros Hn. exfalso. apply Hn. do 4 right; left. }
  destruct (Z.leb_spec 500 status) as [H500|H500].
  { split; [apply Hfixed; do 5 right; left|].
    split; [intros _ [|[=]]; [done | lia]|].
    intros Hn. exfalso. apply Hn. do 5 right; left. }
  assert (Hstatus : status ∉ [0%Z; 401%Z; 403%Z; 429%Z]).
  { rewrite !elem_of_cons, elem_of_nil. lia. }
  split; [|split; [intros _ [|[=]]; [done | lia]|]].
  - unfold LoginPage.or_str.
    destruct (LoginPage.data_error err) as [[|]|], (LoginPage.data_message err) as [[|]|],
      (LoginPage.message err) as [[|]|]; simpl; try done; apply Hfixed; do 6 right; left.
  - intros Hn. exists status. split; [done|]. split; [done|]. split; [done|].
    revert Hn. unfold LoginPage.or_str.
    destruct (LoginPage.data_error err) as [[|]|], (LoginPage.data_message err) as [[|]|],
      (LoginPage.message err) as [[|]|]; simpl; intros Hn;
      try (exfalso; apply Hn; do 6 right; left);
      rewrite !elem_of_cons; auto.
Qed.
End LoginFacts.

(** ** The keys of the pages *)
Section PageKeyFacts.
Context `{JSNumber number} `{!JSONOps number} `{!PageBuiltins}.

Lemma colon_split_unique (a b a' b' : jstring) :
  colon ∉ a -> colon ∉ a' -> a ++ colon :: b = a' ++ colon :: b' -> a = a' ∧ b = b'.
Proof.
  revert a'. induction a as [|x a IH]; intros [|x' a'] Ha Ha'; simpl.
  - by intros [= ->].
  - intros [= <- _]. exfalso. apply Ha'. left.
  - intros [= -> _]. exfalso. apply Ha. left.
  - intros [= -> Heq].
    apply not_elem_of_cons in Ha as [_ Ha]. apply not_elem_of_cons in Ha' as [_ Ha'].
    destruct (IH a' Ha Ha' Heq) as [-> ->]. done.
Qed.

(** X10: the keys of the inbox and of the order pages tell operations
    apart: for identifiers without a colon, two keys are equal only when
    the identifier and the action are. *)
Theorem action_keys_injective (id id' action action' : jstring) :
  colon ∉ id -> colon ∉ id' ->
  (InboxPage.IdemKey id action = InboxPage.IdemKey id' action' ->
   id = id' ∧ action = action') ∧
  (OrderPages.idempotencyKey id action = OrderPages.idempotencyKey id' action' ->
   id = id' ∧ action = action').
Proof.
  intros Hid Hid'.
  unfold InboxPage.IdemKey, OrderPages.idempotencyKey.
  change (lit ":") with [colon].
  split; intros Heq%app_inv_head; by apply colon_split_unique.
Qed.

Lemma replace_ws_runs_no_ws (s : jstring) :
  no_whitespace s -> replace_ws_runs s = s.
Proof.
  induction 1 as [|c s Hc _ IH]; simp replace_ws_runs; [done|].
  rewrite Hc. simpl. by rewrite IH.
Qed.

(** X11: a key made by [stableKey] is in normal form: given back to
    [stableKey] as its only part, it comes out unchanged. *)
Theorem stableKey_canonical (parts : list Idempotency.part) :
  Idempotency.stableKey [Idempotency.One (PStr (Idempotency.stableKey parts))] =
  Idempotency.stableKey parts.
Proof.
  assert (Hk : no_whitespace (Idempotency.stableKey parts)).
  { unfold Idempotency.stableKey, slice0. apply no_whitespace_take.
    eapply collapsed_no_whitespace, replace_ws_runs_collapsed. }
  assert (Hlen : (length (Idempotency.stableKey parts) ≤ 160)%nat).
  { unfold Idempotency.stableKey, slice0. rewrite length_take. lia. }
  revert Hk Hlen. generalize (Idempotency.stableKey parts). intros k Hk Hlen.
  unfold Idempotency.stableKey at 1, Idempotency.raw, slice0. simpl.
  rewrite trim_no_ws by done. rewrite replace_ws_runs_no_ws by done.
  by apply take_ge.
Qed.

(** X12: the creation of a category sends nothing for a blank name
    (the mutation throws); otherwise the name sent is the trimmed one,
    not empty, and the key is ["cat-create:"] followed by its lower
    case. *)
Theorem category_createM_blank (newName : jstring) :
  (CategoriesPage.createM newName = None ↔ Forall (λ c, is_ws c = true) newName) ∧
  (∀ r, CategoriesPage.createM newName = Some r ->
     trim newName ≠ [] ∧
     req_body r = VObj [(lit "name", VStr (trim newName))] ∧
     key_of r = Some (lit "cat-create:" ++ toLowerCase (trim newName))).
Proof.
  rewrite <- trim_nil. unfold CategoriesPage.createM.
  destruct (trim newName) as [|c t]; [done|].
  split; [done|]. intros r [= <-]. split; [done|]. split; [done|].
  unfold key_of, idem_headers. cbn [req_headers]. rewrite lookup_singleton_eq.
  reflexivity.
Qed.
End PageKeyFacts.

(** ** The flattened keys *)
Section FlattenFacts.
Context `{JSNumber number}.

Lemma jstring_leb_total a b : jstring_leb a b = false -> jstring_leb b a = true.
Proof.
  revert b. induction a as [|x a IH]; intros [|y b]; simpl; try done.
  destruct (N.ltb_spec x y), (N.ltb_spec y x); try done; try lia. apply IH.
Qed.

#[local] Instance key_le_trans : Transitive key_le.
Proof.
  unfold key_le. intros a. induction a as [|x a IH]; intros [|y b] [|z c]; simpl; try done.
  destruct (N.ltb_spec x y), (N.ltb_spec y x), (N.ltb_spec y z), (N.ltb_spec z y),
    (N.ltb_spec x z), (N.ltb_spec z x); try done; try lia.
  apply IH.
Qed.

#[local] Instance key_le_antisym : AntiSymm eq key_le.
Proof.
  unfold key_le. intros a. induction a as [|x a IH]; intros [|y b]; simpl; try done.
  destruct (N.ltb_spec x y), (N.ltb_spec y x); try done; try lia.
  intros Hab Hba. assert (x = y) as -> by lia. f_equal. by apply IH.
Qed.

Lemma insert_key_perm k l : insert_key k l ≡ₚ k :: l.
Proof.
  induction l as [|x l IH]; simpl; [done|].
  destruct (jstring_leb k x); [done|]. rewrite IH. apply Permutation_swap.
Qed.

Lemma insert_key_sorted k l : Sorted key_le l -> Sorted key_le (insert_key k l).
Proof.
  induction 1 as [|x l Hs IH Hhd]; simpl; [by repeat constructor|].
  destruct (jstring_leb k x) eqn:Hk.
  - constructor; [by constructor|]. by constructor.
  - constructor; [done|].
    apply jstring_leb_total in Hk.
    destruct l as [|y l]; simpl; [by constructor|].
    destruct (jstring_leb k y); constructor; [done|].
    by inversion Hhd.
Qed.

Lemma sorted_keys_perm (props props' : list (jstring * JSVal number)) :
  props ≡ₚ props' -> sorted_keys props = sorted_keys props'.
Proof.
  intros Hp. unfold sorted_keys.
  assert (Hs : ∀ l, Sorted key_le (foldr insert_key [] l) ∧ foldr insert_key [] l ≡ₚ l).
  { induction l as [|k l [IH1 IH2]]; simpl; [by split|].
    split; [by apply insert_key_sorted|]. by rewrite insert_key_perm, IH2. }
  apply (Sorted_unique key_le); try apply Hs.
  rewrite (proj2 (Hs _)), (proj2 (Hs _)).
  apply NoDup_Permutation; try apply NoDup_remove_dups.
  intros k. rewrite !elem_of_remove_dups. by rewrite Hp.
Qed.

Lemma own_prop_None (props : list (jstring * JSVal number)) k :
  own_prop props k = None ↔ k ∉ props.*1.
Proof.
  induction props as [|[k' v] props IH]; simpl.
  - split; [intros _ Hin; by apply elem_of_nil in Hin | done].
  - rewrite not_elem_of_cons. case_bool_decide as Hk.
    + split; [done | intros [Hne _]; congruence].
    + rewrite IH. split; [intros ?; split; [congruence | done] | by intros [_ ?]].
Qed.

Lemma own_prop_elem (props : list (jstring * JSVal number)) k v :
  NoDup props.*1 -> (k, v) ∈ props -> own_prop props k = Some v.
Proof.
  induction props as [|[k' v'] props IH]; simpl; [by intros _ ?%elem_of_nil|].
  intros [Hn Hnd]%NoDup_cons [[= -> ->]|Hin]%elem_of_cons.
  - by rewrite bool_decide_eq_true_2.
  - rewrite bool_decide_eq_false_2; [by apply IH|].
    intros ->. apply Hn. apply list_elem_of_fmap. by exists (k, v).
Qed.

Lemma own_prop_Some (props : list (jstring * JSVal number)) k v :
  own_prop props k = Some v -> (k, v) ∈ props.
Proof.
  induction props as [|[k' v'] props IH]; simpl; [done|].
  case_bool_decide; [intros [= <-]; subst; left | intros ?; right; by apply IH].
Qed.

Lemma own_prop_perm (props props' : list (jstring * JSVal number)) k :
  NoDup props.*1 -> props ≡ₚ props' -> own_prop props k = own_prop props' k.
Proof.
  intros Hnd Hp.
  destruct (own_prop props k) as [v|] eqn:Hk; symmetry.
  - apply own_prop_elem; [by rewrite <- Hp|]. rewrite <- Hp. by apply own_prop_Some.
  - apply own_prop_None. rewrite <- Hp. by apply own_prop_None.
Qed.

Lemma flatten_perm (props props' : list (jstring * JSVal number)) :
  NoDup props.*1 -> props ≡ₚ props' -> flatten props = flatten props'.
Proof.
  intros Hnd Hp. unfold flatten. rewrite (sorted_keys_perm _ _ Hp). f_equal.
  induction (sorted_keys props') as [|k keys IH]; simpl; [done|].
  by rewrite IH, (own_prop_perm _ _ k Hnd Hp).
Qed.
(** X13: the flattened keys of the coupon and product edit pages do not
    depend on the order in which the fields of the payload were written:
    two payloads with the same fields (each key once) get the same
    key. *)
Theorem flattened_key_order_independent
    (prefix id : jstring) (props props' : list (jstring * JSVal number)) :
  NoDup props.*1 -> props ≡ₚ props' ->
  EditPages.stableIdem prefix props = EditPages.stableIdem prefix props' ∧
  EditPages.stableIdemForPatch id props = EditPages.stableIdemForPatch id props'.
Proof.
  intros Hnd Hp. unfold EditPages.stableIdem, EditPages.stableIdemForPatch.
  by rewrite (flatten_perm _ _ Hnd Hp).
Qed.
End FlattenFacts.

(** ** The encodings *)
Section EncodingFacts.
Context `{JSNumber number} `{!JSONOps number} `{!PageBuiltins}.

Ltac cmp :=
  repeat match goal with
         | |- context [?a <? ?b] => destruct (N.ltb_spec a b); try lia
         | |- context [?a <=? ?b] => destruct (N.leb_spec a b); try lia
         | |- context [?a =? ?b] => destruct (N.eqb_spec a b); try lia
         end.

Lemma b64_char_url n :
  n < 64 -> b64_char n ≠ 0x3D ∧ url_char (b64_char n) ≠ 0x3D ∧
            is_b64url (url_char (b64_char n)) = true.
Proof.
  intros Hn. unfold b64_char, url_char, is_b64url.
  destruct (N.ltb_spec n 26); [cmp; simpl; repeat split; (done || lia)|].
  destruct (N.ltb_spec n 52); [cmp; simpl; repeat split; (done || lia)|].
  destruct (N.ltb_spec n 62); [cmp; simpl; repeat split; (done || lia)|].
  destruct (N.eqb_spec n 62); simpl; repeat split; done.
Qed.

Lemma b64_chars_ok (l : list N) :
  Forall (λ n, n < 64) l -> Forall b64_ok (b64_char <$> l).
Proof.
  intros Hl. apply Forall_fmap. eapply Forall_impl; [exact Hl|].
  intros n Hn. by apply b64_char_url.
Qed.

Lemma btoa_shape (fuel : nat) (bytes : list N) :
  (length bytes ≤ fuel)%nat ->
  Forall (λ b, b < 256) bytes ->
  ∃ body pad, btoa bytes = body ++ pad ∧ Forall b64_ok body ∧
    Forall (λ c, c = 0x3D) pad ∧ length body = ((4 * length bytes + 2) / 3)%nat.
Proof.
  revert bytes. induction fuel as [|fuel IH]; intros bytes Hlen Hb.
  { destruct bytes; [|simpl in Hlen; lia]. exists [], []. by repeat split. }
  destruct bytes as [|a [|b [|c rest]]].
  - exists [], []. by repeat split.
  - apply Forall_cons in Hb as [Ha _].
    exists (b64_char <$> [a / 4; (a mod 4) * 16]), [0x3D; 0x3D].
    split; [done|]. split; [|split; [by repeat constructor | done]].
    apply b64_chars_ok. repeat apply Forall_cons_2; [| |constructor].
    + apply N.Div0.div_lt_upper_bound. lia.
    + assert (a mod 4 < 4) by (apply N.mod_lt; lia). lia.
  - apply Forall_cons in Hb as [Ha Hb]. apply Forall_cons in Hb as [Hb _].
    exists (b64_char <$> [a / 4; (a mod 4) * 16 + b / 16; (b mod 16) * 4]), [0x3D].
    split; [done|]. split; [|split; [by repeat constructor | done]].
    apply b64_chars_ok. repeat apply Forall_cons_2; [| | |constructor].
    + apply N.Div0.div_lt_upper_bound. lia.
    + assert (a mod 4 < 4) by (apply N.mod_lt; lia).
      assert (b / 16 < 16) by (apply N.Div0.div_lt_upper_bound; lia). lia.
    + assert (b mod 16 < 16) by (apply N.mod_lt; lia). lia.
  - apply Forall_cons in Hb as [Ha Hb]. apply Forall_cons in Hb as [Hb Hr].
    apply Forall_cons in Hr as [Hc Hr].
    destruct (IH rest) as (body & pad & Heq & Hbody & Hpad & Hl); [simpl in Hlen; lia | done|].
    exists ((b64_char <$> [a / 4; (a mod 4) * 16 + b / 16;
                           (b mod 16) * 4 + c / 64; c mod 64]) ++ body), pad.
    split; [|split; [|split; [done|]]].
    + change (btoa (a :: b :: c :: rest)) with
        ([b64_char (a / 4); b64_char ((a mod 4) * 16 + b / 16);
          b64_char ((b mod 16) * 4 + c / 64); b64_char (c mod 64)] ++ btoa rest).
      by rewrite Heq, <- app_assoc.
    + apply Forall_app. split; [|done].
      apply b64_chars_ok. repeat apply Forall_cons_2; [| | | |constructor].
      * apply N.Div0.div_lt_upper_bound. lia.
      * assert (a mod 4 < 4) by (apply N.mod_lt; lia).
        assert (b / 16 < 16) by (apply N.Div0.div_lt_upper_bound; lia). lia.
      * assert (b mod 16 < 16) by (apply N.mod_lt; lia).
        assert (c / 64 < 4) by (apply N.Div0.div_lt_upper_bound; lia). lia.
      * apply N.mod_lt. lia.
    + rewrite length_app, Hl. simpl length.
      replace (4 * S (S (S (length rest))) + 2)%nat
        with (4 * 3 + (4 * length rest + 2))%nat by lia.
      by rewrite Nat.div_add_l.
Qed.

Lemma dropWhile_app_all {A} (p : A -> bool) l1 l2 :
  Forall (λ c, p c = true) l1 -> dropWhile p (l1 ++ l2) = dropWhile p l2.
Proof. induction 1 as [|x l1 Hx _ IH]; simpl; [done|]. by rewrite Hx. Qed.

Lemma base64url_shape body pad :
  Forall b64_ok body -> Forall (λ c, c = 0x3D) pad ->
  base64url (body ++ pad) = url_char <$> body.
Proof.
  intros Hbody Hpad. unfold base64url. fold url_char.
  change (λ c, url_char c) with url_char.
  rewrite fmap_app, reverse_app.
  assert (Hp : url_char <$> pad = pad).
  { clear -Hpad. induction Hpad as [|x l -> _ IH]; [done|]. by rewrite fmap_cons, IH. }
  rewrite Hp, dropWhile_app_all.
  2:{ apply Forall_reverse. eapply Forall_impl; [exact Hpad|]. by intros c ->. }
  rewrite dropWhile_none; [apply reverse_involutive|].
  intros c. rewrite head_reverse. intros Hc%last_Some_elem_of.
  apply list_elem_of_fmap in Hc as (x & -> & Hx).
  rewrite Forall_forall in Hbody. destruct (Hbody x Hx) as (_ & Hne & _).
  by apply N.eqb_neq.
Qed.

(** X14: the key of a product update is the prefix, a colon and 43
    characters of the URL-safe base 64 alphabet (letters, digits, [-]
    and [_]; no [+], [/] or [=]), for a digest of 32 bytes as SHA-256
    gives. *)
Theorem idemKey_url_safe (prefix : jstring) (payload : JSVal number) :
  let digest := sha256 (utf8_encode (JSON_stringify payload)) in
  length digest = 32%nat ->
  Forall (λ b, b < 256) digest ->
  ∃ k, EditPages.idemKey prefix payload = prefix ++ [colon] ++ k ∧
       length k = 43%nat ∧ Forall (λ c, is_b64url c = true) k.
Proof.
  intros digest Hlen Hbytes. unfold EditPages.idemKey. fold digest.
  destruct (btoa_shape 32 digest) as (body & pad & -> & Hbody & Hpad & Hl); [lia | done|].
  rewrite base64url_shape by done.
  exists (url_char <$> body). split; [done|]. split.
  - rewrite length_fmap, Hl, Hlen. done.
  - apply Forall_fmap. eapply Forall_impl; [exact Hbody|]. by intros c (_ & _ & ?).
Qed.

(** *** encodeURIComponent *)
Lemma hex_digit_safe n : n < 16 -> uri_unreserved (hex_digit n) = true.
Proof.
  intros Hn. unfold hex_digit, uri_unreserved.
  destruct (N.ltb_spec n 10); cmp; done.
Qed.

Lemma percent_safe byte : byte < 256 -> Forall uri_safe (percent byte).
Proof.
  intros Hb. unfold percent. repeat apply Forall_cons_2; [| | |constructor].
  - by right.
  - left. apply hex_digit_safe. apply N.Div0.div_lt_upper_bound. lia.
  - left. apply hex_digit_safe. apply N.mod_lt. lia.
Qed.

Lemma utf8_bytes cp : cp < 0x110000 -> Forall (λ b, b < 256) (utf8 cp).
Proof.
  intros Hcp. unfold utf8.
  destruct (N.ltb_spec cp 0x80); [repeat apply Forall_cons_2; [lia | constructor]|].
  destruct (N.ltb_spec cp 0x800).
  { repeat apply Forall_cons_2; [| |constructor].
    - assert (cp / 64 < 32) by (apply N.Div0.div_lt_upper_bound; lia). lia.
    - assert (cp mod 64 < 64) by (apply N.mod_lt; lia). lia. }
  destruct (N.ltb_spec cp 0x10000).
  { repeat apply Forall_cons_2; [| | |constructor].
    - assert (cp / 4096 < 16) by (apply N.Div0.div_lt_upper_bound; lia). lia.
    - assert ((cp / 64) mod 64 < 64) by (apply N.mod_lt; lia). lia.
    - assert (cp mod 64 < 64) by (apply N.mod_lt; lia). lia. }
  repeat apply Forall_cons_2; [| | | |constructor].
  - assert (cp / 262144 < 8) by (apply N.Div0.div_lt_upper_bound; lia). lia.
  - assert ((cp / 4096) mod 64 < 64) by (apply N.mod_lt; lia). lia.
  - assert ((cp / 64) mod 64 < 64) by (apply N.mod_lt; lia). lia.
  - assert (cp mod 64 < 64) by (apply N.mod_lt; lia). lia.
Qed.

Lemma utf8_percent_safe cp : cp < 0x110000 -> Forall uri_safe (utf8 cp ≫= percent).
Proof.
  intros Hcp%utf8_bytes. induction Hcp as [|b l Hb _ IH]; [constructor|].
  change ((b :: l) ≫= percent) with (percent b ++ (l ≫= percent)).
  apply Forall_app. split; [by apply percent_safe | done].
Qed.

(** On a text without surrogates [encodeURIComponent] does not throw,
    and what it returns is made of unreserved characters and percent
    signs. *)
Lemma encodeURIComponent_safe (s : jstring) :
  Forall (λ c, c < 0xD800) s ->
  ∃ enc, encodeURIComponent s = Some enc ∧ Forall uri_safe enc.
Proof.
  induction 1 as [|c s Hc _ (enc & IH & Hsafe)]; simpl; [by exists []|].
  rewrite IH. simpl.
  destruct (uri_unreserved c) eqn:Hu.
  { eexists. split; [done|]. constructor; [by left | done]. }
  unfold is_low_surrogate, is_high_surrogate.
  rewrite (proj2 (N.leb_gt 0xDC00 c)) by lia.
  rewrite (proj2 (N.leb_gt 0xD800 c)) by lia. simpl.
  eexists. split; [done|]. apply Forall_app. split; [|done].
  apply utf8_percent_safe. lia.
Qed.

Lemma or_else_Forall (P : N -> Prop) (a b : jstring) :
  Forall P a -> Forall P b -> Forall P (Runtime.or_else a b).
Proof. by destruct a. Qed.

(** X15: in the browser, on a location without surrogates (a browser's
    path and query are ASCII), the redirection to the login page does
    not throw, and the address it sets is ["/login?next="] followed by
    unreserved characters and percent escapes only: no [&], [=], [#],
    [?] or [/] of the location reaches the query string unescaped. *)
Theorem redirect_to_login_one_parameter (w : Runtime.World number) (win : Runtime.Window) :
  Runtime.window w = Some win ->
  Forall (λ c, c < 0xD800) (Runtime.location_pathname win ++ Runtime.location_search win) ->
  ∃ enc,
    fst (api.redirect_to_login w) = inr () ∧
    Runtime.location_href <$> Runtime.window (snd (api.redirect_to_login w)) =
      Some (Some (lit "/login?next=" ++ enc)) ∧
    Forall uri_safe enc.
Proof.
  intros Hw Hloc. unfold api.redirect_to_login.
  unfold mbind, mret, Runtime.JS_bind, Runtime.JS_ret, Runtime.gets, Runtime.modify,
    Runtime.or_throw.
  rewrite Hw.
  destruct (encodeURIComponent_safe
              (Runtime.or_else (Runtime.location_pathname win ++ Runtime.location_search win)
                 (lit "/admin"))) as (enc & Henc & Hsafe).
  { apply or_else_Forall; [done|]. by vm_compute; repeat constructor. }
  rewrite Henc. exists enc. simpl. rewrite Hw. done.
Qed.
End EncodingFacts.

(** ** The stored session *)
Section SessionFacts.
Import Runtime.
Context `{JSNumber number} `{!JSONOps number}.

Ltac js_unfold :=
  unfold mbind, mret, JS_bind, JS_ret, gets, modify, throw, settled, or_throw, try_catch.

Lemma session_keys_differ : authStore.ME_KEY ≠ authStore.ACCESS_TOKEN_KEY.
Proof. by vm_compute. Qed.

Lemma setAccessToken_stores (t : jstring) (w : World number) :
  ∃ w', authStore.setAccessToken (VStr t) w = (inr (), w') ∧
    net w' = net w ∧ router_replaced w' = router_replaced w ∧
    (∀ k, stored w' k =
          if bool_decide (k = authStore.ACCESS_TOKEN_KEY)
          then match window w with Some _ => Some t | None => None end else stored w k).
Proof.
  unfold authStore.setAccessToken, stored. js_unfold.
  destruct (window w) as [win|] eqn:Hw; simpl.
  - eexists. split; [done|]. split; [done|]. split; [done|].
    intros k. simpl. rewrite Hw. simpl. case_bool_decide as Hk.
    + subst k. apply lookup_insert_eq.
    + by apply lookup_insert_ne.
  - exists w. split; [done|]. split; [done|]. split; [done|].
    intros k. rewrite Hw. simpl. by case_bool_decide.
Qed.

Lemma clearAll_clears (w : World number) :
  ∃ w', authStore.clearAll w = (inr (), w') ∧
    net w' = net w ∧ router_replaced w' = router_replaced w ∧
    (location_href <$> window w') = (location_href <$> window w) ∧
    (∀ k, stored w' k =
          if bool_decide (k = authStore.ACCESS_TOKEN_KEY ∨ k = authStore.ME_KEY)
          then None else stored w k).
Proof.
  unfold authStore.clearAll, stored. js_unfold.
  eexists. split; [done|]. split; [done|]. split; [done|]. simpl.
  destruct (window w) as [win|]; simpl.
  - split; [done|]. intros k. case_bool_decide as Hk.
    + destruct Hk as [->| ->].
      * rewrite lookup_delete_ne by apply session_keys_differ. apply lookup_delete_eq.
      * apply lookup_delete_eq.
    + rewrite !lookup_delete_ne; [done| |]; intros <-; apply Hk; auto.
  - split; [done|]. intros k. by case_bool_decide.
Qed.

Lemma getAccessToken_stored (w : World number) :
  authStore.getAccessToken w = (inr (stored w authStore.ACCESS_TOKEN_KEY), w).
Proof. done. Qed.

Lemma getMe_stored (w : World number) :
  authStore.getMe w =
  (inr (match stored w authStore.ME_KEY with
        | Some (c :: raw) => default VNull (JSON_parse (c :: raw))
        | _ => VNull
        end), w).
Proof.
  unfold authStore.getMe, stored. js_unfold.
  destruct (window w) as [win|]; simpl; [|done].
  by destruct (localStorage win !! authStore.ME_KEY) as [[|c raw]|].
Qed.

(** X16: in the browser [getAccessToken] returns the token last given
    to [setAccessToken] (on the server it returns [null]); storing a
    token leaves the stored user and every other entry of the storage as
    they were. *)
Theorem token_round_trip (t : jstring) (w : World number) :
  let w' := snd (authStore.setAccessToken (VStr t) w) in
  fst (authStore.getAccessToken w') =
    inr (match window w with Some _ => Some t | None => None end) ∧
  fst (authStore.getMe w') = fst (authStore.getMe w) ∧
  ∀ k, k ≠ authStore.ACCESS_TOKEN_KEY -> stored w' k = stored w k.
Proof.
  destruct (setAccessToken_stores t w) as (w' & -> & _ & _ & Hk). cbn [snd].
  rewrite getAccessToken_stored, !getMe_stored. cbn [fst].
  rewrite !Hk. rewrite bool_decide_eq_true_2 by done.
  rewrite bool_decide_eq_false_2 by apply session_keys_differ.
  split; [done|]. split; [done|].
  intros k Hne. rewrite Hk. by rewrite bool_decide_eq_false_2.
Qed.

(** X17: after [clearAll] there is no token and no user in the session,
    every other entry of the storage is as it was, and the request
    interceptor lets a request through as it is given: no bearer is
    added. *)
Theorem clearAll_signs_out (w : World number) :
  let w' := snd (authStore.clearAll w) in
  fst (authStore.getAccessToken w') = inr None ∧
  fst (authStore.getMe w') = inr VNull ∧
  (∀ k, k ≠ authStore.ACCESS_TOKEN_KEY -> k ≠ authStore.ME_KEY -> stored w' k = stored w k) ∧
  ∀ cfg, fst (api.request_interceptor cfg w') = inr cfg.
Proof.
  destruct (clearAll_clears w) as (w' & -> & _ & _ & _ & Hk). cbn [snd].
  rewrite getAccessToken_stored, getMe_stored. cbn [fst].
  rewrite !Hk. rewrite bool_decide_eq_true_2 by (by left).
  rewrite bool_decide_eq_true_2 by (by right).
  split; [done|]. split; [done|]. split.
  - intros k H1 H2. rewrite Hk. rewrite bool_decide_eq_false_2; [done|]. by intros [|].
  - intros cfg. rewrite request_interceptor_eq. cbn [fst]. unfold sent_config.
    change (token_of w') with (stored w' authStore.ACCESS_TOKEN_KEY).
    rewrite Hk. rewrite bool_decide_eq_true_2 by (by left). done.
Qed.

(** X18: the two readers of a refresh response agree: [extractToken] of
    the guard finds in a response the token that [extractAccessToken]
    of api.ts finds in its body. *)
Theorem extractToken_agrees (res : Response number) :
  AuthGuard.extractToken res = api.extractAccessToken (resp_data res).
Proof.
  unfold AuthGuard.extractToken, api.extractAccessToken.
  destruct (resp_data res) as [p|items|props]; [|done|done].
  destruct p as [| |b|n|s]; try done.
  - by destruct b.
  - simpl. by destruct (NumberToBoolean n).
  - by destruct s.
Qed.
End SessionFacts.

(** ** The guard of the admin pages *)
Section GuardFacts.
Import Runtime.
Context `{JSNumber number} `{!JSONOps number}.

Ltac js_unfold :=
  unfold mbind, mret, JS_bind, JS_ret, gets, modify, throw, settled, or_throw, try_catch.

Lemma setAccessToken_value (token : JSVal number) (w : World number) :
  match ToString token with
  | Some t =>
      ∃ w', authStore.setAccessToken token w = (inr (), w') ∧
        net w' = net w ∧ router_replaced w' = router_replaced w ∧
        (∀ k, stored w' k =
              if bool_decide (k = authStore.ACCESS_TOKEN_KEY)
              then match window w with Some _ => Some t | None => None end
              else stored w k)
  | None =>
      window w ≠ None -> authStore.setAccessToken token w = (inl ThrownTypeError, w)
  end.
Proof.
  unfold authStore.setAccessToken, stored. js_unfold.
  destruct (ToString token) as [t|]; destruct (window w) as [win|] eqn:Hw; simpl; try done.
  - eexists. split; [done|]. split; [done|]. split; [done|].
    intros k. simpl. rewrite Hw. simpl. case_bool_decide as Hk.
    + subst k. apply lookup_insert_eq.
    + by apply lookup_insert_ne.
  - exists w. split; [done|]. split; [done|]. split; [done|].
    intros k. rewrite Hw. simpl. by case_bool_decide.
Qed.

Lemma setMe_stores (me : JSVal number) (w : World number) :
  ∃ w', authStore.setMe me w = (inr (), w') ∧
    net w' = net w ∧ router_replaced w' = router_replaced w ∧
    (window w' = None ↔ window w = None) ∧
    (∀ k, k ≠ authStore.ME_KEY -> stored w' k = stored w k).
Proof.
  unfold authStore.setMe, stored. js_unfold.
  eexists. split; [done|]. split; [done|]. split; [done|]. simpl.
  destruct (window w) as [win|]; simpl; [|done]. split; [done|].
  intros k Hk. destruct (ToBoolean me); simpl.
  - by apply lookup_insert_ne.
  - by apply lookup_delete_ne.
Qed.

(** The role check: a user who is not an administrator is signed out to
    ["/login"]; nothing changes otherwise. *)
Lemma check_role_cases (w : World number) :
  ∃ me w', authStore.getMe w = (inr me, w) ∧
    AuthGuard.check_role w = (inr (), w') ∧ net w' = net w ∧
    if AuthGuard.not_admin me
    then guard_signed_out (lit "/login") w'
    else w' = w.
Proof.
  unfold AuthGuard.check_role. js_unfold. rewrite getMe_stored.
  set (me := match stored w authStore.ME_KEY with
             | Some (c :: raw) => default VNull (JSON_parse (c :: raw))
             | _ => VNull
             end).
  destruct (AuthGuard.not_admin me) eqn:Hna.
  - destruct (clearAll_clears w) as (w1 & Hc & Hn & _ & _ & Hk).
    exists me, (set_router_replaced (lit "/login") w1).
    rewrite Hna. cbn beta. rewrite Hc.
    split; [done|]. split; [done|]. split; [done|].
    unfold guard_signed_out.
    change (stored (set_router_replaced (lit "/login") w1)) with (stored w1).
    rewrite !Hk. rewrite bool_decide_eq_true_2 by (by left).
    rewrite bool_decide_eq_true_2 by (by right). done.
  - exists me, w. by rewrite Hna.
Qed.

(** X19: with a token in the session the guard sends nothing; when the
    stored user has a role other than ["ADMIN"] it clears the session
    and sends the router to ["/login"], and otherwise it leaves the
    state as it is. *)
Theorem guard_run_with_token (pathname : jstring) (w : World number) :
  truthy (stored w authStore.ACCESS_TOKEN_KEY) = true ->
  is_Some (encodeURIComponent (or_else pathname (lit "/admin"))) ->
  ∃ me w', authStore.getMe w = (inr me, w) ∧
    AuthGuard.run pathname w = (inr (), w') ∧ net w' = net w ∧
    if AuthGuard.not_admin me
    then guard_signed_out (lit "/login") w'
    else w' = w.
Proof.
  intros Htok [enc Henc]. unfold AuthGuard.run. js_unfold.
  rewrite Henc, getAccessToken_stored, Htok.
  destruct (check_role_cases w) as (me & w' & Hme & Hrole & Hn & Hcase).
  exists me, w'. by rewrite Hrole.
Qed.

Lemma guard_signed_out_clearAll (next : jstring) (w : World number) :
  guard_signed_out next (set_router_replaced next (snd (authStore.clearAll w))).
Proof.
  destruct (clearAll_clears w) as (w1 & -> & Hn & _ & _ & Hk).
  unfold guard_signed_out. simpl.
  change (stored (set_router_replaced next w1)) with (stored w1).
  rewrite !Hk. rewrite bool_decide_eq_true_2 by (by left).
  rewrite bool_decide_eq_true_2 by (by right). done.
Qed.

Lemma guard_resume_cases (next : jstring) (r : thrown number + Response number)
    (w : World number) :
  window w ≠ None ->
  ∃ w', AuthGuard.run_resume next r w = (inr (), w') ∧ net w' = net w ∧
        guard_outcome next r w w'.
Proof.
  unfold guard_outcome.
  intros Hwin.
  pose proof (browser_only_run_resume next r w) as Hnet.
  unfold AuthGuard.run_resume in *. revert Hnet. js_unfold.
  destruct r as [e|res]; simpl.
  { intros Hnet. eexists. split; [done|]. split; [done|].
    apply guard_signed_out_clearAll. }
  pose proof (setAccessToken_value (AuthGuard.extractToken res) w) as Hset.
  destruct (ToBoolean (AuthGuard.extractToken res)) eqn:Htrue; simpl.
  2:{ intros Hnet. eexists. split; [done|]. split; [done|].
      destruct (ToString _); apply guard_signed_out_clearAll. }
  destruct (ToString (AuthGuard.extractToken res)) as [t|] eqn:Hstr.
  2:{ rewrite (Hset Hwin). simpl. intros Hnet. eexists. split; [done|]. split; [done|].
      apply guard_signed_out_clearAll. }
  destruct Hset as (w1 & -> & Hn1 & Hr1 & Hk1). simpl.
  set (user := nullish _ _).
  assert (Huser : ∃ w2, (if ToBoolean user then authStore.setMe user else mret ()) w1 = (inr (), w2) ∧
            router_replaced w2 = router_replaced w1 ∧
            (∀ k, k ≠ authStore.ME_KEY -> stored w2 k = stored w1 k)).
  { destruct (ToBoolean user).
    - destruct (setMe_stores user w1) as (w2 & -> & _ & ? & _ & ?). eauto.
    - exists w1. done. }
  destruct Huser as (w2 & Hw2 & Hr2 & Hk2).
  unfold mret, JS_ret in Hw2. rewrite Hw2. simpl.
  destruct (check_role_cases w2) as (me & w3 & _ & -> & _ & Hcase). simpl.
  intros Hnet. exists w3. split; [done|]. split; [done|].
  destruct (AuthGuard.not_admin me); [by left|]. subst w3. right.
  rewrite Hk2, Hk1 by (intros Heq; symmetry in Heq; by apply session_keys_differ in Heq).
  rewrite bool_decide_eq_true_2 by done.
  destruct (window w); [|done]. split; [done | congruence].
Qed.
End GuardFacts.

(** ** The answer to the guard's refresh *)
Section GuardReplyFacts.
Import Runtime.
Context `{JSNumber number} `{!JSONOps number}.

Ltac js_unfold :=
  unfold mbind, mret, JS_bind, JS_ret, gets, modify, throw, settled, or_throw, try_catch.

Lemma deliver_guard next r (w : World number) :
  EventLoop.deliver (Guard next) r w =
  (inr (), snd (AuthGuard.run_resume next r (add_log (Delivered (Guard next) r) w))).
Proof.
  unfold EventLoop.deliver, EventLoop.attempt. js_unfold. simpl.
  by destruct (AuthGuard.run_resume next r _).
Qed.

Lemma api_settles_guard cfg next rep (w : World number) :
  includes (default [] (url cfg)) endpoints.auth_refresh = true ->
  EventLoop.api_settles cfg (Guard next) (EventLoop.axios_settle cfg rep) w =
  EventLoop.deliver (Guard next) (EventLoop.axios_settle cfg rep) w.
Proof.
  intros Hincl. unfold EventLoop.api_settles.
  destruct (EventLoop.axios_settle cfg rep) as [e|res] eqn:Hrep; [|done].
  destruct (axios_settle_thrown _ _ _ Hrep) as [err ->].
  pose proof (axios_settle_config _ _ _ Hrep) as Hcfg.
  unfold EventLoop.attempt. js_unfold.
  destruct (onRejected_cases err w)
    as [->|(original & p & w1 & Hc & _ & Hi & _)]; [done|].
  rewrite Hcfg in Hc. injection Hc as <-. congruence.
Qed.

(** X21: the answer to the guard's own refresh POST goes to the guard
    and to nothing else: whatever the answer (a 401 included), the
    response interceptor starts no refresh and re-issues nothing, the
    request leaves the requests in flight, and the guard ends in one of
    its two ways. *)
Theorem guard_reply_outcome win (w : World number) i cfg next rep :
  EventLoop.reachable win w ->
  window w ≠ None ->
  pending w !! i = Some (ViaApi cfg (Guard next)) ->
  let r := EventLoop.axios_settle cfg rep in
  let w' := EventLoop.step w (EventLoop.Reply i rep) in
  net w' = net (add_log (Delivered (Guard next) r) (set_pending (delete i) w)) ∧
  guard_outcome next r w w'.
Proof.
  intros Hreach Hwin Hi r w'. subst r w'.
  pose proof (reachable_single_flight _ _ Hreach) as [_ _ _ H4].
  rewrite (step_reply_api _ _ _ _ _ Hi).
  rewrite api_settles_guard by (eapply H4, list_elem_of_lookup_2; eauto).
  rewrite deliver_guard. cbn [snd].
  destruct (guard_resume_cases next (EventLoop.axios_settle cfg rep)
              (add_log (Delivered (Guard next) (EventLoop.axios_settle cfg rep))
                 (set_pending (delete i) w)) Hwin) as (w1 & -> & Hn & Hout).
  split; [done|]. exact Hout.
Qed.
End GuardReplyFacts.

(** ** Every call settles once *)
Section SettlesOnceFacts.
Import Runtime.
Context `{JSNumber number} `{!JSONOps number}.

Ltac js_unfold :=
  unfold mbind, mret, JS_bind, JS_ret, gets, modify, throw, settled, or_throw, try_catch.

Ltac net_fields H :=
  unfold net in H; simpl in H;
  injection H as ?Hrefreshing ?Hnext_promise ?Hnext_call ?Hpending ?Hwaiters ?Hlog.

Lemma delivered_count_app c (l1 l2 : list (action number)) :
  delivered_count c (l1 ++ l2) = (delivered_count c l1 + delivered_count c l2)%nat.
Proof.
  induction l1 as [|a l1 IH]; simpl; [done|].
  destruct a; rewrite IH; lia.
Qed.

Lemma delivered_count_snoc c (l : list (action number)) a :
  is_delivered a = false -> delivered_count c (l ++ [a]) = delivered_count c l.
Proof. intros Ha. rewrite delivered_count_app. destruct a; simpl in *; try done; lia. Qed.

Lemma delivered_count_deliver c c' x (l : list (action number)) :
  delivered_count c (l ++ [Delivered c' x]) =
  (delivered_count c l + (if caller_eqb c' c then 1 else 0))%nat.
Proof. rewrite delivered_count_app. simpl. lia. Qed.

Lemma settles_once_ext (w w' : World number) :
  next_call w' = next_call w -> pending w' = pending w ->
  waiters w' = waiters w -> log w' = log w ->
  settles_once w -> settles_once w'.
Proof.
  intros Hnc Hp Hw Hl [S1 S2 S3].
  constructor; unfold live_count in *; rewrite ?Hnc, ?Hp, ?Hw, ?Hl; done.
Qed.

Lemma settles_once_net (w w' : World number) :
  net w' = net w -> settles_once w -> settles_once w'.
Proof. intros Hn. net_fields Hn. by apply settles_once_ext. Qed.

Lemma settles_once_init win : settles_once (EventLoop.init (number:=number) win).
Proof.
  constructor; unfold live_count; simpl.
  - intros call Hc. lia.
  - intros call _. by rewrite !count_nil.
  - intros wt Hwt. by apply elem_of_nil in Hwt.
Qed.

Lemma settles_once_log a (w : World number) :
  is_delivered a = false -> settles_once w -> settles_once (add_log a w).
Proof.
  intros Ha [S1 S2 S3].
  constructor; unfold live_count in *; simpl; intros;
    rewrite ?delivered_count_snoc by done; eauto.
Qed.

(** A request in flight belongs to a call already made. *)
Lemma settles_once_pending_made cfg call (w : World number) :
  settles_once w -> ViaApi cfg (App call) ∈ pending w -> (call < next_call w)%nat.
Proof.
  intros [_ S2 _] Hin.
  destruct (decide (call < next_call w)%nat) as [|Hge]; [done|].
  destruct (S2 call) as [Hlive _]; [lia|]. unfold live_count in Hlive.
  apply list_elem_of_split in Hin as (l1 & l2 & Hl).
  rewrite Hl, count_app, count_cons in Hlive. simpl in Hlive.
  rewrite bool_decide_eq_true_2 in Hlive by done. lia.
Qed.

Lemma settles_once_waiter_made wt call (w : World number) :
  settles_once w -> wt ∈ waiters w -> waiting_for wt = App call ->
  (call < next_call w)%nat.
Proof.
  intros [_ S2 _] Hin Hcall.
  destruct (decide (call < next_call w)%nat) as [|Hge]; [done|].
  destruct (S2 call) as [Hlive _]; [lia|]. unfold live_count in Hlive.
  apply list_elem_of_split in Hin as (l1 & l2 & Hl).
  rewrite Hl, (count_app _ l1), count_cons, Hcall, caller_eqb_refl in Hlive. lia.
Qed.

Lemma settles_once_send cfg (w : World number) :
  settles_once w -> settles_once (EventLoop.step w (EventLoop.Send cfg)).
Proof.
  intros [S1 S2 S3]. rewrite step_send.
  constructor; unfold live_count in *; simpl.
  - intros call Hc. rewrite count_app, count_cons, count_nil. simpl.
    rewrite delivered_count_snoc by done.
    case_bool_decide as Heq.
    + subst call. destruct (S2 (next_call w)) as [Hl Hd]; [lia|]. lia.
    + specialize (S1 call). lia.
  - intros call Hc. rewrite count_app, count_cons, count_nil. simpl.
    rewrite delivered_count_snoc by done.
    destruct (S2 call) as [Hl Hd]; [lia|].
    rewrite bool_decide_eq_false_2 by lia. split; [lia | done].
  - done.
Qed.

Lemma settles_once_add_guard cfg next (w : World number) :
  settles_once w -> settles_once (set_pending (λ l, l ++ [ViaApi cfg (Guard next)]) w).
Proof.
  intros [S1 S2 S3].
  constructor; unfold live_count in *; simpl; try done.
  - intros call Hc. rewrite count_app, count_cons, count_nil. simpl.
    specialize (S1 call Hc). lia.
  - intros call Hc. rewrite count_app, count_cons, count_nil. simpl.
    destruct (S2 call Hc). split; [lia | done].
Qed.

Lemma settles_once_deliver i cfg c x (w : World number) :
  pending w !! i = Some (ViaApi cfg c) ->
  settles_once w ->
  settles_once (add_log (Delivered c x) (set_pending (delete i) w)).
Proof.
  intros Hi Hso.
  assert (Hmade : ∀ call, c = App call -> (call < next_call w)%nat).
  { intros call ->. eapply settles_once_pending_made; [done|].
    eapply list_elem_of_lookup_2; eauto. }
  destruct Hso as [S1 S2 S3].
  constructor; unfold live_count in *; simpl; try done.
  - intros call Hc. specialize (S1 call Hc).
    rewrite (count_delete _ _ _ _ Hi) in S1. simpl in S1.
    rewrite delivered_count_deliver. lia.
  - intros call Hc. destruct (S2 call Hc) as [Hl Hd].
    rewrite (count_delete _ _ _ _ Hi) in Hl.
    rewrite delivered_count_deliver, Hd.
    rewrite caller_eqb_neq; [split; lia|].
    intros ->. specialize (Hmade call eq_refl). lia.
Qed.

Lemma settles_once_suspend i cfg cfg' call p (w w1 : World number) :
  pending w !! i = Some (ViaApi cfg (App call)) ->
  api.refreshAccessToken (set_pending (delete i) w) = (inr p, w1) ->
  settles_once w ->
  settles_once (set_waiters (λ l, l ++ [mkWaiter p cfg' (App call)]) w1).
Proof.
  intros Hi Hp [S1 S2 S3].
  assert (Hshape :
    next_call w1 = next_call w ∧ waiters w1 = waiters w ∧
    (∀ c, delivered_count c (log w1) = delivered_count c (log w)) ∧
    (∀ c, EventLoop.count (pending_for c) (pending w1) =
          EventLoop.count (pending_for c) (delete i (pending w)))).
  { destruct (refreshAccessToken_cases (set_pending (delete i) w))
      as [(p' & Hr & Hp')|(Hr & Hp')]; rewrite Hp' in Hp; injection Hp as <- <-; simpl.
    - repeat split; done.
    - repeat split; try done.
      + intros c. by rewrite delivered_count_snoc.
      + intros c. rewrite count_app, count_cons, count_nil. simpl. lia. }
  destruct Hshape as (Hnc & Hw & Hlog & Hcount).
  constructor; unfold live_count in *; simpl; rewrite ?Hnc, ?Hw.
  - intros call' Hc. rewrite Hcount, count_app, count_cons, count_nil, Hlog. simpl.
    specialize (S1 call' Hc). rewrite (count_delete _ _ _ _ Hi) in S1. simpl in S1. lia.
  - intros call' Hc. rewrite Hcount, count_app, count_cons, count_nil, Hlog. simpl.
    destruct (S2 call' Hc) as [Hl Hd]. rewrite (count_delete _ _ _ _ Hi) in Hl.
    simpl in Hl. split; [lia | done].
  - intros wt [Hin|Hin]%elem_of_app; [by apply S3|].
    apply list_elem_of_singleton in Hin as ->. simpl. eauto.
Qed.

(** One handler resumes: the accounting holds with the handlers still
    to resume taken as the suspended ones. *)
Lemma settles_once_resume_waiter r wt rest (w : World number) :
  settles_once (set_waiters (λ _, wt :: rest) w) ->
  settles_once (set_waiters (λ _, rest) (snd (EventLoop.resume_waiter r wt w))).
Proof.
  intros Hso.
  destruct (so_app_waiters _ Hso wt) as [call Hcall]; [left|].
  assert (Hmade : (call < next_call w)%nat).
  { eapply (settles_once_waiter_made wt call _ Hso); [left | done]. }
  destruct Hso as [S1 S2 S3]. unfold live_count in *. simpl in *.
  destruct (resume_waiter_cases r wt w) as [(cfg & Hcfg & ->)|(e & w1 & Hn & ->)].
  - rewrite Hcall. simpl.
    constructor; unfold live_count; simpl.
    + intros call' Hc. rewrite count_app, count_cons, count_nil. simpl.
      rewrite delivered_count_snoc by done.
      specialize (S1 call' Hc). rewrite count_cons, Hcall in S1. simpl in S1. lia.
    + intros call' Hc. rewrite count_app, count_cons, count_nil. simpl.
      rewrite delivered_count_snoc by done.
      destruct (S2 call' Hc) as [Hl Hd]. rewrite count_cons, Hcall in Hl. simpl in Hl.
      split; [lia | done].
    + intros x Hx. apply S3. by right.
  - rewrite Hcall, deliver_app. simpl. net_fields Hn.
    constructor; unfold live_count; simpl;
      rewrite ?Hnext_call, ?Hpending, ?Hlog; simpl.
    + intros call' Hc. rewrite delivered_count_deliver. simpl.
      specialize (S1 call' Hc). rewrite count_cons, Hcall in S1. simpl in S1. lia.
    + intros call' Hc. rewrite delivered_count_deliver. simpl.
      destruct (S2 call' Hc) as [Hl Hd]. rewrite count_cons, Hcall in Hl. simpl in Hl.
      rewrite bool_decide_eq_false_2 by lia. split; lia.
    + intros x Hx. apply S3. by right.
Qed.

Lemma settles_once_resume_all r wts (w : World number) :
  settles_once (set_waiters (λ _, wts) w) ->
  settles_once (set_waiters (λ _, []) (snd (EventLoop.resume_all r wts w))).
Proof.
  revert w. induction wts as [|wt rest IH]; intros w Hinv; [done|].
  rewrite resume_all_cons. apply IH. by apply settles_once_resume_waiter.
Qed.

Lemma settles_once_remove_refresh i p (w : World number) :
  pending w !! i = Some (RefreshPost p) ->
  settles_once w -> settles_once (set_pending (delete i) w).
Proof.
  intros Hi [S1 S2 S3].
  constructor; unfold live_count in *; simpl; try done.
  - intros call Hc. specialize (S1 call Hc).
    rewrite (count_delete _ _ _ _ Hi) in S1. simpl in S1. lia.
  - intros call Hc. destruct (S2 call Hc) as [Hl Hd]. split; [|done].
    rewrite (count_delete _ _ _ _ Hi) in Hl. simpl in Hl. lia.
Qed.

Lemma settles_once_refresh_settles i p r (w : World number) :
  pending w !! i = Some (RefreshPost p) ->
  single_flight w -> settles_once w ->
  settles_once (snd (EventLoop.refresh_settles p r (set_pending (delete i) w))).
Proof.
  intros Hi Hsf Hso.
  pose proof (refresh_post_promise _ _ _ Hi Hsf) as Hr.
  pose proof (waiters_await_refreshing _ _ Hsf Hr) as Hall.
  destruct (filter_all_awaited p (waiters w) Hall) as [Hyes Hno].
  unfold EventLoop.refresh_settles, api.refresh_finally. js_unfold.
  pose proof (browser_only_attempt _ (browser_only_refresh_body r)
                (set_pending (delete i) w)) as Hb.
  unfold EventLoop.attempt in *.
  destruct (api.refresh_body r _) as [out w1]; simpl in *.
  net_fields Hb. rewrite Hwaiters, Hyes.
  match goal with |- context [@EventLoop.resume_all _ _ _ ?r ?wts ?w0] =>
    pose proof (settles_once_resume_all r wts w0) as Hloop;
    destruct (resume_all_shape r wts w0) as (w' & extra & Hres & _ & Hw' & _)
  end.
  { intros wt Hin. destruct Hsf as [_ H2 _ _]. by destruct (H2 wt Hin). }
  rewrite Hres in *. simpl in *. rewrite Hwaiters, Hno in Hw'.
  eapply settles_once_ext; [| | | |apply Hloop]; simpl; try done.
  eapply settles_once_ext; [| | | |eapply (settles_once_remove_refresh i), Hso]; simpl; eauto.
Qed.

Lemma settles_once_step (w : World number) ev :
  single_flight w -> settles_once w -> settles_once (EventLoop.step w ev).
Proof.
  intros Hsf Hso. destruct ev as [cfg|i rep|pathname].
  - by apply settles_once_send.
  - destruct (pending w !! i) as [[cfg c|p]|] eqn:Hi.
    + rewrite (step_reply_api _ _ _ _ _ Hi).
      destruct (api_settles_cases cfg c rep (set_pending (delete i) w))
        as [(x & w' & -> & Hn)|(Hincl & Hre & p & w1 & Hp & ->)]; simpl.
      * eapply settles_once_net; [exact Hn|]. by eapply settles_once_deliver.
      * destruct c as [call|n].
        -- eapply settles_once_suspend; eauto.
        -- destruct Hsf as [_ _ _ H4].
           rewrite (H4 cfg n) in Hincl; [done|].
           eapply list_elem_of_lookup_2; eauto.
    + rewrite (step_reply_refresh _ _ _ _ Hi).
      by apply settles_once_refresh_settles.
    + by rewrite step_reply_none.
  - destruct (step_guard pathname w) as [Hn|[next ->]].
    + eapply settles_once_net; eauto.
    + by apply settles_once_add_guard.
Qed.

Lemma reachable_settles_once win (w : World number) :
  EventLoop.reachable win w -> settles_once w.
Proof.
  induction 1 as [|w ev Hreach IH]; [apply settles_once_init|].
  apply settles_once_step; [|done]. by eapply reachable_single_flight.
Qed.
(** X22: every call the application makes through [api] is settled
    exactly once.  At any moment a call already made is either under way
    (its request in flight, or its handler awaiting the refresh) or
    settled, never both and never twice; and when no request is in
    flight every call made has been settled once: no caller is left
    waiting. *)
Theorem every_call_settles_once win (w : World number) :
  EventLoop.reachable win w ->
  (∀ call, (call < next_call w)%nat ->
     (live_count (App call) w + delivered_count (App call) (log w) = 1)%nat) ∧
  (∀ call, (next_call w ≤ call)%nat -> delivered_count (App call) (log w) = 0%nat) ∧
  (pending w = [] ->
   ∀ call, (call < next_call w)%nat -> delivered_count (App call) (log w) = 1%nat).
Proof.
  intros Hreach.
  pose proof (reachable_settles_once _ _ Hreach) as [S1 S2 S3].
  pose proof (reachable_single_flight _ _ Hreach) as [F1 F2 F3 F4].
  split; [exact S1|]. split; [intros call Hc; by destruct (S2 call Hc)|].
  intros Hp call Hc. specialize (S1 call Hc).
  assert (Hw : waiters w = []).
  { destruct (refreshing w) as [p|] eqn:Hr.
    - rewrite Hp in F1. done.
    - destruct (waiters w) as [|wt l]; [done|].
      destruct (F2 wt) as [Hwt _]; [left | done]. }
  unfold live_count in S1. rewrite Hp, Hw, !count_nil in S1. exact S1.
Qed.
End SettlesOnceFacts.

(** ** A retry re-issues the request of its caller *)
Section TracedFacts.
Import Runtime.
Context `{JSNumber number} `{!JSONOps number}.

Ltac js_unfold :=
  unfold mbind, mret, JS_bind, JS_ret, gets, modify, throw, settled, or_throw, try_catch.

Ltac net_fields H :=
  unfold net in H; simpl in H;
  injection H as ?Hrefreshing ?Hnext_promise ?Hnext_call ?Hpending ?Hwaiters ?Hlog.

Lemma same_request_refl (cfg : Config number) : same_request cfg cfg.
Proof. by repeat split. Qed.

Lemma same_request_trans (a b c : Config number) :
  same_request a b -> same_request b c -> same_request a c.
Proof.
  intros (H1 & H2 & H3 & H4) (G1 & G2 & G3 & G4).
  repeat split; try congruence. intros k Hk. rewrite H4, G4; done.
Qed.

Lemma same_request_with_bearer t (cfg : Config number) :
  same_request cfg (with_bearer t cfg).
Proof.
  repeat split. intros k Hk. unfold header, with_bearer. simpl.
  by rewrite lookup_insert_ne.
Qed.

Lemma same_request_sent (cfg : Config number) (w : World number) :
  same_request cfg (sent_config cfg w).
Proof.
  unfold sent_config. destruct (truthy (token_of w));
    [apply same_request_with_bearer | apply same_request_refl].
Qed.

Lemma same_request_set_retry b (cfg : Config number) :
  same_request cfg (set_retry b cfg).
Proof. by repeat split. Qed.

Lemma traced_ext (w w' : World number) :
  next_call w' = next_call w -> pending w' = pending w ->
  waiters w' = waiters w -> log w' = log w ->
  traced w -> traced w'.
Proof.
  intros Hnc Hp Hw Hl [T1 T2 T3 T4 T5].
  constructor; rewrite ?Hnc, ?Hp, ?Hw, ?Hl; done.
Qed.

Lemma traced_net (w w' : World number) :
  net w' = net w -> traced w -> traced w'.
Proof. intros Hn. net_fields Hn. by apply traced_ext. Qed.

Lemma traced_init win : traced (EventLoop.init (number:=number) win).
Proof.
  constructor; simpl; intros;
    repeat match goal with
           | Hx : _ ∈ [] |- _ => apply elem_of_nil in Hx; destruct Hx
           end.
Qed.

Lemma elem_of_snoc_other (a b : action number) (l : list (action number)) :
  is_request a = false -> is_request b = true -> b ∈ l ++ [a] -> b ∈ l.
Proof.
  intros Ha Hb [Hin|Hin]%elem_of_app; [done|].
  apply list_elem_of_singleton in Hin as ->. congruence.
Qed.

Lemma traced_log a (w : World number) :
  is_request a = false -> traced w -> traced (add_log a w).
Proof.
  intros Ha [T1 T2 T3 T4 T5]. constructor; simpl.
  - intros cfg call Hin. destruct (T1 _ _ Hin) as (cfg0 & H0 & Hs).
    exists cfg0. split; [apply elem_of_app; by left | done].
  - intros wt Hin. destruct (T2 _ Hin) as (cfg0 & H0 & Hs).
    exists cfg0. split; [apply elem_of_app; by left | done].
  - intros c cfg Hin%(elem_of_snoc_other a); [|done|done].
    destruct (T3 _ _ Hin) as (cfg0 & H0 & Hs).
    exists cfg0. split; [apply elem_of_app; by left | done].
  - intros c cfg Hin%(elem_of_snoc_other a); [|done|done]. by eapply T4.
  - intros c cfg1 cfg2 H1%(elem_of_snoc_other a) H2%(elem_of_snoc_other a); try done.
    by eapply T5.
Qed.

Lemma traced_remove i e (w : World number) :
  pending w !! i = Some e -> traced w -> traced (set_pending (delete i) w).
Proof.
  intros Hi [T1 T2 T3 T4 T5]. constructor; simpl; try done.
  intros cfg call Hin. apply T1. by eapply elem_of_delete.
Qed.

Lemma traced_send cfg (w : World number) :
  traced w -> traced (EventLoop.step w (EventLoop.Send cfg)).
Proof.
  intros [T1 T2 T3 T4 T5]. rewrite step_send. constructor; simpl.
  - intros cfg' call [Hin|Hin]%elem_of_app.
    + destruct (T1 _ _ Hin) as (cfg0 & H0 & Hs).
      exists cfg0. split; [apply elem_of_app; by left | done].
    + apply list_elem_of_singleton in Hin. injection Hin as -> <-.
      exists (sent_config cfg w). split; [|apply same_request_refl].
      apply elem_of_app. right. left.
  - intros wt Hin. destruct (T2 _ Hin) as (cfg0 & H0 & Hs).
    exists cfg0. split; [apply elem_of_app; by left | done].
  - intros c cfg' [Hin|Hin]%elem_of_app; [|by apply list_elem_of_singleton in Hin].
    destruct (T3 _ _ Hin) as (cfg0 & H0 & Hs).
    exists cfg0. split; [apply elem_of_app; by left | done].
  - intros c cfg' [Hin|Hin]%elem_of_app.
    + destruct (T4 _ _ Hin) as (call & -> & Hlt). exists call. split; [done | lia].
    + apply list_elem_of_singleton in Hin. injection Hin as -> _.
      exists (next_call w). split; [done | lia].
  - intros c cfg1 cfg2 [H1|H1]%elem_of_app [H2|H2]%elem_of_app.
    + by eapply T5.
    + apply list_elem_of_singleton in H2. injection H2 as -> _.
      destruct (T4 _ _ H1) as (call & [= <-] & Hlt). lia.
    + apply list_elem_of_singleton in H1. injection H1 as -> _.
      destruct (T4 _ _ H2) as (call & [= <-] & Hlt). lia.
    + apply list_elem_of_singleton in H1. apply list_elem_of_singleton in H2. congruence.
Qed.

Lemma traced_add_guard cfg next (w : World number) :
  traced w -> traced (set_pending (λ l, l ++ [ViaApi cfg (Guard next)]) w).
Proof.
  intros [T1 T2 T3 T4 T5]. constructor; simpl; try done.
  intros cfg' call [Hin|Hin]%elem_of_app; [by apply T1|].
  by apply list_elem_of_singleton in Hin.
Qed.

Lemma traced_start_refresh (w : World number) : traced w -> traced (start_refresh w).
Proof.
  intros Htr.
  apply (traced_ext
           (add_log (RefreshStarted (next_promise w))
              (set_pending (λ l, l ++ [RefreshPost (next_promise w)]) w)));
    try done.
  apply traced_log; [done|].
  destruct Htr as [T1 T2 T3 T4 T5]. constructor; simpl; try done.
  intros cfg' call' [Hin|Hin]%elem_of_app; [by apply T1|].
  by apply list_elem_of_singleton in Hin.
Qed.

Lemma traced_suspend i cfg call p (w w1 : World number) :
  pending w !! i = Some (ViaApi cfg (App call)) ->
  api.refreshAccessToken (set_pending (delete i) w) = (inr p, w1) ->
  traced w ->
  traced (set_waiters (λ l, l ++ [mkWaiter p (set_retry true cfg) (App call)]) w1).
Proof.
  intros Hi Hp Htr.
  assert (Hcfg : ∃ cfg0, Requested (App call) cfg0 ∈ log w ∧ same_request cfg0 cfg).
  { apply (tr_pending _ Htr). eapply list_elem_of_lookup_2; eauto. }
  pose proof (traced_remove _ _ _ Hi Htr) as Htr0.
  assert (Htr1 : traced w1 ∧ waiters w1 = waiters w ∧ ∀ a, a ∈ log w -> a ∈ log w1).
  { destruct (refreshAccessToken_cases (set_pending (delete i) w))
      as [(p' & Hr & Hp')|(Hr & Hp')]; rewrite Hp' in Hp; injection Hp as <- <-.
    - done.
    - split; [by apply traced_start_refresh|]. split; [done|].
      intros a Ha. simpl. apply elem_of_app. by left. }
  destruct Htr1 as ([T1 T2 T3 T4 T5] & Hw & Hlog).
  constructor; simpl; try done.
  intros wt [Hin|Hin]%elem_of_app; [by apply T2|].
  apply list_elem_of_singleton in Hin as ->. simpl.
  destruct Hcfg as (cfg0 & H0 & Hs). exists cfg0. split; [by apply Hlog|].
  eapply same_request_trans; [exact Hs | apply same_request_set_retry].
Qed.

(** The request a resumed handler re-issues is its original one with the
    new bearer. *)
Lemma resume_waiter_reissue r wt (w : World number) :
  (∃ s, EventLoop.resume_waiter r wt w =
     (inr (), add_log (Retried (waiting_for wt)
                         (sent_config (with_bearer s (original wt)) w))
                (set_pending
                   (λ l, l ++ [ViaApi (sent_config (with_bearer s (original wt)) w)
                                 (waiting_for wt)]) w))) ∨
  (∃ e w1, net w1 = net w ∧
     EventLoop.resume_waiter r wt w = EventLoop.deliver (waiting_for wt) (inl e) w1).
Proof.
  unfold EventLoop.resume_waiter, EventLoop.attempt. js_unfold.
  destruct (onRejected_resume_cases (original wt) r w)
    as [(tok & s & -> & Hs & ->)|(e & w1 & -> & Hn)]; simpl.
  - left. exists s. by rewrite api_request_eq.
  - right. eauto.
Qed.

Lemma traced_resume_waiter r wt rest (w : World number) :
  (∃ call, waiting_for wt = App call) ->
  traced (set_waiters (λ _, wt :: rest) w) ->
  traced (set_waiters (λ _, rest) (snd (EventLoop.resume_waiter r wt w))).
Proof.
  intros [call Hcall] [T1 T2 T3 T4 T5]. simpl in *.
  destruct (T2 wt) as (cfg0 & H0 & Hs); [left|].
  destruct (resume_waiter_reissue r wt w) as [(s & ->)|(e & w1 & Hn & ->)].
  - simpl.
    assert (Hsame : same_request cfg0 (sent_config (with_bearer s (original wt)) w)).
    { eapply same_request_trans; [exact Hs|].
      eapply same_request_trans; [apply same_request_with_bearer | apply same_request_sent]. }
    constructor; simpl.
    + intros cfg call' [Hin|Hin]%elem_of_app.
      * destruct (T1 _ _ Hin) as (cfg1 & H1 & Hs1).
        exists cfg1. split; [apply elem_of_app; by left | done].
      * apply list_elem_of_singleton in Hin. injection Hin as -> Hc.
        exists cfg0. rewrite Hc. split; [apply elem_of_app; by left | done].
    + intros x Hx. destruct (T2 x) as (cfg1 & H1 & Hs1); [by right|].
      exists cfg1. split; [apply elem_of_app; by left | done].
    + intros c cfg [Hin|Hin]%elem_of_app.
      * destruct (T3 _ _ Hin) as (cfg1 & H1 & Hs1).
        exists cfg1. split; [apply elem_of_app; by left | done].
      * apply list_elem_of_singleton in Hin. injection Hin as -> ->.
        exists cfg0. split; [apply elem_of_app; by left | done].
    + intros c cfg [Hin|Hin]%elem_of_app; [by eapply T4|].
      by apply list_elem_of_singleton in Hin.
    + intros c cfg1 cfg2 [H1|H1]%elem_of_app [H2|H2]%elem_of_app;
        try (by apply list_elem_of_singleton in H1);
        try (by apply list_elem_of_singleton in H2).
      by eapply T5.
  - rewrite Hcall, deliver_app. simpl. net_fields Hn.
    eapply traced_ext;
      [| | | |apply (traced_log (Delivered (App call) (inl e))
                       (set_waiters (λ _, rest) w))]; simpl; try done.
    + by rewrite Hlog.
    + constructor; simpl; try done. intros x Hx. apply T2. by right.
Qed.

Lemma traced_resume_all r wts (w : World number) :
  (∀ wt, wt ∈ wts -> ∃ call, waiting_for wt = App call) ->
  traced (set_waiters (λ _, wts) w) ->
  traced (set_waiters (λ _, []) (snd (EventLoop.resume_all r wts w))).
Proof.
  revert w. induction wts as [|wt rest IH]; intros w Happ Hinv; [done|].
  rewrite resume_all_cons. apply IH; [intros; apply Happ; by right|].
  apply traced_resume_waiter; [apply Happ; left | done].
Qed.

Lemma traced_refresh_settles i p r (w : World number) :
  pending w !! i = Some (RefreshPost p) ->
  single_flight w -> traced w ->
  traced (snd (EventLoop.refresh_settles p r (set_pending (delete i) w))).
Proof.
  intros Hi Hsf Htr.
  pose proof (refresh_post_promise _ _ _ Hi Hsf) as Hr.
  pose proof (waiters_await_refreshing _ _ Hsf Hr) as Hall.
  destruct (filter_all_awaited p (waiters w) Hall) as [Hyes Hno].
  assert (Happ : ∀ wt, wt ∈ waiters w -> ∃ call, waiting_for wt = App call).
  { intros wt Hin. destruct Hsf as [_ H2 _ _]. by destruct (H2 wt Hin). }
  unfold EventLoop.refresh_settles, api.refresh_finally. js_unfold.
  pose proof (browser_only_attempt _ (browser_only_refresh_body r)
                (set_pending (delete i) w)) as Hb.
  unfold EventLoop.attempt in *.
  destruct (api.refresh_body r _) as [out w1]; simpl in *.
  net_fields Hb. rewrite Hwaiters, Hyes.
  match goal with |- context [@EventLoop.resume_all _ _ _ ?r ?wts ?w0] =>
    pose proof (traced_resume_all r wts w0 Happ) as Hloop;
    destruct (resume_all_shape r wts w0 Happ) as (w' & extra & Hres & _ & Hw' & _)
  end.
  rewrite Hres in *. simpl in *. rewrite Hwaiters, Hno in Hw'.
  eapply traced_ext; [| | | |apply Hloop]; simpl; try done.
  eapply traced_ext; [| | | |eapply (traced_remove i), Htr]; simpl; eauto.
Qed.

Lemma traced_step (w : World number) ev :
  single_flight w -> traced w -> traced (EventLoop.step w ev).
Proof.
  intros Hsf Htr. destruct ev as [cfg|i rep|pathname].
  - by apply traced_send.
  - destruct (pending w !! i) as [[cfg c|p]|] eqn:Hi.
    + rewrite (step_reply_api _ _ _ _ _ Hi).
      destruct (api_settles_cases cfg c rep (set_pending (delete i) w))
        as [(x & w' & -> & Hn)|(Hincl & Hre & p & w1 & Hp & ->)]; simpl.
      * eapply traced_net; [exact Hn|].
        apply traced_log; [done|]. by eapply traced_remove.
      * destruct c as [call|n].
        -- eapply traced_suspend; eauto.
        -- destruct Hsf as [_ _ _ H4].
           rewrite (H4 cfg n) in Hincl; [done|].
           eapply list_elem_of_lookup_2; eauto.
    + rewrite (step_reply_refresh _ _ _ _ Hi).
      by apply traced_refresh_settles.
    + by rewrite step_reply_none.
  - destruct (step_guard pathname w) as [Hn|[next ->]].
    + eapply traced_net; eauto.
    + by apply traced_add_guard.
Qed.

Lemma reachable_traced win (w : World number) :
  EventLoop.reachable win w -> traced w.
Proof.
  induction 1 as [|w ev Hreach IH]; [apply traced_init|].
  apply traced_step; [|done]. by eapply reachable_single_flight.
Qed.
(** X23: a request re-issued after a refresh is the request its caller
    made: the caller made one request, and the re-issued one has its
    address, method, body and headers, the [Authorization] header apart;
    in particular it carries the same [Idempotency-Key]. *)
Theorem retry_is_original_request win (w : World number) c cfg :
  EventLoop.reachable win w ->
  Retried c cfg ∈ log w ->
  ∃ cfg0, Requested c cfg0 ∈ log w ∧
    (∀ cfg1, Requested c cfg1 ∈ log w -> cfg1 = cfg0) ∧
    url cfg = url cfg0 ∧ method cfg = method cfg0 ∧ data cfg = data cfg0 ∧
    (∀ k, k ≠ api.Authorization -> header cfg k = header cfg0 k) ∧
    header cfg IdempotencyKey = header cfg0 IdempotencyKey.
Proof.
  intros Hreach Hin.
  pose proof (reachable_traced _ _ Hreach) as [T1 T2 T3 T4 T5].
  destruct (T3 _ _ Hin) as (cfg0 & H0 & Hu & Hm & Hd & Hh).
  exists cfg0. split; [done|]. split; [intros cfg1 H1; by eapply T5|].
  split; [done|]. split; [done|]. split; [done|].
  split; [intros k Hk; symmetry; by apply Hh|].
  symmetry. apply Hh. by vm_compute.
Qed.
End TracedFacts.

(** ** The image chosen among equals *)
Section PrimaryImageOrder.
Import productImages.

Lemma compareFn_antisym a b : (0 < compareFn a b -> compareFn b a < 0)%Z.
Proof.
  unfold compareFn.
  destruct (default false (isPrimary a)), (default false (isPrimary b)); simpl; lia.
Qed.

(** The first element after the sort is the first, in the order of the
    array, of the elements that no other one beats. *)
Lemma array_sort_first l :
  l ≠ [] ->
  ∃ i hd rest, array_sort compareFn l = hd :: rest ∧ l !! i = Some hd ∧
    (∀ y, y ∈ l -> (compareFn hd y ≤ 0)%Z) ∧
    (∀ j y, (j < i)%nat -> l !! j = Some y -> (compareFn hd y < 0)%Z).
Proof.
  induction l as [|x l IH]; [done|]. intros _. simpl.
  destruct l as [|x' l'].
  - simpl. exists 0%nat, x, []. split; [done|]. split; [done|]. split.
    + intros y ->%list_elem_of_singleton. rewrite compareFn_refl. lia.
    + intros j y Hj. lia.
  - destruct IH as (i & hd & rest & Heq & Hi & Hmin & Hfirst); [done|].
    rewrite Heq. simpl.
    destruct (compareFn x hd <=? 0)%Z eqn:Hc.
    + apply Z.leb_le in Hc.
      exists 0%nat, x, (hd :: rest). split; [done|]. split; [done|]. split.
      * intros y [->|Hy]%elem_of_cons; [rewrite compareFn_refl; lia|].
        eapply compareFn_trans; eauto.
      * intros j y Hj. lia.
    + apply Z.leb_gt in Hc.
      exists (S i), hd, (sort_insert compareFn x rest). split; [done|].
      split; [done|]. split.
      * intros y [->|Hy]%elem_of_cons; [by apply compareFn_total | by apply Hmin].
      * intros [|j] y Hj; simpl.
        -- intros [= <-]. by apply compareFn_antisym.
        -- apply Hfirst. lia.
Qed.

(** X24: among images that the comparator ranks alike the first of the
    array wins: [pickPrimaryImage] returns the url of an image that no
    image of the array beats and that beats every image in front of it
    (the sort is stable). *)
Theorem pickPrimaryImage_first_best (images : option loc) (h : heap) :
  (∀ l, images = Some l -> is_Some (h !! l)) ->
  let arr := default [] (images ≫= (h !!.)) in
  arr ≠ [] ->
  ∃ i img, arr !! i = Some img ∧
    fst (pickPrimaryImage images h) = Some (url img) ∧
    (∀ y, y ∈ arr -> (compareFn img y ≤ 0)%Z) ∧
    (∀ j y, (j < i)%nat -> arr !! j = Some y -> (compareFn img y < 0)%Z).
Proof.
  intros Hwf arr. unfold pickPrimaryImage. subst arr.
  destruct images as [l0|]; simpl; [|done].
  destruct (Hwf l0 eq_refl) as [a Ha]. rewrite Ha. simpl.
  destruct a as [|x a']; [done|]. intros _.
  destruct (array_sort_first (x :: a')) as (i & hd & rest & Hs & Hi & Hmin & Hfirst); [done|].
  rewrite insert_insert_eq, lookup_insert_eq. simpl.
  simpl in Hs. rewrite Hs. simpl.
  exists i, hd. done.
Qed.
End PrimaryImageOrder.

(** ** The categories of a payload *)
Section PayloadCategoryFacts.
Context `{JSNumber number}.

Lemma set_from_elem seen xs x : x ∈ set_from seen xs ↔ x ∈ xs ∧ x ∉ seen.
Proof.
  revert seen. induction xs as [|y xs IH]; intros seen; simpl.
  - rewrite elem_of_nil. tauto.
  - case_bool_decide as Hy.
    + rewrite IH, elem_of_cons. split; [tauto|].
      intros [[->|Hx] Hn]; [done | tauto].
    + rewrite !elem_of_cons, IH, not_elem_of_cons.
      destruct (decide (x = y)) as [->|Hne]; tauto.
Qed.

Lemma set_from_NoDup seen xs : NoDup (set_from seen xs).
Proof.
  revert seen. induction xs as [|y xs IH]; intros seen; simpl; [constructor|].
  case_bool_decide as Hy; [apply IH|].
  constructor; [|apply IH].
  rewrite set_from_elem, not_elem_of_cons. tauto.
Qed.

Lemma set_from_keeps seen xs :
  NoDup xs -> (∀ x, x ∈ xs -> x ∉ seen) -> set_from seen xs = xs.
Proof.
  revert seen. induction xs as [|y xs IH]; intros seen Hnd Hfresh; simpl; [done|].
  apply NoDup_cons in Hnd as [Hy Hnd].
  rewrite bool_decide_eq_false_2 by (apply Hfresh; left).
  f_equal. apply IH; [done|].
  intros x Hx. rewrite not_elem_of_cons. split; [by intros ->|].
  apply Hfresh. by right.
Qed.

(** X25: the categories sent with a product are the selected ones and
    the main category, each once: no category is sent twice, none is
    lost, and a selection without repetition keeps its order, with the
    main category added at the end when it was not selected. *)
Theorem payload_categoryIds_spec (categoryId : jstring) (categoryIds : list jstring) :
  let sent := ProductForm.payload_categoryIds categoryId categoryIds in
  NoDup sent ∧
  (∀ x, x ∈ sent ↔ x ∈ categoryIds ∨ (x = categoryId ∧ categoryId ≠ [])) ∧
  (NoDup categoryIds ->
   sent = if bool_decide (categoryId = [] ∨ categoryId ∈ categoryIds)
          then categoryIds else categoryIds ++ [categoryId]).
Proof.
  unfold ProductForm.payload_categoryIds. simpl.
  split; [apply set_from_NoDup|]. split.
  - intros x. rewrite set_from_elem, elem_of_app.
    pose proof (not_elem_of_nil x) as Hnil.
    destruct categoryId as [|c t].
    + rewrite elem_of_nil.
      split; [tauto | intros [?|[_ Hne]]; [tauto | done]].
    + rewrite list_elem_of_singleton.
      split; [intros [[?|?] _]; [by left | by right] | intros [?|[? _]]; tauto].
  - intros Hnd. case_bool_decide as Hc.
    + destruct Hc as [->|Hin].
      * rewrite app_nil_r. apply set_from_keeps; [done|]. intros; apply not_elem_of_nil.
      * destruct categoryId as [|c t].
        { rewrite app_nil_r. apply set_from_keeps; [done|]. intros; apply not_elem_of_nil. }
        assert (Hgen : ∀ seen xs, (c :: t) ∈ seen ∨ (c :: t) ∈ xs -> NoDup xs ->
                  (∀ x, x ∈ xs -> x ∉ seen) ->
                  set_from seen (xs ++ [c :: t]) = xs).
        { clear. intros seen xs. revert seen.
          induction xs as [|y xs IH]; intros seen Hin Hnd Hfresh; simpl.
          - destruct Hin as [Hin|Hin]; [|by apply elem_of_nil in Hin].
            by rewrite bool_decide_eq_true_2.
          - apply NoDup_cons in Hnd as [Hy Hnd].
            rewrite bool_decide_eq_false_2 by (apply Hfresh; left).
            f_equal. apply IH; [|done|].
            + destruct Hin as [Hin|Hin]; [left; by right|].
              apply elem_of_cons in Hin as [->|Hin]; [left; left | by right].
            + intros x Hx. rewrite not_elem_of_cons. split; [by intros ->|].
              apply Hfresh. by right. }
        apply Hgen; [by right | done | intros; apply not_elem_of_nil].
    + destruct categoryId as [|c t]; [exfalso; apply Hc; by left|].
      apply set_from_keeps.
      * apply NoDup_app. split; [done|]. split; [|apply NoDup_singleton].
        intros x Hx ->%list_elem_of_singleton. apply Hc. by right.
      * intros; apply not_elem_of_nil.
Qed.
End PayloadCategoryFacts.

(** ** The login *)
Section LoginSubmitFacts.
Import Runtime.
Context `{JSNumber number} `{!JSONOps number}.

Ltac js_unfold :=
  unfold mbind, mret, JS_bind, JS_ret, gets, modify, throw, settled, or_throw, try_catch.

(** X26: in the browser a login attempt never throws and ends in one of
    two ways: the token of the answer is stored and the router is sent
    to the target [safeNext] allows; or, when the POST failed or its
    answer has no usable token, the stored session and the router are as
    they were.  Either way nothing is sent and no refresh starts. *)
Theorem login_attempt_outcome (nextParam : option jstring)
    (r : thrown number + Response number) (w : World number) :
  window w ≠ None ->
  ∃ w', LoginPage.onSubmit_resume nextParam r w = (inr (), w') ∧ net w' = net w ∧
        login_outcome nextParam r w w'.
Proof.
  intros Hwin. unfold login_outcome, LoginPage.onSubmit_resume. js_unfold.
  destruct r as [e|res]; simpl.
  { exists w. done. }
  set (token := nullish (get_prop (resp_data res) "accessToken")
                  (get_prop (resp_data res) "token")).
  pose proof (setAccessToken_value token w) as Hset.
  destruct (ToBoolean token) eqn:Htrue; simpl.
  2:{ exists w. split; [done|]. split; [done|]. by destruct (ToString token). }
  destruct (ToString token) as [t|] eqn:Hstr.
  2:{ rewrite (Hset Hwin). simpl. exists w. done. }
  destruct Hset as (w1 & -> & Hn1 & Hr1 & Hk1). simpl.
  set (user := nullish _ _).
  destruct (setMe_stores user w1) as (w2 & Heq & Hn2 & Hr2 & _ & Hk2).
  unfold authStore.setMe, modify in Heq. injection Heq as Heq. rewrite Heq.
  eexists. split; [done|]. split; [exact (eq_trans Hn2 Hn1)|]. split; [|done].
  change (stored (set_router_replaced (LoginPage.safeNext nextParam) w2)) with (stored w2).
  rewrite Hk2, Hk1 by (intros Hkey; symmetry in Hkey; by apply session_keys_differ in Hkey).
  rewrite bool_decide_eq_true_2 by done.
  by destruct (window w).
Qed.
End LoginSubmitFacts.

(** ** The further properties on concrete inputs *)
Section FurtherExamples.
Import Runtime.

Lemma toggleCategoryId_twice_witness :
  let prev := [lit "hair"; lit "skin"] in
  NoDup prev ∧
  ProductForm.toggleCategoryId (lit "skin")
    (ProductForm.toggleCategoryId (lit "skin") prev) ≡ₚ prev ∧
  ProductForm.toggleCategoryId (lit "nails")
    (ProductForm.toggleCategoryId (lit "nails") prev) = prev.
Proof.
  intros prev.
  assert (Hnd : NoDup prev) by (apply (bool_decide_unpack _); vm_compute; exact I).
  split; [exact Hnd|]. split.
  - apply (toggleCategoryId_twice (lit "skin") prev Hnd).
  - apply (toggleCategoryId_twice (lit "nails") prev Hnd).
    apply (bool_decide_unpack _). vm_compute. exact I.
Defined.


Lemma humanLoginError_messages_witness :
  let err := LoginPage.mkLoginFailure None None None None
               (Some (lit "Login OK mas n" ++ [0xE3] ++ lit "o veio accessToken.")) in
  LoginPage.code err ≠ Some (lit "ECONNABORTED") ∧
  LoginPage.response_status err = None ∧
  LoginPage.humanLoginError err = LoginPage.no_connection.
Proof.
  intros err.
  assert (Hcode : LoginPage.code err ≠ Some (lit "ECONNABORTED")) by done.
  split; [exact Hcode|]. split; [reflexivity|].
  destruct (humanLoginError_messages err) as (_ & Hnone & _).
  apply Hnone; [exact Hcode | left; reflexivity].
Defined.

Lemma action_keys_injective_witness :
  (colon ∉ lit "s1") ∧ (colon ∉ lit "s2") ∧
  InboxPage.IdemKey (lit "s1") (lit "approve-seller") ≠
  InboxPage.IdemKey (lit "s2") (lit "approve-seller").
Proof.
  assert (H1 : colon ∉ lit "s1") by (apply (bool_decide_unpack _); vm_compute; exact I).
  assert (H2 : colon ∉ lit "s2") by (apply (bool_decide_unpack _); vm_compute; exact I).
  split; [exact H1|]. split; [exact H2|].
  intros Heq.
  destruct (action_keys_injective (lit "s1") (lit "s2") (lit "approve-seller")
              (lit "approve-seller") H1 H2) as [Hinbox _].
  destruct (Hinbox Heq) as [Hid _]. vm_compute in Hid. discriminate Hid.
Defined.

Lemma category_createM_blank_witness :
  ∃ r, CategoriesPage.createM (number:=Z) (lit "  Shampoo ") = Some r ∧
       req_body r = VObj [(lit "name", VStr (lit "Shampoo"))] ∧
       key_of r = Some (lit "cat-create:shampoo").
Proof.
  eexists. split; [vm_compute; reflexivity|].
  destruct (category_createM_blank (number:=Z) (lit "  Shampoo ")) as [_ Hsome].
  edestruct Hsome as (_ & Hbody & Hkey); [vm_compute; reflexivity|].
  split; [vm_compute; reflexivity | vm_compute; reflexivity].
Defined.

Lemma flattened_key_order_independent_witness :
  let a : list (jstring * JSVal Z) :=
    [(lit "value", VNum 10%Z); (lit "active", VBool true)] in
  let b : list (jstring * JSVal Z) :=
    [(lit "active", VBool true); (lit "value", VNum 10%Z)] in
  NoDup a.*1 ∧ a ≡ₚ b ∧
  EditPages.stableIdemForPatch (lit "c1") a = EditPages.stableIdemForPatch (lit "c1") b ∧
  EditPages.stableIdemForPatch (lit "c1") b =
    Some (lit "admin-coupon-patch:c1:active=true&value=10").
Proof.
  intros a b.
  assert (Hnd : NoDup a.*1) by (apply (bool_decide_unpack _); vm_compute; exact I).
  assert (Hp : a ≡ₚ b) by apply perm_swap.
  split; [exact Hnd|]. split; [exact Hp|]. split.
  - apply (flattened_key_order_independent (lit "p") (lit "c1") a b Hnd Hp).
  - vm_compute. reflexivity.
Defined.

Lemma idemKey_url_safe_witness :
  let key := EditPages.idemKey (number:=Z) (H0:=zero_digest_builtins)
               (lit "product-update:p1") (VObj []) in
  ∃ k, key = lit "product-update:p1" ++ [colon] ++ k ∧ length k = 43%nat ∧
       Forall (λ c, is_b64url c = true) k.
Proof.
  apply (idemKey_url_safe (number:=Z) (H0:=zero_digest_builtins)).
  - reflexivity.
  - apply (bool_decide_unpack _). vm_compute. exact I.
Defined.

Lemma redirect_to_login_one_parameter_witness :
  let w := EventLoop.init (number:=Z) (Some sample_window) in
  ∃ enc,
    fst (api.redirect_to_login w) = inr () ∧
    location_href <$> window (snd (api.redirect_to_login w)) =
      Some (Some (lit "/login?next=" ++ enc)) ∧
    Forall uri_safe enc.
Proof.
  intros w.
  apply (redirect_to_login_one_parameter w sample_window).
  - reflexivity.
  - apply (bool_decide_unpack _). vm_compute. exact I.
Defined.

Lemma token_round_trip_witness :
  let w := EventLoop.init (number:=Z) (Some signed_in_window) in
  let w' := snd (authStore.setAccessToken (VStr (lit "tok2")) w) in
  fst (authStore.getAccessToken w') = inr (Some (lit "tok2")) ∧
  stored w' (lit "theme") = Some (lit "dark").
Proof.
  intros w w'.
  destruct (token_round_trip (number:=Z) (lit "tok2") w) as (Htok & _ & Hkeep).
  split; [exact Htok|].
  transitivity (stored w (lit "theme")); [|vm_compute; reflexivity].
  apply Hkeep. apply (bool_decide_unpack _). vm_compute. exact I.
Defined.

Lemma clearAll_signs_out_witness :
  let w := EventLoop.init (number:=Z) (Some signed_in_window) in
  let w' := snd (authStore.clearAll w) in
  fst (authStore.getAccessToken w') = inr None ∧
  stored w' (lit "theme") = Some (lit "dark") ∧
  fst (api.request_interceptor sample_patch w') = inr sample_patch.
Proof.
  intros w w'.
  destruct (clearAll_signs_out (number:=Z) w) as (Htok & _ & Hkeep & Hsent).
  split; [exact Htok|]. split; [|apply Hsent].
  transitivity (stored w (lit "theme")); [|vm_compute; reflexivity].
  apply Hkeep; apply (bool_decide_unpack _); vm_compute; exact I.
Defined.

Lemma guard_run_with_token_witness :
  let w := EventLoop.init (number:=Z) (Some signed_in_window) in
  truthy (stored w authStore.ACCESS_TOKEN_KEY) = true ∧
  is_Some (encodeURIComponent (or_else (lit "/admin/orders") (lit "/admin"))) ∧
  guard_signed_out (lit "/login")
    (snd (AuthGuard.run (JSONOps0:=seller_JSON) (lit "/admin/orders") w)) ∧
  snd (AuthGuard.run (JSONOps0:=no_JSON) (lit "/admin/orders") w) = w.
Proof.
  intros w.
  assert (Htok : truthy (stored w authStore.ACCESS_TOKEN_KEY) = true) by reflexivity.
  assert (Henc : is_Some (encodeURIComponent (or_else (lit "/admin/orders") (lit "/admin"))))
    by (eexists; vm_compute; reflexivity).
  split; [exact Htok|]. split; [exact Henc|]. split.
  - destruct (guard_run_with_token (JSONOps0:=seller_JSON) (lit "/admin/orders") w Htok Henc)
      as (me & w' & Hme & Hrun & _ & Hcase).
    rewrite Hrun. vm_compute in Hme. injection Hme as <-. exact Hcase.
  - destruct (guard_run_with_token (JSONOps0:=no_JSON) (lit "/admin/orders") w Htok Henc)
      as (me & w' & Hme & Hrun & _ & Hcase).
    rewrite Hrun. vm_compute in Hme. injection Hme as <-. exact Hcase.
Defined.


Lemma sample_guarding_reachable : EventLoop.reachable (Some sample_window) sample_guarding.
Proof. apply reachable_run. constructor. Qed.

Lemma guard_reply_outcome_witness :
  let next := lit "/login?next=%2Fadmin" in
  let w' := EventLoop.step sample_guarding (EventLoop.Reply 0 unauthorized) in
  EventLoop.reachable (Some sample_window) sample_guarding ∧
  window sample_guarding ≠ None ∧
  pending sample_guarding !! 0%nat = Some (ViaApi api.refresh_post (Guard next)) ∧
  pending w' = [] ∧ refreshing w' = None ∧ waiters w' = [] ∧
  guard_signed_out next w'.
Proof.
  intros next w'.
  assert (Hwin : window sample_guarding ≠ None) by done.
  assert (Hi : pending sample_guarding !! 0%nat = Some (ViaApi api.refresh_post (Guard next)))
    by (vm_compute; reflexivity).
  split; [exact sample_guarding_reachable|]. split; [exact Hwin|]. split; [exact Hi|].
  split; [vm_compute; reflexivity|]. split; [vm_compute; reflexivity|].
  split; [vm_compute; reflexivity|].
  destruct (guard_reply_outcome _ _ _ _ _ unauthorized sample_guarding_reachable Hwin Hi)
    as [_ Hout].
  exact Hout.
Defined.

Lemma sample_settled_reachable : EventLoop.reachable (Some sample_window) sample_settled.
Proof. apply reachable_run. constructor. Qed.

Lemma every_call_settles_once_witness :
  EventLoop.reachable (Some sample_window) sample_settled ∧
  pending sample_settled = [] ∧ next_call sample_settled = 1%nat ∧
  delivered_count (App 0) (log sample_settled) = 1%nat.
Proof.
  split; [exact sample_settled_reachable|].
  split; [vm_compute; reflexivity|]. split; [vm_compute; reflexivity|].
  destruct (every_call_settles_once _ _ sample_settled_reachable) as (_ & _ & Hdone).
  apply Hdone; [vm_compute; reflexivity | vm_compute; lia].
Defined.

Lemma retry_is_original_request_witness :
  let w := EventLoop.step sample_refreshing (EventLoop.Reply 0 refreshed) in
  let retried := sent_config (with_bearer (lit "tok2") (set_retry true sample_patch)) w in
  EventLoop.reachable (Some sample_window) w ∧
  Retried (App 1) retried ∈ log w ∧
  header retried IdempotencyKey = Some (lit "admin-order:o1:approve") ∧
  url retried = Some (lit "/admin/orders/o1").
Proof.
  intros w retried.
  assert (Hr : EventLoop.reachable (Some sample_window) w)
    by (constructor; exact sample_refreshing_reachable).
  assert (Hin : Retried (App 1) retried ∈ log w)
    by (apply (list_elem_of_lookup_2 _ 4%nat); vm_compute; reflexivity).
  assert (Hfirst : Requested (App 1) sample_patch ∈ log w)
    by (apply (list_elem_of_lookup_2 _ 1%nat); vm_compute; reflexivity).
  split; [exact Hr|]. split; [exact Hin|].
  destruct (retry_is_original_request _ _ _ _ Hr Hin)
    as (cfg0 & _ & Huniq & Hurl & _ & _ & _ & Hkey).
  rewrite <- (Huniq _ Hfirst) in Hkey, Hurl.
  split; [rewrite Hkey; vm_compute; reflexivity | rewrite Hurl; reflexivity].
Defined.

Lemma pickPrimaryImage_first_best_witness :
  let img (n : string) p s :=
    productImages.mkProductImage (lit n) (lit "https://cdn/" ++ lit n) None p s None None in
  let arr := [img "a" None (Some 2%Z); img "b" (Some true) (Some 5%Z);
              img "c" (Some true) (Some 5%Z)] in
  let h : gmap nat (list productImages.ProductImage) := {[ 0%nat := arr ]} in
  (∀ l, Some 0%nat = Some l -> is_Some (h !! l)) ∧
  fst (productImages.pickPrimaryImage (Some 0%nat) h) = Some (lit "https://cdn/b") ∧
  ∃ i image, arr !! i = Some image ∧
    fst (productImages.pickPrimaryImage (Some 0%nat) h) = Some (productImages.url image) ∧
    ∀ j y, (j < i)%nat -> arr !! j = Some y -> (productImages.compareFn image y < 0)%Z.
Proof.
  intros img arr h.
  assert (Hwf : ∀ l, Some 0%nat = Some l -> is_Some (h !! l)).
  { intros l [= <-]. by eexists. }
  split; [exact Hwf|]. split; [vm_compute; reflexivity|].
  destruct (pickPrimaryImage_first_best (Some 0%nat) h Hwf) as (i & image & Hi & Hres & _ & Hfirst).
  { vm_compute. discriminate. }
  exists i, image. split; [exact Hi|]. split; [exact Hres | exact Hfirst].
Defined.
Lemma payload_categoryIds_spec_witness :
  let selected := [lit "hair"; lit "skin"] in
  NoDup selected ∧
  ProductForm.payload_categoryIds (lit "nails") selected =
    [lit "hair"; lit "skin"; lit "nails"] ∧
  ProductForm.payload_categoryIds (lit "skin") selected = selected.
Proof.
  intros selected.
  assert (Hnd : NoDup selected) by (apply (bool_decide_unpack _); vm_compute; exact I).
  split; [exact Hnd|]. split.
  - destruct (payload_categoryIds_spec (lit "nails") selected) as (_ & _ & Heq).
    rewrite (Heq Hnd). vm_compute. reflexivity.
  - destruct (payload_categoryIds_spec (lit "skin") selected) as (_ & _ & Heq).
    rewrite (Heq Hnd). vm_compute. reflexivity.
Defined.

Lemma login_attempt_outcome_witness :
  let w := EventLoop.init (number:=Z) (Some sample_window) in
  let target := Some (lit "//evil.example/admin") in
  let w' := snd (LoginPage.onSubmit_resume target (EventLoop.axios_settle sample_get refreshed) w) in
  window w ≠ None ∧
  stored w' authStore.ACCESS_TOKEN_KEY = Some (lit "tok2") ∧
  router_replaced w' = Some (lit "/admin").
Proof.
  intros w target w'.
  assert (Hwin : window w ≠ None) by done.
  split; [exact Hwin|].
  destruct (login_attempt_outcome target (EventLoop.axios_settle sample_get refreshed) w Hwin)
    as (w1 & Hrun & _ & Hout).
  subst w'. rewrite Hrun. exact Hout.
Defined.
End FurtherExamples.
